(** * CoinPlex SDK: signed requests, response decryption, dispatch and scheduling

    A shallow embedding of the core of the SDK:
    - [src/core/signature.js]      (calculateSignature, prepareSignedPayload, verifySignature)
    - [src/core/decryption.js]     (decryptRSAResponse, decryptAESString, processApiResponse)
    - [src/core/authentication.js] (_extractTokenFromResponse)
    - [src/core/CoinPlexClient.js] (request, getStats, resetStats)
    - [src/api/quantify.js]        (scheduleExecutions, getExecutionStats)

    A JavaScript string is modelled as the Rocq string of its UTF-8 bytes,
    which is what HMAC hashes; where the code compares strings by UTF-16 code
    unit (sorting keys), the code units are decoded from those bytes.
    JavaScript numbers that the SDK only ever uses as integers (timestamps,
    counters, HTTP status codes, delays) are modelled as [Z]; a number held
    in a value is an integer [VNum] or, when it is no integer, a [VDouble]
    carried as its decimal text.  The success rate of the execution
    statistics is computed in binary64, each operation rounded to the
    nearest Number. *)

From Stdlib Require Import ZArith Ascii DecimalString QArith Qround Qpower Lqa.
From stdpp Require Import base list strings sorting gmap.

Local Open Scope Z_scope.

(** ** JavaScript values *)

Module JS.

Local Set Warnings "-register-all".

(** Plain data as produced by [JSON.parse] and object literals.  An object is
    the list of its own enumerable properties in enumeration order; a
    well-formed object has no repeated key.  A Number with an integer value
    is [VNum] ([-0] is [VNum 0]); any other Number (a fraction, [NaN], an
    infinity) is [VDouble], carried as the text that [Number::toString]
    gives for it, such as ["0.1"], ["NaN"] or ["-Infinity"]. *)
Inductive value : Type :=
| VUndef
| VNull
| VBool (b : bool)
| VNum (n : Z)
| VDouble (text : string)
| VStr (s : string)
| VArr (elems : list value)
| VObj (props : list (string * value)).

Definition object := list (string * value).

Definition keys (o : object) : list string := map fst o.

Definition wf (o : object) : Prop := NoDup (keys o).

(** [o[k]]: the first (only) property named [k], [undefined] if absent. *)
Fixpoint get (o : object) (k : string) : value :=
  match o with
  | [] => VUndef
  | (k', v) :: rest => if String.eqb k' k then v else get rest k
  end.

Definition has (o : object) (k : string) : bool :=
  existsb (fun kv => String.eqb (fst kv) k) o.

(** [o[k] = v]: overwrite in place, or append a new property at the end. *)
Fixpoint set (o : object) (k : string) (v : value) : object :=
  match o with
  | [] => [(k, v)]
  | (k', v') :: rest =>
      if String.eqb k' k then (k', v) :: rest else (k', v') :: set rest k v
  end.

(** [delete o[k]]. *)
Fixpoint delete (o : object) (k : string) : object :=
  match o with
  | [] => []
  | (k', v') :: rest =>
      if String.eqb k' k then delete rest k else (k', v') :: delete rest k
  end.

(** ToBoolean. *)
Definition truthy (v : value) : bool :=
  match v with
  | VUndef | VNull => false
  | VBool b => b
  | VNum n => negb (n =? 0)
  | VDouble text => negb (String.eqb text "NaN")
  | VStr s => negb (String.eqb s "")
  | VArr _ | VObj _ => true
  end.

Definition string_of_Z (n : Z) : string :=
  NilZero.string_of_int (Z.to_int n).

(** [Number::toString] for a Number [x] with an integer value of at least
    [2^53], where not every integer is a Number any more.  [x] is
    [m × 2^e] with [2^52 ≤ m < 2^53], and the Numbers next to it are [2^e]
    away ([2^(e-1)] below a power of two).  A decimal [v] converts to [x]
    when it lies within half a gap of [x]; a decimal on the boundary converts
    to [x] when [m] is even.  All quantities are scaled by 4. *)
Definition convertsTo (x v : Z) : bool :=
  let e := Z.log2 x - 52 in
  let gap := 2 ^ e in
  let below := if x =? 2 ^ (e + 52) then gap else 2 * gap in
  let above := 2 * gap in
  if Z.even (x / gap)
  then (4 * x - below <=? 4 * v) && (4 * v <=? 4 * x + above)
  else (4 * x - below <? 4 * v) && (4 * v <? 4 * x + above).

(** The decimal with the fewest significant digits [k] that converts to [x];
    of two with [k] digits the one closer to [x], and on a tie the one whose
    digits form an even number.  [digits] is the number of digits of [x]. *)
Fixpoint shortestDecimal (fuel : nat) (x : Z) (digits k : nat) : Z :=
  match fuel with
  | O => x
  | S fuel' =>
      let unit := 10 ^ Z.of_nat (digits - k) in
      let down := x / unit * unit in
      let up := down + unit in
      match convertsTo x down, convertsTo x up with
      | true, true =>
          if x - down <? up - x then down
          else if up - x <? x - down then up
          else if Z.even (x / unit) then down else up
      | true, false => down
      | false, true => up
      | false, false => shortestDecimal fuel' x digits (S k)
      end
  end.

Fixpoint dropZeros (digits : list ascii) : list ascii :=
  match digits with
  | c :: rest => if Ascii.eqb c "0" then dropZeros rest else digits
  | [] => []
  end.

(** The digits without their trailing zeros. *)
Definition stripZeros (digits : string) : string :=
  String.string_of_list_ascii
    (rev (dropZeros (rev (String.list_ascii_of_string digits)))).

(** Below [2^53] every integer is a Number and is written with all its
    digits.  From there on [n] is taken to be a Number (an integer that is
    none cannot be the value of a property): the digits are those of the
    shortest decimal, followed by zeros while there are at most 21 digits in
    all and written with an exponent beyond that. *)
Definition numberToString (n : Z) : string :=
  if Z.abs n <? 2 ^ 53 then string_of_Z n
  else
    let x := Z.abs n in
    let digits := String.length (string_of_Z x) in
    let text := string_of_Z (shortestDecimal digits x digits 1) in
    let sign := if n <? 0 then "-" else "" in
    if (String.length text <=? 21)%nat then sign +:+ text
    else
      let exponent := "e+" +:+ string_of_Z (Z.of_nat (String.length text) - 1) in
      match stripZeros text with
      | String first "" => sign +:+ String first "" +:+ exponent
      | String first rest => sign +:+ String first "" +:+ "." +:+ rest +:+ exponent
      | "" => sign +:+ text
      end.

(** ToString, as applied by a template literal. *)
Fixpoint toString (v : value) : string :=
  match v with
  | VUndef => "undefined"
  | VNull => "null"
  | VBool true => "true"
  | VBool false => "false"
  | VNum n => numberToString n
  | VDouble text => text
  | VStr s => s
  | VArr elems =>
      String.concat ","
        (map (fun e => match e with
                       | VUndef | VNull => ""
                       | _ => toString e
                       end) elems)
  | VObj _ => "[object Object]"
  end.

(** [v.k] for a value that is not [null] or [undefined]: own properties of
    objects; the keys read by the SDK ([data], [token], [sign]) are never
    defined on arrays or primitives. *)
Definition prop (v : value) (k : string) : value :=
  match v with
  | VObj o => get o k
  | _ => VUndef
  end.

(** [typeof v === 'object'] (true for [null], arrays and objects). *)
Definition typeof_object (v : value) : bool :=
  match v with
  | VNull | VArr _ | VObj _ => true
  | _ => false
  end.

End JS.

(** ** SHA-256 and HMAC (Node's [crypto.createHmac('sha256', key)]) *)

Module Sha256.

Definition byte_of_ascii (c : ascii) : Z := Z.of_N (N_of_ascii c).

Fixpoint bytes_of_string (s : string) : list Z :=
  match s with
  | EmptyString => []
  | String c rest => byte_of_ascii c :: bytes_of_string rest
  end.

Definition mask32 : Z := 0xffffffff.
Definition add32 (a b : Z) : Z := Z.land (a + b) mask32.
Definition rotr (n x : Z) : Z :=
  Z.land (Z.lor (Z.shiftr x n) (Z.shiftl x (32 - n))) mask32.
Definition not32 (x : Z) : Z := Z.lxor x mask32.

Definition Ch (x y z : Z) : Z := Z.lxor (Z.land x y) (Z.land (not32 x) z).
Definition Maj (x y z : Z) : Z :=
  Z.lxor (Z.lxor (Z.land x y) (Z.land x z)) (Z.land y z).
Definition Sigma0 (x : Z) : Z := Z.lxor (Z.lxor (rotr 2 x) (rotr 13 x)) (rotr 22 x).
Definition Sigma1 (x : Z) : Z := Z.lxor (Z.lxor (rotr 6 x) (rotr 11 x)) (rotr 25 x).
Definition sigma0 (x : Z) : Z := Z.lxor (Z.lxor (rotr 7 x) (rotr 18 x)) (Z.shiftr x 3).
Definition sigma1 (x : Z) : Z := Z.lxor (Z.lxor (rotr 17 x) (rotr 19 x)) (Z.shiftr x 10).

(** The round constants and the initial state are the first 32 bits of the
    fractional parts of the cube roots of the first 64 primes and of the
    square roots of the first 8 (FIPS 180-4, sections 4.2.2 and 5.3.3). *)
Definition is_prime (n : Z) : bool :=
  forallb (λ d, negb (n mod Z.of_nat d =? 0)) (seq 2 (Z.to_nat n - 2)).

Definition primes : list Z :=
  Eval vm_compute in List.filter is_prime (map Z.of_nat (seq 2 310)).

(** The integer cube root, one bit at a time. *)
Fixpoint cube_root (bits : nat) (n r : Z) : Z :=
  match bits with
  | O => r
  | S b =>
      let c := Z.lor r (Z.shiftl 1 (Z.of_nat b)) in
      cube_root b n (if c * c * c <=? n then c else r)
  end.

Definition K : list Z :=
  Eval vm_compute in
    map (λ p, Z.land (cube_root 40 (Z.shiftl p 96) 0) mask32) primes.

Record state := State { ha : Z; hb : Z; hc : Z; hd : Z; he : Z; hf : Z; hg : Z; hh : Z }.

Definition frac_sqrt (p : Z) : Z := Z.land (Z.sqrt (Z.shiftl p 64)) mask32.

Definition H0 : state :=
  Eval vm_compute in
    State (frac_sqrt 2) (frac_sqrt 3) (frac_sqrt 5) (frac_sqrt 7)
          (frac_sqrt 11) (frac_sqrt 13) (frac_sqrt 17) (frac_sqrt 19).

(** Big-endian encoding of a length in [n] bytes. *)
Fixpoint be_bytes (n : nat) (x : Z) : list Z :=
  match n with
  | O => []
  | S n' => be_bytes n' (Z.shiftr x 8) ++ [Z.land x 0xff]
  end.

Definition pad (msg : list Z) : list Z :=
  let len := Z.of_nat (length msg) in
  let zeros := Z.to_nat ((55 - len) mod 64) in
  msg ++ [0x80] ++ repeat 0 zeros ++ be_bytes 8 (8 * len).

Fixpoint words_of_bytes (bs : list Z) : list Z :=
  match bs with
  | b3 :: b2 :: b1 :: b0 :: rest =>
      (Z.lor (Z.shiftl b3 24) (Z.lor (Z.shiftl b2 16) (Z.lor (Z.shiftl b1 8) b0)))
        :: words_of_bytes rest
  | _ => []
  end.

(** The message schedule, most recent word first. *)
Fixpoint extend (n : nat) (w : list Z) : list Z :=
  match n with
  | O => w
  | S n' =>
      let x := add32 (add32 (sigma1 (nth 1 w 0)) (nth 6 w 0))
                     (add32 (sigma0 (nth 14 w 0)) (nth 15 w 0)) in
      extend n' (x :: w)
  end.

Definition schedule (block : list Z) : list Z :=
  rev (extend 48 (rev (words_of_bytes block))).

Definition round (s : state) (kw : Z * Z) : state :=
  let '(k, w) := kw in
  let t1 := add32 (add32 (add32 (hh s) (Sigma1 (he s))) (add32 (Ch (he s) (hf s) (hg s)) k)) w in
  let t2 := add32 (Sigma0 (ha s)) (Maj (ha s) (hb s) (hc s)) in
  State (add32 t1 t2) (ha s) (hb s) (hc s) (add32 (hd s) t1) (he s) (hf s) (hg s).

Definition compress (s : state) (block : list Z) : state :=
  let r := fold_left round (combine K (schedule block)) s in
  State (add32 (ha s) (ha r)) (add32 (hb s) (hb r)) (add32 (hc s) (hc r)) (add32 (hd s) (hd r))
        (add32 (he s) (he r)) (add32 (hf s) (hf r)) (add32 (hg s) (hg r)) (add32 (hh s) (hh r)).

Fixpoint blocks (fuel : nat) (bs : list Z) : list (list Z) :=
  match fuel, bs with
  | O, _ | _, [] => []
  | S fuel', _ => take 64 bs :: blocks fuel' (drop 64 bs)
  end.

Definition word_bytes (w : Z) : list Z :=
  [Z.land (Z.shiftr w 24) 0xff; Z.land (Z.shiftr w 16) 0xff; Z.land (Z.shiftr w 8) 0xff; Z.land w 0xff].

Definition state_bytes (s : state) : list Z :=
  word_bytes (ha s) ++ word_bytes (hb s) ++ word_bytes (hc s) ++ word_bytes (hd s) ++
  word_bytes (he s) ++ word_bytes (hf s) ++ word_bytes (hg s) ++ word_bytes (hh s).

Definition sha256 (msg : list Z) : list Z :=
  let p := pad msg in
  state_bytes (fold_left compress (blocks (length p) p) H0).

Definition xor_pad (c : Z) (key : list Z) : list Z := map (fun b => Z.lxor b c) key.

Definition hmac (key msg : list Z) : list Z :=
  let key := if (64 <? Z.of_nat (length key)) then sha256 key else key in
  let key := key ++ repeat 0 (64 - length key)%nat in
  sha256 (xor_pad 0x5c key ++ sha256 (xor_pad 0x36 key ++ msg)).

Definition hex_digit (d : Z) : ascii :=
  match d with
  | 0 => "0" | 1 => "1" | 2 => "2" | 3 => "3" | 4 => "4" | 5 => "5" | 6 => "6" | 7 => "7"
  | 8 => "8" | 9 => "9" | 10 => "a" | 11 => "b" | 12 => "c" | 13 => "d" | 14 => "e" | _ => "f"
  end%char.

(** [digest('hex')]: two lowercase hexadecimal digits per byte. *)
Fixpoint hex (bs : list Z) : string :=
  match bs with
  | [] => EmptyString
  | b :: rest => String (hex_digit (Z.shiftr b 4)) (String (hex_digit (Z.land b 0xf)) (hex rest))
  end.

Definition is_lower_hex (c : ascii) : bool :=
  existsb (Ascii.eqb c) (String.list_ascii_of_string "0123456789abcdef").

Fixpoint all_chars (f : ascii → bool) (s : string) : bool :=
  match s with
  | EmptyString => true
  | String c rest => f c && all_chars f rest
  end.

(** [crypto.createHmac('sha256', secret).update(message).digest('hex')]. *)
Definition hmac_sha256_hex (secret message : string) : string :=
  hex (hmac (bytes_of_string secret) (bytes_of_string message)).

End Sha256.

(** ** Request signing ([src/core/signature.js]) *)

Module Signature.
Import JS.

(** The [forEach] of [calculateSignature]: [index] is the position of [key]
    in [sortedKeys], [signatureBase] the string built so far. *)
Fixpoint buildSignatureBase (data : object) (sortedKeys : list string)
    (index : nat) (signatureBase : string) : string :=
  match sortedKeys with
  | [] => signatureBase
  | key :: rest =>
      let signatureBase :=
        if (0 <? index)%nat then signatureBase +:+ "&" else signatureBase in
      let signatureBase :=
        signatureBase +:+ (key +:+ "=" +:+ toString (get data key)) in
      buildSignatureBase data rest (S index) signatureBase
  end.

(** The UTF-16 code units of the string whose UTF-8 bytes are [bytes]: a
    sequence of one to three bytes is one code unit, a sequence of four
    bytes (a code point from U+10000 on) is a surrogate pair.  Bytes that are
    no UTF-8 hold no JavaScript string; each is read as U+FFFD. *)
Fixpoint codeUnits (bytes : list Z) : list Z :=
  let continues (b : Z) := (0x80 <=? b) && (b <? 0xC0) in
  match bytes with
  | [] => []
  | b0 :: rest =>
      if b0 <? 0x80 then b0 :: codeUnits rest
      else
        match rest with
        | b1 :: rest1 =>
            if (0xC0 <=? b0) && (b0 <? 0xE0) && continues b1 then
              ((b0 - 0xC0) * 64 + (b1 - 0x80)) :: codeUnits rest1
            else
              match rest1 with
              | b2 :: rest2 =>
                  if (0xE0 <=? b0) && (b0 <? 0xF0) && continues b1 && continues b2 then
                    ((b0 - 0xE0) * 4096 + (b1 - 0x80) * 64 + (b2 - 0x80))
                      :: codeUnits rest2
                  else
                    match rest2 with
                    | b3 :: rest3 =>
                        if (0xF0 <=? b0) && (b0 <? 0xF8) && continues b1
                           && continues b2 && continues b3 then
                          let point :=
                            (b0 - 0xF0) * 262144 + (b1 - 0x80) * 4096
                            + (b2 - 0x80) * 64 + (b3 - 0x80) in
                          (0xD800 + (point - 0x10000) / 1024)
                            :: (0xDC00 + (point - 0x10000) mod 1024)
                            :: codeUnits rest3
                        else 0xFFFD :: codeUnits rest
                    | [] => 0xFFFD :: codeUnits rest
                    end
              | [] => 0xFFFD :: codeUnits rest
              end
        | [] => 0xFFFD :: codeUnits rest
        end
  end.

Definition unitsOf (s : string) : list Z := codeUnits (Sha256.bytes_of_string s).

(** [x < y] on strings: at the first position where the code units differ
    the smaller unit decides, and a proper prefix is smaller. *)
Fixpoint unitsLt (x y : list Z) : bool :=
  match x, y with
  | _, [] => false
  | [], _ :: _ => true
  | a :: x', b :: y' => (a <? b) || ((a =? b) && unitsLt x' y')
  end.

(** The order in which the default comparator of [sort] leaves two keys:
    by code unit.  Two different Rocq strings with the same code units hold
    no UTF-8; their bytes order them, which makes the order total on Rocq
    strings. *)
Definition keyLeb (a b : string) : bool :=
  unitsLt (unitsOf a) (unitsOf b)
  || (bool_decide (unitsOf a = unitsOf b) && bool_decide (String.le a b)).

Definition keyLe (a b : string) : Prop := keyLeb a b = true.

#[global] Instance keyLe_dec : RelDecision keyLe.
Proof. intros a b. unfold keyLe. apply _. Defined.

(** [Object.keys(data).sort()] *)
Definition sortedKeys (data : object) : list string :=
  merge_sort keyLe (keys data).

Definition signatureBase (data : object) : string :=
  buildSignatureBase data (sortedKeys data) 0 "".

Definition calculateSignature (data : object) (secret : string) : string :=
  Sha256.hmac_sha256_hex secret (signatureBase data).

(** [payload[key] === undefined || payload[key] === null || payload[key] === '']. *)
Definition is_blank (v : value) : bool :=
  match v with
  | VUndef | VNull => true
  | VStr s => String.eqb s ""
  | _ => false
  end.

(** [Object.keys(payload).forEach(key => { if (blank) delete payload[key]; })]. *)
Definition stripBlank (payload : object) : object :=
  fold_left (fun p key => if is_blank (get p key) then delete p key else p)
            (keys payload) payload.

(** [now] is the value of [new Date().getTime()]. *)
Definition prepareSignedPayload (now : Z) (customParams : object)
    (apiKey : value) (apiSecret : string) : object :=
  let payload := customParams in
  let payload :=
    if negb (truthy (get payload "timestamp"))
    then set payload "timestamp" (VNum now) else payload in
  let payload :=
    if negb (truthy (get payload "apiKey"))
    then set payload "apiKey" apiKey else payload in
  let payload := stripBlank payload in
  set payload "sign" (VStr (calculateSignature payload apiSecret)).

(** [a === b] where [b] is a string. *)
Definition strict_eq_string (a : value) (b : string) : bool :=
  match a with
  | VStr s => String.eqb s b
  | _ => false
  end.

Definition verifySignature (payload : object) (secret : string) : bool :=
  if negb (truthy (get payload "sign")) then false
  else
    let receivedSignature := get payload "sign" in
    let payloadWithoutSignature := delete payload "sign" in
    let calculatedSignature := calculateSignature payloadWithoutSignature secret in
    strict_eq_string receivedSignature calculatedSignature.

(** One [key=value] pair of the signature base string. *)
Definition item (data : object) (k : string) : string :=
  k +:+ "=" +:+ toString (get data k).

(** The canonical string in the words of the specification: the keys in
    lexicographic order, each rendered as [k=v], joined by [&]. *)
Definition canonical_string (data : object) (sorted : list string) : string :=
  String.concat "&" (map (item data) sorted).

(** Modelled from the spec: the keys sorted lexicographically by code point,
    which is the order of their UTF-8 bytes. *)
Definition sortedByCodePoint (data : object) : list string :=
  merge_sort String.le (keys data).

End Signature.

(** ** Exceptions *)

Inductive outcome (A : Type) : Type :=
| Return (a : A)
| Throw (message : string).
Arguments Return {A} a.
Arguments Throw {A} message.

#[global] Instance outcome_ret : MRet outcome := @Return.

(** Sequencing: an exception skips the rest of the block. *)
#[global] Instance outcome_bind : MBind outcome := λ A B k m,
  match m with
  | Return a => k a
  | Throw e => Throw e
  end.

(** A library call that either returns or throws [e]. *)
Definition orThrow {A : Type} (e : string) (o : option A) : outcome A :=
  match o with
  | Some a => Return a
  | None => Throw e
  end.

(** ** Library primitives used by the decryption module *)

(** The cryptographic and parsing libraries the SDK calls into.  [None]
    stands for the library's failure result: [false]/[null] for
    [JSEncrypt.decrypt], a thrown exception for the others. *)
Class Platform := {
  (** [jsEncrypt.decrypt(s)] under the SDK's private key *)
  rsa_decrypt : string → option string;
  (** [Buffer.from(s, 'base64')] *)
  base64_decode : string → list Z;
  (** [buffer.toString('base64')] *)
  base64_encode : list Z → string;
  decodeURIComponent : string → option string;
  JSON_parse : string → option JS.value;
  (** [CryptoJS.AES.decrypt(s, key).toString(CryptoJS.enc.Utf8)] *)
  aes_decrypt : string → string → option string;
  (** [CryptoJS.AES.decrypt({ ciphertext: CryptoJS.enc.Base64.parse(s) }, key)
      .toString(CryptoJS.enc.Utf8)] *)
  aes_decrypt_base64 : string → string → option string;
}.

(** ** Response decryption ([src/core/decryption.js]) *)

Module Decryption.
Import JS.

Definition encryptionKey : string := "$mu%!242:=en".
Definition maxDecryptBlock : nat := 128.

(** [buf.slice(i, j)] *)
Definition slice {A : Type} (l : list A) (i j : nat) : list A :=
  take (j - i) (drop i l).

(** [s.replace(/\+/g, '%20')] *)
Fixpoint replacePlus (s : string) : string :=
  match s with
  | EmptyString => EmptyString
  | String c rest =>
      if Ascii.eqb c "+" then String "%" (String "2" (String "0" (replacePlus rest)))
      else String c (replacePlus rest)
  end.

Definition string_of_nat (n : nat) : string := string_of_Z (Z.of_nat n).

Section WithPlatform.
Context `{Platform}.

(** The splitting loop [for (let i = 0; i < rawData.length; i += chunkSize)];
    [fuel] bounds the number of iterations. *)
Fixpoint splitLoop (fuel : nat) (rawData : list Z) (chunkSize i : nat)
    (chunks : list string) : list string :=
  match fuel with
  | O => chunks
  | S fuel' =>
      if (i <? length rawData)%nat then
        let chunk := slice rawData i (i + chunkSize) in
        splitLoop fuel' rawData chunkSize (i + chunkSize)
                  (chunks ++ [base64_encode chunk])
      else chunks
  end.

(** The decryption loop [for (let i = 0; i < chunks.length; i++)] over the
    chunks from position [i] on. *)
Fixpoint decryptLoop (chunks : list string) (i : nat)
    (decryptedChunks : list string) : outcome (list string) :=
  match chunks with
  | [] => Return decryptedChunks
  | chunk :: rest =>
      match rsa_decrypt chunk with
      | None => Throw ("Chunk " +:+ string_of_nat (i + 1) +:+ " decryption failed")
      | Some decryptedChunk =>
          decryptLoop rest (S i) (decryptedChunks ++ [decryptedChunk])
      end
  end.

(** Lines 65-94: single-block decryption, then the chunked fallback. *)
Definition rsaDecryptedResult (encryptedData : string) : outcome string :=
  match rsa_decrypt encryptedData with
  | Some decryptedResult => Return decryptedResult
  | None =>
      let rawData := base64_decode encryptedData in
      let chunkSize := 128%nat in
      let chunks := splitLoop (length rawData) rawData chunkSize 0 [] in
      decryptedChunks ← decryptLoop chunks 0 [];
      Return (String.concat "" decryptedChunks)
  end.

(** Lines 96-105: emptiness check, [+] substitution, URL decoding, JSON. *)
Definition postRSA (decryptedResult : string) : outcome value :=
  if String.eqb decryptedResult "" then
    Throw "RSA decryption returned null or false"
  else
    urlDecoded ← orThrow "URI malformed"
                   (decodeURIComponent (replacePlus decryptedResult));
    orThrow "Unexpected token" (JSON_parse urlDecoded).

(** The [try] block of [decryptRSAResponse]. *)
Definition decryptRSAResponse_try (encryptedData : string) (maxDecryptBlock : nat)
  : outcome value :=
  decryptedResult ← rsaDecryptedResult encryptedData;
  postRSA decryptedResult.

(** [decryptRSAResponse]: every exception is caught and turned into [null].
    The [maxDecryptBlock] argument is accepted and not read. *)
Definition decryptRSAResponse (encryptedData : string) (maxDecryptBlock : nat)
  : value :=
  match decryptRSAResponse_try encryptedData maxDecryptBlock with
  | Return v => v
  | Throw _ => VNull
  end.

Definition decryptAESString_try (encryptedData key : string) : outcome (option string) :=
  result ← orThrow "Malformed UTF-8 data" (aes_decrypt encryptedData key);
  result ← (if String.eqb result "" then
              orThrow "Malformed UTF-8 data" (aes_decrypt_base64 encryptedData key)
            else Return result);
  Return (if String.eqb result "" then None else Some result).

(** [decryptAESString]: the decrypted string, or [None] for [null]. *)
Definition decryptAESString (encryptedData key : string) : option string :=
  match decryptAESString_try encryptedData key with
  | Return r => r
  | Throw _ => None
  end.

(** [{ ...response, data, _originalEncryptedData, _decryptionMethod }] *)
Definition decrypted (response : object) (data : value) (original method : string)
  : object :=
  set (set (set response "data" data) "_originalEncryptedData" (VStr original))
      "_decryptionMethod" (VStr method).

(** [processApiResponse]: only a [data] property that is a non-empty string
    gets past the guard [!response.data || typeof response.data !== 'string'];
    reading [data] off [null] or [undefined] throws a [TypeError]. *)
Definition processApiResponse (response : value) : outcome value :=
  match response with
  | VUndef | VNull => Throw "Cannot read properties of null (reading 'data')"
  | VObj o =>
      match get o "data" with
      | VStr data =>
          if negb (truthy (VStr data)) then Return response
          else
            let rsaDecrypted := decryptRSAResponse data maxDecryptBlock in
            if truthy rsaDecrypted then
              Return (VObj (decrypted o rsaDecrypted data "RSA"))
            else
              match decryptAESString data encryptionKey with
              | Some aesDecrypted =>
                  let parsed :=
                    match JSON_parse aesDecrypted with
                    | Some v => v
                    | None => VStr aesDecrypted
                    end in
                  Return (VObj (decrypted o parsed data "AES"))
              | None => Return response
              end
      | _ => Return response
      end
  | _ => Return response
  end.

End WithPlatform.

(** The byte blocks cut by the splitting loop, before re-encoding. *)
Fixpoint rawBlocks (fuel : nat) (rawData : list Z) (chunkSize i : nat)
  : list (list Z) :=
  match fuel with
  | O => []
  | S fuel' =>
      if (i <? length rawData)%nat then
        slice rawData i (i + chunkSize)
          :: rawBlocks fuel' rawData chunkSize (i + chunkSize)
      else []
  end.

(** [blocks] cuts [raw] into blocks of [n] bytes, the last one possibly
    shorter but not empty. *)
Definition is_blocking (n : nat) (raw : list Z) (blocks : list (list Z)) : Prop :=
  concat blocks = raw ∧
  ∀ (i : nat) (b : list Z), blocks !! i = Some b →
    (0 < length b ≤ n)%nat ∧ ((S i < length blocks)%nat → length b = n).

(** A platform on which every library call fails. *)
Definition failing_platform : Platform :=
  {| rsa_decrypt := λ _, None;
     base64_decode := λ _, [];
     base64_encode := λ _, "";
     decodeURIComponent := λ _, None;
     JSON_parse := λ _, None;
     aes_decrypt := λ _ _, None;
     aes_decrypt_base64 := λ _ _, None |}.

(** A toy platform: "base64" is the identity on byte strings, "RSA" decrypts
    a block to itself as long as it fits in one 128-byte block, and the only
    JSON text is a string literal without quotes. *)
Definition toy_platform : Platform :=
  {| rsa_decrypt := λ s, if (String.length s <=? 128)%nat then Some s else None;
     base64_decode := Sha256.bytes_of_string;
     base64_encode := λ bs, String.string_of_list_ascii (map (λ b, ascii_of_N (Z.to_N b)) bs);
     decodeURIComponent := Some;
     JSON_parse := λ s, Some (VStr s);
     aes_decrypt := λ _ _, None;
     aes_decrypt_base64 := λ _ _, None |}.

End Decryption.

(** ** Token extraction ([src/core/authentication.js]) *)

Module Authentication.
Import JS.

(** The local [findToken] of [_extractTokenFromResponse].  [for (key in obj)]
    visits the properties of an object and the elements of an array in
    enumeration order; [null] is the result of a search that found nothing. *)
Fixpoint findToken (obj : value) : value :=
  match obj with
  | VObj props =>
      if truthy (get props "token") then get props "token"
      else
        (fix each (ps : list (string * value)) : value :=
           match ps with
           | [] => VNull
           | (_, child) :: rest =>
               let result := findToken child in
               if truthy result then result else each rest
           end) props
  | VArr elems =>
      (fix each (es : list value) : value :=
         match es with
         | [] => VNull
         | child :: rest =>
             let result := findToken child in
             if truthy result then result else each rest
         end) elems
  | _ => VNull
  end.

(** [responseData] is [response.data]. *)
Definition _extractTokenFromResponse (responseData : value) : value :=
  if truthy responseData && typeof_object responseData
     && truthy (prop responseData "token")
  then prop responseData "token"
  else if truthy responseData && truthy (prop responseData "data")
          && truthy (prop (prop responseData "data") "token")
  then prop (prop responseData "data") "token"
  else if truthy responseData then findToken responseData
  else VNull.

(** [t] is the value of a field named [token] somewhere inside [v], at any
    depth, below objects and arrays. *)
Inductive has_token (t : value) : value → Prop :=
| has_token_here props :
    "token" ∈ keys props → get props "token" = t → has_token t (VObj props)
| has_token_prop props k child :
    (k, child) ∈ props → has_token t child → has_token t (VObj props)
| has_token_elem elems child :
    child ∈ elems → has_token t child → has_token t (VArr elems).

(** The search in the words of the specification: depth first, through
    objects only, arrays untouched; the value of the first field named
    [token], whatever that value is. *)
Fixpoint objectsOnlySearch (v : value) : option value :=
  match v with
  | VObj props =>
      if has props "token" then Some (get props "token")
      else
        (fix each (ps : list (string * value)) : option value :=
           match ps with
           | [] => None
           | (_, child) :: rest =>
               match objectsOnlySearch child with
               | Some t => Some t
               | None => each rest
               end
           end) props
  | _ => None
  end.

End Authentication.

(** ** The client and its request dispatcher ([src/core/CoinPlexClient.js]) *)

Module Client.
Import JS.

Record Stats := mkStats {
  requests : Z;
  successful : Z;
  failed : Z;
  encrypted : Z
}.

Definition zeroStats : Stats := mkStats 0 0 0 0.

Record Config := mkConfig {
  apiKey : value;
  apiSecret : string;
  autoRetry : bool;
  timeout : Z
}.

(** The state of the [AuthenticationManager]. *)
Record Auth := mkAuth {
  token : value;
  tokenExpiry : option Z;
  isAuthenticated : bool
}.

Definition newAuth : Auth := mkAuth VNull None false.

(** [new Date() >= this.tokenExpiry] at time [now]. *)
Definition _isTokenExpired (now : Z) (a : Auth) : bool :=
  match tokenExpiry a with
  | None => true
  | Some expiry => expiry <=? now
  end.

Definition isTokenValid (now : Z) (a : Auth) : bool :=
  isAuthenticated a && negb (_isTokenExpired now a).

Definition getToken (now : Z) (a : Auth) : value :=
  if negb (isAuthenticated a) || _isTokenExpired now a then VNull else token a.

Record Client := mkClient {
  config : Config;
  auth : Auth;
  stats : Stats
}.

(** The constructor, after [_validateConfig] has accepted the configuration. *)
Definition newClient (cfg : Config) : Client := mkClient cfg newAuth zeroStats.

(** The object [_makeHttpRequest] resolves with; [undefined] marks an absent
    property. *)
Record Response := mkResponse {
  statusCode : Z;
  headers : value;
  data : value;
  _originalData : value;
  _decryptionMethod : value;
  error : value
}.

(** What the network does with one HTTPS request. *)
Inductive transport :=
| NetError (message : string)
| NetTimeout
| NetReply (status : Z) (hdrs : value) (body : string).

(** What the dispatcher does to the outside world. *)
Inductive event :=
| EvHttp (endpoint : string) (payload : object)
| EvDelay (ms : Z).

Definition bumpRequests (s : Stats) : Stats :=
  mkStats (requests s + 1) (successful s) (failed s) (encrypted s).
Definition bumpSuccessful (s : Stats) : Stats :=
  mkStats (requests s) (successful s + 1) (failed s) (encrypted s).
Definition bumpFailed (s : Stats) : Stats :=
  mkStats (requests s) (successful s) (failed s + 1) (encrypted s).
Definition bumpEncrypted (s : Stats) : Stats :=
  mkStats (requests s) (successful s) (failed s) (encrypted s + 1).

(** [options.timeout || this.config.timeout] *)
Definition effectiveTimeout (optionsTimeout : option Z) (cfg : Config) : Z :=
  match optionsTimeout with
  | Some t => if t =? 0 then timeout cfg else t
  | None => timeout cfg
  end.

Section WithPlatform.
Context `{Platform}.

(** The [res.on('end')] handler: parse and decrypt, or fall back to the raw
    body with the error message. *)
Definition onEnd (status : Z) (hdrs : value) (body : string) : Response :=
  match
    responseData ← orThrow "Unexpected token" (JSON_parse body);
    decryptedResponse ← Decryption.processApiResponse responseData;
    Return (mkResponse status hdrs (prop decryptedResponse "data") responseData
                       (prop decryptedResponse "_decryptionMethod") VUndef)
  with
  | Return response => response
  | Throw message => mkResponse status hdrs (VStr body) VUndef VUndef (VStr message)
  end.

Definition _makeHttpRequest (timeoutMs : Z) (net : transport) : outcome Response :=
  match net with
  | NetError message => Throw ("Request failed: " +:+ message)
  | NetTimeout => Throw ("Request timeout after " +:+ string_of_Z timeoutMs +:+ "ms")
  | NetReply status hdrs body => Return (onEnd status hdrs body)
  end.

(** The retry loop [while (attempts < maxAttempts)].  [net k] is what the
    network does with the request sent after [k] failed attempts; [None] is
    the [undefined] of falling off the end of the function. *)
Fixpoint requestLoop (fuel : nat) (endpoint : string) (payload : object)
    (timeoutMs : Z) (net : nat → transport) (maxAttempts attempts : nat)
    (st : Stats) (trace : list event)
  : Stats * list event * outcome (option Response) :=
  match fuel with
  | O => (st, trace, Return None)
  | S fuel' =>
      if (attempts <? maxAttempts)%nat then
        let st := bumpRequests st in
        let trace := trace ++ [EvHttp endpoint payload] in
        match _makeHttpRequest timeoutMs (net attempts) with
        | Return response =>
            let st :=
              if (200 <=? statusCode response) && (statusCode response <? 300)
              then bumpSuccessful st else bumpFailed st in
            let st :=
              if truthy (_decryptionMethod response) then bumpEncrypted st else st in
            (st, trace, Return (Some response))
        | Throw err =>
            let attempts := S attempts in
            let st := bumpFailed st in
            if (maxAttempts <=? attempts)%nat then (st, trace, Throw err)
            else
              let trace := trace ++ [EvDelay (1000 * Z.of_nat attempts)] in
              requestLoop fuel' endpoint payload timeoutMs net maxAttempts attempts
                          st trace
        end
      else (st, trace, Return None)
  end.

(** [request(endpoint, params, options)] issued at time [now]. *)
Definition request (c : Client) (now : Z) (endpoint : string) (params : object)
    (optionsTimeout : option Z) (net : nat → transport)
  : Client * list event * outcome (option Response) :=
  if negb (isTokenValid now (auth c)) then
    (c, [], Throw "Client not authenticated. Call authenticate() first.")
  else
    let payload :=
      Signature.prepareSignedPayload now params (apiKey (config c))
                                     (apiSecret (config c)) in
    let maxAttempts := if autoRetry (config c) then 3%nat else 1%nat in
    let '(st, trace, result) :=
      requestLoop maxAttempts endpoint payload
                  (effectiveTimeout optionsTimeout (config c)) net
                  maxAttempts 0 (stats c) [] in
    (mkClient (config c) (auth c) st, trace, result).

Definition resetStats (c : Client) : Client :=
  mkClient (config c) (auth c) zeroStats.

End WithPlatform.

(** The schedule of a request that fails [n] times in a row, in the words of
    the specification: [n] attempts, with a wait of [1000 ms × k] after the
    [k]-th. *)
Definition laterSchedule (endpoint : string) (payload : object) (a n : nat)
  : list event :=
  concat (map (λ k, [EvDelay (1000 * Z.of_nat k); EvHttp endpoint payload]) (seq a n)).

Definition retrySchedule (endpoint : string) (payload : object) (n : nat)
  : list event :=
  match n with
  | O => []
  | S m => EvHttp endpoint payload :: laterSchedule endpoint payload 1 m
  end.

(** The error a failed transport rejects with. *)
Definition rejection (timeoutMs : Z) (net : transport) : string :=
  match net with
  | NetError message => "Request failed: " +:+ message
  | NetTimeout => "Request timeout after " +:+ string_of_Z timeoutMs +:+ "ms"
  | NetReply _ _ _ => ""
  end.

Definition isFailure (net : transport) : bool :=
  match net with
  | NetReply _ _ _ => false
  | _ => true
  end.

Definition isHttp (e : event) : bool :=
  match e with
  | EvHttp _ _ => true
  | EvDelay _ => false
  end.

Definition attemptsOf (trace : list event) : nat :=
  length (List.filter isHttp trace).

Definition delaysOf (trace : list event) : list Z :=
  omap (λ e, match e with EvDelay ms => Some ms | _ => None end) trace.

Definition leStats (s s' : Stats) : Prop :=
  requests s ≤ requests s' ∧ successful s ≤ successful s' ∧
  failed s ≤ failed s' ∧ encrypted s ≤ encrypted s'.

End Client.

(** ** Calls of [request] that overlap

    [request] is an [async] function: it runs up to its first [await], is
    suspended, and runs on when the awaited promise settles.  Between two
    such stretches other calls run, on the same [this.stats]. *)

Module Overlap.
Import JS Client.

(** The two [await]s of [request]: on [_makeHttpRequest] and on [_delay]. *)
Inductive suspension := AwaitingResponse | AwaitingDelay.

(** The locals of a suspended call. *)
Record Suspended := mkSuspended {
  endpoint : string;
  payload : object;
  timeoutMs : Z;
  attempts : nat;
  maxAttempts : nat;
  awaits : suspension
}.

(** A call that has begun: suspended, or settled with its result. *)
Inductive progress :=
| Pending (locals : Suspended)
| Settled (result : outcome (option Response)).

(** The client and the calls of [request] begun on it, in the order in which
    they began. *)
Record System := mkSystem {
  client : Client;
  calls : list progress
}.

(** What happens next: a call of [request] begins; the HTTP request of call
    [i] ends, with what the network did; the delay of call [i] is over;
    [resetStats()] is called; [authenticate] or [logout] has changed the
    session. *)
Inductive action :=
| Begin (now : Z) (endpoint : string) (params : object) (optionsTimeout : option Z)
| Respond (i : nat) (net : transport)
| Elapse (i : nat)
| ResetStats
| SetAuth (a : Auth).

Definition withStats (c : Client) (st : Stats) : Client :=
  mkClient (config c) (auth c) st.

Section WithPlatform.
Context `{Platform}.

(** The stretch of [request] from the top of the [while] loop to the
    [await] on [_makeHttpRequest]. *)
Definition attempt (c : Client) (locals : Suspended) : Client * progress :=
  if (attempts locals <? maxAttempts locals)%nat then
    (withStats c (bumpRequests (stats c)),
     Pending (mkSuspended (endpoint locals) (payload locals) (timeoutMs locals)
                          (attempts locals) (maxAttempts locals) AwaitingResponse))
  else (c, Settled (Return None)).

(** The stretch from the call to the first [await]. *)
Definition begin (c : Client) (now : Z) (endpoint : string) (params : object)
    (optionsTimeout : option Z) : Client * progress :=
  if negb (isTokenValid now (auth c)) then
    (c, Settled (Throw "Client not authenticated. Call authenticate() first."))
  else
    let payload :=
      Signature.prepareSignedPayload now params (apiKey (config c))
                                     (apiSecret (config c)) in
    let maxAttempts := if autoRetry (config c) then 3%nat else 1%nat in
    attempt c (mkSuspended endpoint payload (effectiveTimeout optionsTimeout (config c))
                           0 maxAttempts AwaitingResponse).

(** The stretch that follows the [await] on [_makeHttpRequest]: the rest of
    the [try] when the promise is fulfilled, the [catch] up to the [await] on
    [_delay] when it is rejected. *)
Definition respond (c : Client) (locals : Suspended) (net : transport)
  : Client * progress :=
  match _makeHttpRequest (timeoutMs locals) net with
  | Return response =>
      let st := stats c in
      let st :=
        if (200 <=? statusCode response) && (statusCode response <? 300)
        then bumpSuccessful st else bumpFailed st in
      let st :=
        if truthy (_decryptionMethod response) then bumpEncrypted st else st in
      (withStats c st, Settled (Return (Some response)))
  | Throw err =>
      let attempts := S (attempts locals) in
      let c := withStats c (bumpFailed (stats c)) in
      if (maxAttempts locals <=? attempts)%nat then (c, Settled (Throw err))
      else
        (c, Pending (mkSuspended (endpoint locals) (payload locals) (timeoutMs locals)
                                 attempts (maxAttempts locals) AwaitingDelay))
  end.

(** One stretch.  An action that does not fit the state of call [i] (no
    such call, a settled call, the other [await]) cannot happen and changes
    nothing. *)
Definition step (sys : System) (a : action) : System :=
  match a with
  | Begin now endpoint params optionsTimeout =>
      let '(c, p) := begin (client sys) now endpoint params optionsTimeout in
      mkSystem c (calls sys ++ [p])
  | Respond i net =>
      match calls sys !! i with
      | Some (Pending locals) =>
          match awaits locals with
          | AwaitingResponse =>
              let '(c, p) := respond (client sys) locals net in
              mkSystem c (<[i := p]> (calls sys))
          | AwaitingDelay => sys
          end
      | _ => sys
      end
  | Elapse i =>
      match calls sys !! i with
      | Some (Pending locals) =>
          match awaits locals with
          | AwaitingDelay =>
              let '(c, p) := attempt (client sys) locals in
              mkSystem c (<[i := p]> (calls sys))
          | AwaitingResponse => sys
          end
      | _ => sys
      end
  | ResetStats => mkSystem (resetStats (client sys)) (calls sys)
  | SetAuth a =>
      mkSystem (mkClient (config (client sys)) a (stats (client sys))) (calls sys)
  end.

Definition run (sys : System) (actions : list action) : System :=
  foldl step sys actions.

End WithPlatform.

(** A freshly constructed client, no call begun. *)
Definition start (cfg : Config) : System := mkSystem (newClient cfg) [].

Definition awaitsResponse (p : progress) : bool :=
  match p with
  | Pending locals =>
      match awaits locals with AwaitingResponse => true | AwaitingDelay => false end
  | Settled _ => false
  end.

(** The number of calls whose HTTP request is under way. *)
Definition underWay (sys : System) : nat :=
  length (List.filter awaitsResponse (calls sys)).

Definition isSettled (p : progress) : bool :=
  match p with
  | Settled _ => true
  | Pending _ => false
  end.

(** The number of calls that have completed, resolved or thrown. *)
Definition completed (sys : System) : nat :=
  length (List.filter isSettled (calls sys)).

(** [resetStats()] is only called while no HTTP request is under way. *)
Fixpoint resetsApart `{Platform} (sys : System) (actions : list action) : bool :=
  match actions with
  | [] => true
  | a :: rest =>
      match a with
      | ResetStats => (underWay sys =? 0)%nat
      | _ => true
      end && resetsApart (step sys a) rest
  end.

End Overlap.

(** ** Scheduled executions ([src/api/quantify.js]) *)

Module Quantify.
Import JS.

(** [timestamp] is the instant the ISO string denotes, in epoch
    milliseconds; [result] and [error] are [undefined] when absent. *)
Record ExecutionResult := mkResult {
  iteration : nat;
  timestamp : Z;
  success : bool;
  result : value;
  error : value
}.

(** What a caller-supplied callback does when invoked: it may call
    [scheduler.stop()], and it returns or throws. *)
Record effect := mkEffect {
  stops : bool;
  throws : option string
}.

Definition quiet : effect := mkEffect false None.

Record Summary := mkSummary {
  totalIterations : nat;
  completedIterations : nat;
  summarySuccessful : nat;
  summaryFailed : nat;
  summaryResults : list ExecutionResult
}.

Record Schedule := mkSchedule {
  iterations : nat;
  intervalMinutes : Z;
  onSuccess : option (ExecutionResult → effect);
  onError : option (ExecutionResult → effect);
  onComplete : option (Summary → effect)
}.

(** The surroundings of one run: what [this.execute] does in iteration [i],
    the clock reading when the [k]-th result is recorded, and whether some
    other task calls [stop()] while the loop is suspended. *)
Record World := mkWorld {
  execute : nat → outcome value;
  clock : nat → Z;
  stopDuringExecute : nat → bool;
  stopDuringDelay : nat → bool
}.

Inductive event :=
| EvSuccess (r : ExecutionResult)
| EvError (r : ExecutionResult)
| EvDelay (ms : Z)
| EvComplete (s : Summary).

(** The variables the scheduler closures share. *)
Record State := mkState {
  results : list ExecutionResult;
  currentIteration : nat;
  isRunning : bool;
  trace : list event
}.

Definition initial : State := mkState [] 0 true [].

Definition push (r : ExecutionResult) (st : State) : State :=
  mkState (results st ++ [r]) (currentIteration st) (isRunning st) (trace st).

Definition emit (e : event) (st : State) : State :=
  mkState (results st) (currentIteration st) (isRunning st) (trace st ++ [e]).

Definition setIteration (i : nat) (st : State) : State :=
  mkState (results st) i (isRunning st) (trace st).

(** [stop()], when [b] holds. *)
Definition stopIf (b : bool) (st : State) : State :=
  mkState (results st) (currentIteration st) (isRunning st && negb b) (trace st).

(** Invoke an optional callback on [x]. *)
Definition invoke {A : Type} (cb : option (A → effect)) (x : A) (ev : event)
    (st : State) : State * outcome unit :=
  match cb with
  | None => (st, Return tt)
  | Some f =>
      let st := stopIf (stops (f x)) (emit ev st) in
      match throws (f x) with
      | Some message => (st, Throw message)
      | None => (st, Return tt)
      end
  end.

(** The body of the inner [try]. *)
Definition tryBody (s : Schedule) (w : World) (i : nat) (st : State)
  : State * outcome unit :=
  let st := stopIf (stopDuringExecute w i) st in
  match execute w i with
  | Throw message => (st, Throw message)
  | Return r =>
      let executionResult :=
        mkResult i (clock w (length (results st))) true r VUndef in
      let st := push executionResult st in
      invoke (onSuccess s) executionResult (EvSuccess executionResult) st
  end.

(** The inner [catch]. *)
Definition catchBody (s : Schedule) (w : World) (i : nat) (message : string)
    (st : State) : State * outcome unit :=
  let executionResult :=
    mkResult i (clock w (length (results st))) false VUndef (VStr message) in
  let st := push executionResult st in
  invoke (onError s) executionResult (EvError executionResult) st.

(** [for (let i = 1; i <= iterations && isRunning; i++)], from [i] on. *)
Fixpoint loop (fuel : nat) (s : Schedule) (w : World) (i : nat) (st : State)
  : State * outcome unit :=
  match fuel with
  | O => (st, Return tt)
  | S fuel' =>
      if (i <=? iterations s)%nat && isRunning st then
        let st := setIteration i st in
        let '(st, r) :=
          match tryBody s w i st with
          | (st, Throw message) => catchBody s w i message st
          | (st, Return _) => (st, Return tt)
          end in
        match r with
        | Throw message => (st, Throw message)
        | Return _ =>
            let st :=
              if (i <? iterations s)%nat && isRunning st then
                stopIf (stopDuringDelay w i)
                       (emit (EvDelay (intervalMinutes s * 60 * 1000)) st)
              else st in
            loop fuel' s w (S i) st
        end
      else (st, Return tt)
  end.

Definition summary (s : Schedule) (st : State) : Summary :=
  mkSummary (iterations s) (length (results st))
            (length (List.filter success (results st)))
            (length (List.filter (λ r, negb (success r)) (results st)))
            (results st).

(** [scheduleExecutions(schedule)]: the state of the scheduler once the
    detached task it starts has run to its end. *)
Definition scheduleExecutions (s : Schedule) (w : World) : State :=
  match loop (iterations s) s w 1 initial with
  | (st, Return _) =>
      let st := mkState (results st) 0 false (trace st) in
      (invoke (onComplete s) (summary s st) (EvComplete (summary s st)) st).1
  | (st, Throw _) => mkState (results st) (currentIteration st) false (trace st)
  end.

Record ExecutionStats := mkExecutionStats {
  total : Z;
  successful : Z;
  failed : Z;
  successRate : Q;
  averageInterval : Z;
  firstExecution : option Z;
  lastExecution : option Z
}.

(** [Math.round]: the nearest integer, a half going up. *)
Definition round (q : Q) : Z := Qfloor (q + (1 # 2))%Q.

(** *** Binary64 arithmetic

    A finite Number is a rational [m * 2 ^ e] with [|m| < 2 ^ 53]; an
    arithmetic operator of JavaScript returns the Number nearest to the
    exact result, a tie going to the even significand.  The exponent range
    is not bounded here: the quantities below lie between [0] and [10000],
    far from overflow and from the subnormal range. *)

(** The exponent [e] with [2 ^ e <= q < 2 ^ (e + 1)], for [q > 0]. *)
Definition binade (q : Q) : Z :=
  let e := Z.log2 (Qnum q) - Z.log2 (Z.pos (Qden q)) in
  if Qle_bool (2 ^ e) q then e else e - 1.

(** The nearest integer, a tie going to the even one. *)
Definition halfEven (q : Q) : Z :=
  let below := Qfloor q in
  match (q - inject_Z below ?= 1 # 2)%Q with
  | Lt => below
  | Gt => below + 1
  | Eq => if Z.even below then below else below + 1
  end.

(** The Number nearest to [q]: [q] rounded to [53] significant bits. *)
Definition double (q : Q) : Q :=
  match (q ?= 0)%Q with
  | Eq => 0%Q
  | Gt =>
      let ulp := (2 ^ (binade q - 52))%Q in
      (inject_Z (halfEven (q / ulp)) * ulp)%Q
  | Lt =>
      let ulp := (2 ^ (binade (- q) - 52))%Q in
      (- (inject_Z (halfEven (- q / ulp)) * ulp))%Q
  end.

(** [x] is a Number: it has [53] significant bits. *)
Definition isDouble (x : Q) : Prop :=
  ∃ m : Z, (x == inject_Z m * 2 ^ (binade x - 52))%Q.

Fixpoint intervalsOf (ts : list Z) : list Z :=
  match ts with
  | prev :: (curr :: _) as rest => (curr - prev) :: intervalsOf rest
  | _ => []
  end.

(** [getExecutionStats(results)]; [None] is a missing ([null] or
    [undefined]) argument, and the two optional fields stand for properties
    that the empty answer does not have.  [successRate] is computed as the
    code computes it, in binary64: the quotient, its product with [100], the
    product with [100] again, [Math.round], and the quotient by [100] are
    each rounded to a Number, and the field holds the exact value of the
    resulting Number.  The timestamps are whole milliseconds; their
    differences are summed and averaged exactly. *)
Definition getExecutionStats (results : option (list ExecutionResult))
  : ExecutionStats :=
  match results with
  | None | Some [] => mkExecutionStats 0 0 0 0%Q 0 None None
  | Some results =>
      let successful := Z.of_nat (length (List.filter success results)) in
      let failed := Z.of_nat (length results) - successful in
      let successRate :=
        double
          (double (inject_Z successful / inject_Z (Z.of_nat (length results)))
           * 100)%Q in
      let averageInterval :=
        if (1 <? length results)%nat then
          let intervals := intervalsOf (map timestamp results) in
          (inject_Z (foldl Z.add 0%Z intervals)
             / inject_Z (Z.of_nat (length intervals)))%Q
        else 0%Q in
      mkExecutionStats (Z.of_nat (length results)) successful failed
        (double (inject_Z (round (double (successRate * 100))) / 100))%Q
        (round (averageInterval / 1000))
        (timestamp <$> head results) (timestamp <$> last results)
  end.

(** The record the loop makes of iteration [i] as its [k]-th result. *)
Definition recordOf (w : World) (i k : nat) : ExecutionResult :=
  match execute w i with
  | Return r => mkResult i (clock w k) true r VUndef
  | Throw message => mkResult i (clock w k) false VUndef (VStr message)
  end.

(** The records of [n] consecutive iterations starting with iteration [i],
    stored from position [k] on. *)
Fixpoint recordsFrom (w : World) (i k n : nat) : list ExecutionResult :=
  match n with
  | O => []
  | S n' => recordOf w i k :: recordsFrom w (S i) (S k) n'
  end.

Definition returns {A : Type} (o : outcome A) : bool :=
  match o with
  | Return _ => true
  | Throw _ => false
  end.

(** Nobody calls [stop()] during the run. *)
Definition neverStopped (s : Schedule) (w : World) : Prop :=
  (∀ i, stopDuringExecute w i = false ∧ stopDuringDelay w i = false) ∧
  (∀ f r, onSuccess s = Some f → stops (f r) = false) ∧
  (∀ f r, onError s = Some f → stops (f r) = false).

(** The success and error callbacks, when present, return normally. *)
Definition callbacksReturn (s : Schedule) : Prop :=
  (∀ f r, onSuccess s = Some f → throws (f r) = None) ∧
  (∀ f r, onError s = Some f → throws (f r) = None).

End Quantify.

(** ** Objects shared by reference: the read accessors *)

Module Heap.

Definition loc := positive.

(** A property or element holds a primitive or a reference to an object. *)
Inductive slot :=
| Prim (v : JS.value)
| Ref (l : loc).

Inductive cell :=
| Obj (props : list (string * slot))
| Arr (elems : list slot).

(** [new] object: a location that is not in use. *)
Definition alloc (h : gmap loc cell) (c : cell) : gmap loc cell * loc :=
  let l := fresh (dom h) in (<[l := c]> h, l).

Fixpoint setProp (props : list (string * slot)) (k : string) (v : slot)
  : list (string * slot) :=
  match props with
  | [] => [(k, v)]
  | (k', v') :: rest =>
      if String.eqb k' k then (k', v) :: rest else (k', v') :: setProp rest k v
  end.

(** [a[i] = v]: in range it overwrites, past the end it extends the array
    with holes. *)
Definition setIndex (elems : list slot) (i : nat) (v : slot) : list slot :=
  if (i <? length elems)%nat then <[i := v]> elems
  else elems ++ replicate (i - length elems) (Prim JS.VUndef) ++ [v].

(** [a.length = n] *)
Definition setLength (elems : list slot) (n : nat) : list slot :=
  take n elems ++ replicate (n - length elems) (Prim JS.VUndef).

(** What a caller can do to an object or array it holds a reference to. *)
Inductive mutation :=
| SetProp (k : string) (v : slot)
| DeleteProp (k : string)
| Push (v : slot)
| Pop
| SetIndex (i : nat) (v : slot)
| SetLength (n : nat).

Definition mutateCell (m : mutation) (c : cell) : cell :=
  match m, c with
  | SetProp k v, Obj props => Obj (setProp props k v)
  | DeleteProp k, Obj props =>
      Obj (List.filter (λ kv, negb (String.eqb (fst kv) k)) props)
  | Push v, Arr elems => Arr (elems ++ [v])
  | Pop, Arr elems => Arr (removelast elems)
  | SetIndex i v, Arr elems => Arr (setIndex elems i v)
  | SetLength n, Arr elems => Arr (setLength elems n)
  | _, _ => c
  end.

Definition mutate (l : loc) (h : gmap loc cell) (m : mutation) : gmap loc cell :=
  alter (mutateCell m) l h.

(** [{ ...o }] *)
Definition spread (c : option cell) : cell :=
  match c with
  | Some (Obj props) => Obj props
  | Some (Arr elems) =>
      Obj (imap (λ i e, (JS.string_of_Z (Z.of_nat i), e)) elems)
  | None => Obj []
  end.

(** [[ ...a ]] *)
Definition spreadArray (c : option cell) : cell :=
  match c with
  | Some (Arr elems) => Arr elems
  | _ => Arr []
  end.

Definition statsCell (s : Client.Stats) : cell :=
  Obj [("requests", Prim (JS.VNum (Client.requests s)));
       ("successful", Prim (JS.VNum (Client.successful s)));
       ("failed", Prim (JS.VNum (Client.failed s)));
       ("encrypted", Prim (JS.VNum (Client.encrypted s)))].

(** [getStats() { return { ...this.stats }; }] where [this.stats] refers to
    [thisStats]. *)
Definition getStats (h : gmap loc cell) (thisStats : loc) : gmap loc cell * loc :=
  alloc h (spread (h !! thisStats)).

(** [resetStats() { this.stats = { requests: 0, ... }; }]: the new value of
    [this.stats]. *)
Definition resetStats (h : gmap loc cell) : gmap loc cell * loc :=
  alloc h (statsCell Client.zeroStats).

(** [getResults: () => [...results]] where the closure variable [results]
    refers to [results]. *)
Definition getResults (h : gmap loc cell) (results : loc) : gmap loc cell * loc :=
  alloc h (spreadArray (h !! results)).

(** [results.push(executionResult)] *)
Definition pushResult (h : gmap loc cell) (results executionResult : loc)
  : gmap loc cell :=
  mutate results h (Push (Ref executionResult)).

End Heap.

(** ** Further operations of the same modules *)

Module SignerParts.
Import JS Signature.

(** One step of the stripping [forEach]. *)
Definition stripStep (p : object) (key : string) : object :=
  if is_blank (get p key) then delete p key else p.

(** The payload before the signature is attached. *)
Definition unsigned (now : Z) (customParams : object) (apiKey : value) : object :=
  stripBlank
    (let p := if negb (truthy (get customParams "timestamp"))
              then set customParams "timestamp" (VNum now) else customParams in
     if negb (truthy (get p "apiKey")) then set p "apiKey" apiKey else p).

End SignerParts.

(** A toy platform on which RSA always fails and the passphrase reading of
    AES yields the ciphertext it is given, unless that starts with [!], in
    which case it yields nothing and the base64 reading yields ["{}"]. *)
Definition aes_platform : Platform :=
  {| rsa_decrypt := λ _, None;
     base64_decode := λ _, [];
     base64_encode := λ _, "";
     decodeURIComponent := λ _, None;
     JSON_parse := λ s, if String.eqb s "{}" then Some (JS.VObj []) else None;
     aes_decrypt := λ s _, if String.prefix "!" s then Some "" else Some s;
     aes_decrypt_base64 := λ _ _, Some "{}" |}.

(** A toy platform on which "RSA" decrypts a block of at most 128
    characters to itself, a JSON text that starts with [jwt] is an object
    holding that text as its [token], and any other text [s] is an envelope
    whose [data] is the text [jwt-s]. *)
Definition envelope_platform : Platform :=
  {| rsa_decrypt := λ s, if (String.length s <=? 128)%nat then Some s else None;
     base64_decode := λ _, [];
     base64_encode := λ _, "";
     decodeURIComponent := Some;
     JSON_parse := λ s, if String.prefix "jwt" s
                        then Some (JS.VObj [("token", JS.VStr s)])
                        else Some (JS.VObj [("data", JS.VStr ("jwt-" +:+ s))]);
     aes_decrypt := λ _ _, None;
     aes_decrypt_base64 := λ _ _, None |}.

(** *** The authentication manager ([src/core/authentication.js]) *)

Module Session.
Import JS Client.

Record Credentials := mkCredentials {
  prefix : value;
  account : value;
  code : value
}.

Definition loginData (cr : Credentials) : object :=
  [("accountType", VNum 0); ("prefix", prefix cr);
   ("account", account cr); ("code", code cr)].

(** What the network does with the login request.  The manager sets no
    timeout, so a request ends with an error or with a reply. *)
Inductive transport :=
| LoginError (message : string)
| LoginReply (status : Z) (hdrs : value) (body : string).

Definition tokenLifetime : Z := 24 * 60 * 60 * 1000.

Section WithPlatform.
Context `{Platform}.

(** The [res.on('end')] handler of [_makeRequest]. *)
Definition onEnd (status : Z) (hdrs : value) (body : string) : Response :=
  match
    responseData ← orThrow "Unexpected token" (JSON_parse body);
    decryptedResponse ← Decryption.processApiResponse responseData;
    Return (mkResponse status hdrs (prop decryptedResponse "data") responseData
                       (prop decryptedResponse "_decryptionMethod") VUndef)
  with
  | Return response => response
  | Throw _ => mkResponse status hdrs (VStr body) VUndef VUndef VUndef
  end.

Definition _makeRequest (net : transport) : outcome Response :=
  match net with
  | LoginError message => Throw message
  | LoginReply status hdrs body => Return (onEnd status hdrs body)
  end.

(** [authenticate()]: [now] is the clock when the payload is signed, [done]
    the clock when the response has been read.  The result is the token, or
    [null]. *)
Definition authenticate (cfg : Config) (cr : Credentials) (a : Auth)
    (now done : Z) (net : transport) : Auth * list event * value :=
  let payload :=
    Signature.prepareSignedPayload now (loginData cr) (apiKey cfg) (apiSecret cfg) in
  let sent := [EvHttp "/api/user/login" payload] in
  match _makeRequest net with
  | Return response =>
      let token := Authentication._extractTokenFromResponse (data response) in
      if truthy token then
        (mkAuth token (Some (done + tokenLifetime)) true, sent, token)
      else (a, sent, VNull)
  | Throw _ => (a, sent, VNull)
  end.

End WithPlatform.

Definition logout (a : Auth) : Auth := mkAuth VNull None false.

End Session.

(** *** Configuration check of the client constructor *)

Module Construction.
Import JS.

(** The first of [fields] that [o] lacks: [!o[field]]. *)
Definition firstMissing (o : value) (fields : list string) : option string :=
  List.find (λ field, negb (truthy (prop o field))) fields.

Definition _validateConfig (config : value) : outcome unit :=
  if negb (truthy config) then Throw "Configuration object is required"
  else
    match firstMissing config ["apiKey"; "apiSecret"; "credentials"] with
    | Some field => Throw ("Missing required configuration: " +:+ field)
    | None =>
        match firstMissing (prop config "credentials") ["prefix"; "account"; "code"] with
        | Some field => Throw ("Missing required credential: " +:+ field)
        | None => Return tt
        end
    end.

End Construction.

(** *** Observations on a run of the scheduler *)

Module SchedulerParts.
Import JS Quantify.

(** Whether the callback invoked on record [r] calls [stop()]. *)
Definition callbackStops (s : Schedule) (r : ExecutionResult) : bool :=
  match (if success r then onSuccess s else onError s) with
  | Some f => stops (f r)
  | None => false
  end.

(** Whether [stop()] is called while the loop is busy with iteration [i],
    whose record is the [k]-th: during the remote call, by the callback, or
    during the wait that follows. *)
Definition stopRequested (s : Schedule) (w : World) (i k : nat) : bool :=
  stopDuringExecute w i || callbackStops s (recordOf w i k)
  || ((i <? iterations s)%nat && stopDuringDelay w i).

(** Whether the wait after iteration [i] is entered. *)
Definition waitsAfter (s : Schedule) (w : World) (i k : nat) : bool :=
  (i <? iterations s)%nat
  && negb (stopDuringExecute w i || callbackStops s (recordOf w i k)).

Definition delaysOf (t : list event) : list Z :=
  omap (λ e, match e with EvDelay ms => Some ms | _ => None end) t.

Definition completions (t : list event) : list Summary :=
  omap (λ e, match e with EvComplete sm => Some sm | _ => None end) t.

(** The records passed to the success and error callbacks, in order. *)
Definition reported (t : list event) : list ExecutionResult :=
  omap (λ e, match e with
             | EvSuccess r | EvError r => Some r
             | _ => None
             end) t.

(** Whether a callback is registered for record [r]. *)
Definition hasCallback (s : Schedule) (r : ExecutionResult) : bool :=
  match (if success r then onSuccess s else onError s) with
  | Some _ => true
  | None => false
  end.

End SchedulerParts.

(** *** Single executions ([execute], [executeWithRetry], [getStatus]) *)

Module Executions.
Import JS Client.

(** The clock and the random source at the moment of one call: epoch
    milliseconds, the date part of the ISO time stamp, the full ISO time
    stamp, and [Math.random().toString(36).substring(2, 15)]. *)
Record Moment := mkMoment {
  at_ : Z;
  day : string;
  iso : string;
  random : string
}.

(** [{ ...base, ...over }]: later properties overwrite in place or are
    appended. *)
Definition assign (base over : object) : object :=
  foldl (λ acc kv, set acc kv.1 kv.2) base over.

(** The own enumerable properties that [{ ...v }] copies. *)
Definition spreadValue (v : value) : object :=
  match v with
  | VObj o => o
  | VArr es => imap (λ i e, (string_of_Z (Z.of_nat i), e)) es
  | VStr s =>
      imap (λ i c, (string_of_Z (Z.of_nat i), VStr (String c "")))
           (String.list_ascii_of_string s)
  | _ => []
  end.

(** [v.k], which throws a [TypeError] on [null] and [undefined]. *)
Definition member (v : value) (k : string) : outcome value :=
  match v with
  | VUndef => Throw ("Cannot read properties of undefined (reading '" +:+ k +:+ "')")
  | VNull => Throw ("Cannot read properties of null (reading '" +:+ k +:+ "')")
  | _ => Return (prop v k)
  end.

Section WithPlatform.
Context `{Platform}.
(** [Number(s) > 0] for a string [s]. *)
Variable positiveText : string → bool.

(** [v > 0] *)
Definition gtZero (v : value) : bool :=
  match v with
  | VUndef | VNull => false
  | VBool b => b
  | VNum n => 0 <? n
  | VDouble text => negb (String.eqb text "NaN") && negb (String.prefix "-" text)
  | VStr s => positiveText s
  | VArr _ | VObj _ => positiveText (toString v)
  end.

Definition executeParams (m : Moment) (options : object) : object :=
  assign
    [("timestamp", VNum (at_ m));
     ("nonce", if truthy (get options "nonce") then get options "nonce"
               else VStr (random m));
     ("executionId",
      if truthy (get options "executionId") then get options "executionId"
      else VStr ("exec-" +:+ day m +:+ "-" +:+ string_of_Z (at_ m)))]
    options.

(** [execute(options)]: the [data] of the response of one request. *)
Definition execute (c : Client) (m : Moment) (options : object)
    (net : nat → transport) : Client * list event * outcome value :=
  let '(c', trace, r) :=
    request c (at_ m) "/api/quantify/execute" (executeParams m options) None net in
  (c', trace,
   match r with
   | Return (Some response) => Return (data response)
   | Return None => Throw "Cannot read properties of undefined (reading 'data')"
   | Throw message => Throw message
   end).

(** What [executeWithRetry] returns for the result of attempt [attempt]. *)
Definition retryReport (result : value) (attempt : nat) : object :=
  let report :=
    set (set (spreadValue result) "attempt" (VNum (Z.of_nat attempt)))
        "success" (VBool true) in
  if truthy result
     && (truthy (prop result "hasTip") || gtZero (prop result "expectedCompletionTime"))
  then report
  else set report "message" (VStr "No tips available at this time").

Definition retryFailure (maxRetries : nat) (lastError : option string) : string :=
  "Quantify execution failed after " +:+ string_of_Z (Z.of_nat maxRetries)
  +:+ " attempts: " +:+ default "undefined" lastError.

(** [for (let attempt = 1; attempt <= maxRetries; attempt++)], from [attempt]
    on.  [world k] gives the moment and the network of attempt [k]. *)
Fixpoint retryLoop (fuel : nat) (maxRetries : nat) (retryDelay : Z)
    (world : nat → Moment * (nat → transport)) (attempt : nat) (c : Client)
    (trace : list event) (lastError : option string)
  : Client * list event * outcome object :=
  match fuel with
  | O => (c, trace, Throw (retryFailure maxRetries lastError))
  | S fuel' =>
      if (attempt <=? maxRetries)%nat then
        let '(m, net) := world attempt in
        let '(c, sent, r) :=
          execute c m
            [("executionId",
              VStr ("retry-exec-" +:+ string_of_Z (Z.of_nat attempt) +:+ "-"
                    +:+ string_of_Z (at_ m)))] net in
        let trace := trace ++ sent in
        match r with
        | Return result => (c, trace, Return (retryReport result attempt))
        | Throw message =>
            let trace :=
              if (attempt <? maxRetries)%nat
              then trace ++ [EvDelay (retryDelay * Z.of_nat attempt)] else trace in
            retryLoop fuel' maxRetries retryDelay world (S attempt) c trace
                      (Some message)
        end
      else (c, trace, Throw (retryFailure maxRetries lastError))
  end.

Definition executeWithRetry (c : Client) (maxRetries : nat) (retryDelay : Z)
    (world : nat → Moment * (nat → transport))
  : Client * list event * outcome object :=
  retryLoop maxRetries maxRetries retryDelay world 1 c [] None.

(** [a || b] *)
Definition orElse (a b : value) : value := if truthy a then a else b.

Definition getStatus (c : Client) (m : Moment) (net : nat → transport)
  : Client * list event * object :=
  let '(c', trace, r) :=
    execute c m [("executionId", VStr ("status-check-" +:+ string_of_Z (at_ m)))] net in
  (c', trace,
   match
     result ← r;
     hasTip ← member result "hasTip";
     expected ← member result "expectedCompletionTime";
     Return [("available", VBool true);
             ("hasTips", orElse hasTip (VBool false));
             ("expectedCompletionTime", orElse expected (VNum 0));
             ("lastChecked", VStr (iso m));
             ("status", VStr (if truthy hasTip then "tips_available" else "no_tips"))]
   with
   | Return status => status
   | Throw message =>
       [("available", VBool false); ("error", VStr message);
        ("lastChecked", VStr (iso m)); ("status", VStr "error")]
   end).

End WithPlatform.

(** The outcome of attempt [k] of [executeWithRetry] on client [c]. *)
Definition attemptOutcome `{Platform} (c : Client)
    (world : nat → Moment * (nat → transport)) (k : nat) : outcome value :=
  (execute c (world k).1
     [("executionId",
       VStr ("retry-exec-" +:+ string_of_Z (Z.of_nat k) +:+ "-"
             +:+ string_of_Z (at_ (world k).1)))] (world k).2).2.

(** What attempt [k] of [executeWithRetry] on client [c] sends and waits
    for inside [request]. *)
Definition attemptTrace `{Platform} (c : Client)
    (world : nat → Moment * (nat → transport)) (k : nat) : list event :=
  (execute c (world k).1
     [("executionId",
       VStr ("retry-exec-" +:+ string_of_Z (Z.of_nat k) +:+ "-"
             +:+ string_of_Z (at_ (world k).1)))] (world k).2).1.2.

(** The waits of [executeWithRetry] itself after attempts [a .. a+n-1]. *)
Definition outerDelays (retryDelay : Z) (a n : nat) : list Z :=
  map (λ k, retryDelay * Z.of_nat k) (seq a n).

(** The events of the failed attempts [a .. a+n-1]: each attempt is followed
    by a wait of [retryDelay * attempt], except attempt [maxRetries]. *)
Definition failedAttempts `{Platform} (c : Client)
    (world : nat → Moment * (nat → transport)) (retryDelay : Z)
    (maxRetries a n : nat) : list event :=
  concat (map (λ k, attemptTrace c world k
                    ++ (if (k <? maxRetries)%nat
                        then [EvDelay (retryDelay * Z.of_nat k)] else []))
              (seq a n)).

End Executions.

(** ** The daily executor ([src/automation/DailyExecutor.js]) *)

Module Executor.
Import JS Quantify.

#[global] Instance effect_eq_dec : EqDecision effect.
Proof. solve_decision. Defined.

(** The options that [start] and the handlers read. *)
Record Options := mkOptions {
  iterations : nat;
  intervalMinutes : Z;
  stopOnError : bool
}.

(** The fields of a [DailyExecutor] that change during a run; [scheduler]
    tells whether the handle returned by [scheduleExecutions] is stored. *)
Record Executor := mkExecutor {
  isRunning : bool;
  currentIteration : nat;
  results : list ExecutionResult;
  scheduler : bool
}.

(** The executor after [start()] on an authenticated client, when [start]
    has resumed and stored the handle. *)
Definition started : Executor := mkExecutor true 0 [] true.

(** [stop()]; the flag tells whether [scheduler.stop()] was called. *)
Definition stop (ex : Executor) : Executor * bool :=
  if negb (isRunning ex) then (ex, false)
  else (mkExecutor false (currentIteration ex) (results ex) (scheduler ex),
        scheduler ex).

(** [this.currentIteration = result.iteration; this.results.push(result)] *)
Definition record (ex : Executor) (r : ExecutionResult) : Executor :=
  mkExecutor (isRunning ex) (iteration r) (results ex ++ [r]) (scheduler ex).

(** The handlers: the new state of the executor, and what the scheduler
    sees of the call. *)
Definition _handleSuccess (ex : Executor) (r : ExecutionResult) : Executor * effect :=
  (record ex r, quiet).

Definition _handleError (o : Options) (ex : Executor) (r : ExecutionResult)
  : Executor * effect :=
  let ex := record ex r in
  if stopOnError o then
    let '(ex, stopped) := stop ex in (ex, mkEffect stopped None)
  else (ex, quiet).

Definition _handleComplete (ex : Executor) (sm : Summary) : Executor * effect :=
  (mkExecutor false 0 (results ex) (scheduler ex), quiet).

(** The schedule that [start()] passes to [scheduleExecutions]: the
    callbacks are the handlers, as the scheduler sees them on a running
    executor. *)
Definition schedule (o : Options) : Schedule :=
  mkSchedule (iterations o) (intervalMinutes o)
    (Some (λ r, (_handleSuccess started r).2))
    (Some (λ r, (_handleError o started r).2))
    (Some (λ sm, (_handleComplete started sm).2)).

(** The executor while the scheduler runs: every callback of the trace is
    delivered to its handler.  [agrees] records that each handler did to the
    scheduler what the callback of [schedule] says. *)
Record Run := mkRun {
  executor : Executor;
  agrees : bool
}.

Definition deliver (o : Options) (run : Run) (e : event) : Run :=
  let check (s : Executor * effect) (expected : effect) :=
    mkRun s.1 (agrees run && bool_decide (s.2 = expected)) in
  match e with
  | EvSuccess r =>
      check (_handleSuccess (executor run) r) (_handleSuccess started r).2
  | EvError r =>
      check (_handleError o (executor run) r) (_handleError o started r).2
  | EvComplete sm =>
      check (_handleComplete (executor run) sm) (_handleComplete started sm).2
  | EvDelay _ => run
  end.

Definition replay (o : Options) (t : list event) : Run :=
  foldl (deliver o) (mkRun started true) t.

(** The executor keeps up with the scheduler in state [st]. *)
Definition mirrors (o : Options) (st : State) : Prop :=
  let run := replay o (trace st) in
  agrees run = true ∧
  results (executor run) = Quantify.results st ∧
  (Quantify.isRunning st = true →
   isRunning (executor run) = true ∧ scheduler (executor run) = true).

End Executor.

(** * Properties *)

Example sha256_abc :
  Sha256.hex (Sha256.sha256 (Sha256.bytes_of_string "abc")) =
  "ba7816bf8f01cfea414140de5dae2223b00361a396177a9cb410ff61f20015ad".
Proof. vm_compute. reflexivity. Qed.

(* RFC 4231, test case 2 *)
Example hmac_rfc4231_2 :
  Sha256.hmac_sha256_hex "Jefe" "what do ya want for nothing?" =
  "5bdcc146bf60754e6a042426089575c75a003f089d2739839dec58b964ec3843".
Proof. vm_compute. reflexivity. Qed.


(** ** Objects as finite maps *)

Section ObjectFacts.
Import JS.

Lemma eqb_string_true (a b : string) : String.eqb a b = true ↔ a = b.
Proof. apply String.eqb_eq. Qed.

Lemma get_elem (o : object) k v : wf o → (k, v) ∈ o → get o k = v.
Proof.
  unfold wf, keys. induction o as [|[k' v'] o IH]; simpl; intros Hnd Hin.
  - by apply elem_of_nil in Hin.
  - apply NoDup_cons in Hnd as [Hk' Hnd].
    apply elem_of_cons in Hin as [Heq|Hin].
    + inversion Heq; subst. by rewrite String.eqb_refl.
    + destruct (String.eqb_spec k' k) as [->|Hne]; [|by apply IH].
      exfalso. apply Hk'. apply (list_elem_of_fmap_2 fst) in Hin. exact Hin.
Qed.

Lemma get_absent (o : object) k : k ∉ keys o → get o k = VUndef.
Proof.
  unfold keys. induction o as [|[k' v'] o IH]; simpl; intros Hk; [done|].
  apply not_elem_of_cons in Hk as [Hne Hk].
  destruct (String.eqb_spec k' k) as [->|_]; [done|]. by apply IH.
Qed.

Lemma keys_Permutation (o1 o2 : object) : o1 ≡ₚ o2 → keys o1 ≡ₚ keys o2.
Proof. intros Hp. unfold keys. by apply fmap_Permutation. Qed.

Lemma wf_Permutation (o1 o2 : object) : o1 ≡ₚ o2 → wf o1 → wf o2.
Proof. unfold wf. intros Hp. by rewrite (keys_Permutation _ _ Hp). Qed.

Lemma get_Permutation (o1 o2 : object) k : wf o1 → o1 ≡ₚ o2 → get o1 k = get o2 k.
Proof.
  intros Hwf Hp. destruct (decide (k ∈ keys o1)) as [Hin|Hnin].
  - apply list_elem_of_fmap in Hin as [[k' v] [-> Hin]]. simpl.
    rewrite (get_elem o1 k' v Hwf Hin).
    symmetry. apply get_elem; [by eapply wf_Permutation|by rewrite <- Hp].
  - rewrite (get_absent o1 k Hnin). symmetry. apply get_absent.
    by rewrite <- (keys_Permutation _ _ Hp).
Qed.

End ObjectFacts.

(** ** The signer *)

Section SignerFacts.
Import JS Signature.

Lemma string_app_assoc (a b c : string) : (a +:+ b) +:+ c = a +:+ (b +:+ c).
Proof.
  induction a as [|x a IH]; [done|].
  change (String x ((a +:+ b) +:+ c) = String x (a +:+ b +:+ c)). by rewrite IH.
Qed.

Lemma string_app_nil_r (a : string) : a +:+ "" = a.
Proof.
  induction a as [|x a IH]; [done|].
  change (String x (a +:+ "") = String x a). by rewrite IH.
Qed.

Lemma buildSignatureBase_later data ks i acc :
  buildSignatureBase data ks (S i) acc =
  match ks with
  | [] => acc
  | _ => acc +:+ "&" +:+ String.concat "&" (map (item data) ks)
  end.
Proof.
  revert i acc. induction ks as [|k ks IH]; intros i acc; [done|].
  cbn [buildSignatureBase]. replace (0 <? S i)%nat with true by done.
  rewrite IH. destruct ks as [|k' ks]; cbn [map String.concat].
  - by rewrite string_app_assoc.
  - fold (item data k). by rewrite !string_app_assoc.
Qed.

Lemma buildSignatureBase_canonical data ks :
  buildSignatureBase data ks 0 "" = canonical_string data ks.
Proof.
  unfold canonical_string. destruct ks as [|k ks]; [done|].
  cbn [buildSignatureBase]. replace (0 <? 0)%nat with false by done.
  rewrite buildSignatureBase_later. fold (item data k).
  destruct ks as [|k' ks]; cbn [map String.concat]; done.
Qed.

Lemma unitsLt_irrefl (x : list Z) : unitsLt x x = false.
Proof.
  induction x as [|a x IH]; [done|]. cbn [unitsLt].
  rewrite IH, andb_false_r, orb_false_r. apply Z.ltb_irrefl.
Qed.

Lemma unitsLt_trans (x y z : list Z) :
  unitsLt x y = true → unitsLt y z = true → unitsLt x z = true.
Proof.
  revert y z. induction x as [|a x IH]; intros [|b y] [|c z]; cbn [unitsLt]; try done.
  intros Hxy Hyz.
  apply orb_true_iff in Hxy as [Hab|[Hab Hxy]%andb_true_iff];
    apply orb_true_iff in Hyz as [Hbc|[Hbc Hyz]%andb_true_iff];
    apply orb_true_iff.
  - left. apply Z.ltb_lt. apply Z.ltb_lt in Hab, Hbc. lia.
  - left. apply Z.ltb_lt. apply Z.ltb_lt in Hab. apply Z.eqb_eq in Hbc. lia.
  - left. apply Z.ltb_lt. apply Z.ltb_lt in Hbc. apply Z.eqb_eq in Hab. lia.
  - right. apply andb_true_iff. split.
    + apply Z.eqb_eq. apply Z.eqb_eq in Hab, Hbc. lia.
    + by apply (IH y z).
Qed.

Lemma unitsLt_trichotomy (x y : list Z) :
  unitsLt x y = true ∨ x = y ∨ unitsLt y x = true.
Proof.
  revert y. induction x as [|a x IH]; intros [|b y]; cbn [unitsLt]; auto.
  destruct (Z.lt_trichotomy a b) as [Hlt|[->|Hgt]].
  - left. apply orb_true_iff. left. by apply Z.ltb_lt.
  - rewrite Z.ltb_irrefl, Z.eqb_refl. cbn [orb andb].
    destruct (IH y) as [?|[->|?]]; auto.
  - right. right. apply orb_true_iff. left. by apply Z.ltb_lt.
Qed.

#[global] Instance keyLe_total : Total keyLe.
Proof.
  intros a b. unfold keyLe, keyLeb.
  destruct (unitsLt_trichotomy (unitsOf a) (unitsOf b)) as [->|[Heq| ->]]; auto.
  rewrite Heq, unitsLt_irrefl, bool_decide_eq_true_2 by done. cbn [orb andb].
  destruct (total String.le a b) as [Hle|Hle]; [left|right];
    by apply bool_decide_eq_true_2.
Qed.

Lemma keyLe_cases (a b : string) :
  keyLe a b ↔
  unitsLt (unitsOf a) (unitsOf b) = true ∨ (unitsOf a = unitsOf b ∧ String.le a b).
Proof.
  unfold keyLe, keyLeb. rewrite orb_true_iff, andb_true_iff.
  by rewrite !bool_decide_eq_true.
Qed.

#[global] Instance keyLe_trans : Transitive keyLe.
Proof.
  intros a b c [Hab|[Hab Hab']]%keyLe_cases [Hbc|[Hbc Hbc']]%keyLe_cases;
    apply keyLe_cases.
  - left. by eapply unitsLt_trans.
  - left. by rewrite <- Hbc.
  - left. by rewrite Hab.
  - right. split; [congruence|]. by etrans.
Qed.

#[global] Instance keyLe_antisymm : AntiSymm (=) keyLe.
Proof.
  intros a b [Hab|[Hab Hab']]%keyLe_cases [Hba|[Hba Hba']]%keyLe_cases.
  - pose proof (unitsLt_trans _ _ _ Hab Hba) as Hbad.
    by rewrite unitsLt_irrefl in Hbad.
  - rewrite Hba, unitsLt_irrefl in Hab. done.
  - rewrite Hab, unitsLt_irrefl in Hba. done.
  - by apply (anti_symm String.le).
Qed.

Lemma sortedKeys_Permutation (d1 d2 : object) :
  d1 ≡ₚ d2 → sortedKeys d1 = sortedKeys d2.
Proof.
  intros Hp. unfold sortedKeys.
  apply (Sorted_unique keyLe); try apply Sorted_merge_sort; try apply _.
  rewrite !merge_sort_Permutation. by apply keys_Permutation.
Qed.

Lemma buildSignatureBase_ext d1 d2 ks i acc :
  (∀ k, get d1 k = get d2 k) →
  buildSignatureBase d1 ks i acc = buildSignatureBase d2 ks i acc.
Proof.
  intros Hget. revert i acc. induction ks as [|k ks IH]; intros i acc; [done|].
  cbn [buildSignatureBase]. by rewrite Hget, IH.
Qed.

Lemma signatureBase_Permutation (d1 d2 : object) :
  wf d1 → d1 ≡ₚ d2 → signatureBase d1 = signatureBase d2.
Proof.
  intros Hwf Hp. unfold signatureBase. rewrite (sortedKeys_Permutation _ _ Hp).
  apply buildSignatureBase_ext. intros k. by apply get_Permutation.
Qed.

Lemma hex_digit_lower (d : Z) : Sha256.is_lower_hex (Sha256.hex_digit d) = true.
Proof.
  destruct d as [|p|p]; try reflexivity.
  do 4 (destruct p as [p|p|]; try reflexivity).
Qed.

Lemma hex_shape (bs : list Z) :
  String.length (Sha256.hex bs) = (2 * length bs)%nat ∧
  Sha256.all_chars Sha256.is_lower_hex (Sha256.hex bs) = true.
Proof.
  induction bs as [|b bs [IHlen IHall]]; [done|]. split.
  - cbn [Sha256.hex String.length length]. rewrite IHlen. lia.
  - cbn [Sha256.hex Sha256.all_chars]. by rewrite !hex_digit_lower, IHall.
Qed.

Lemma sha256_length (msg : list Z) : length (Sha256.sha256 msg) = 32%nat.
Proof. reflexivity. Qed.

Lemma hmac_sha256_hex_shape (secret message : string) :
  String.length (Sha256.hmac_sha256_hex secret message) = 64%nat ∧
  Sha256.all_chars Sha256.is_lower_hex (Sha256.hmac_sha256_hex secret message) = true.
Proof.
  unfold Sha256.hmac_sha256_hex, Sha256.hmac. cbv zeta.
  match goal with
  | |- context [Sha256.hex (Sha256.sha256 ?m)] =>
      destruct (hex_shape (Sha256.sha256 m)) as [Hlen Hall]
  end.
  by rewrite sha256_length in Hlen.
Qed.

(** C1.  The signature is the HMAC-SHA256 digest, 64 lowercase hexadecimal
    digits, of the canonical string [k1=v1&k2=v2&...], with no trailing
    separator, over the keys in the order of the default [sort]: by UTF-16
    code unit.  It does not depend on the order in which the properties of
    the object (whose keys are distinct, as in every JavaScript object) were
    inserted; and the scenario [{b:"2", a:"1"}] / [{a:"1", b:"2"}] under
    ["secret"] signs the string ["a=1&b=2"]. *)
Theorem calculateSignature_canonical :
  (∀ (data : object) (secret : string),
     ∃ sorted : list string,
       sorted ≡ₚ keys data ∧ Sorted keyLe sorted ∧
       calculateSignature data secret =
         Sha256.hmac_sha256_hex secret (canonical_string data sorted)) ∧
  (∀ a b : string,
     unitsOf a ≠ unitsOf b →
     (keyLe a b ↔ unitsLt (unitsOf a) (unitsOf b) = true)) ∧
  (∀ (d1 d2 : object) (secret : string),
     wf d1 → d1 ≡ₚ d2 →
     calculateSignature d1 secret = calculateSignature d2 secret) ∧
  (∀ (data : object) (secret : string),
     String.length (calculateSignature data secret) = 64%nat ∧
     Sha256.all_chars Sha256.is_lower_hex (calculateSignature data secret) = true) ∧
  calculateSignature [("b", VStr "2"); ("a", VStr "1")] "secret" =
    calculateSignature [("a", VStr "1"); ("b", VStr "2")] "secret" ∧
  calculateSignature [("a", VStr "1"); ("b", VStr "2")] "secret" =
    Sha256.hmac_sha256_hex "secret" "a=1&b=2".
Proof.
  split; [|split; [|split; [|split; [|split]]]].
  - intros data secret. exists (sortedKeys data). split; [|split].
    + apply merge_sort_Permutation.
    + apply Sorted_merge_sort; apply _.
    + unfold calculateSignature, signatureBase.
      by rewrite buildSignatureBase_canonical.
  - intros a b Hne. rewrite keyLe_cases. split; [|by left].
    by intros [Hlt|[Heq _]].
  - intros d1 d2 secret Hwf Hp. unfold calculateSignature.
    by rewrite (signatureBase_Permutation d1 d2 Hwf Hp).
  - intros data secret. unfold calculateSignature. apply hmac_sha256_hex_shape.
  - by vm_compute.
  - by vm_compute.
Qed.

Lemma calculateSignature_canonical_witness :
  let d1 : object := [("b", VStr "2"); ("timestamp", VNum 1700000000000); ("a", VStr "1")] in
  let d2 : object := [("a", VStr "1"); ("b", VStr "2"); ("timestamp", VNum 1700000000000)] in
  wf d1 ∧ d1 ≡ₚ d2 ∧ calculateSignature d1 "secret" = calculateSignature d2 "secret".
Proof.
  intros d1 d2.
  assert (Hwf : wf d1) by (unfold wf; apply (bool_decide_unpack _); vm_compute; exact I).
  assert (Hp : d1 ≡ₚ d2).
  { unfold d1, d2. etrans; [apply Permutation_skip, Permutation_swap|apply Permutation_swap]. }
  split; [exact Hwf|]. split; [exact Hp|].
  exact (proj1 (proj2 (proj2 calculateSignature_canonical)) d1 d2 "secret" Hwf Hp).
Defined.

(** The order of the keys is not the order of their code points.  The key
    U+FF5E (UTF-8 [EF BD 9E], one code unit [FF5E]) has the smaller code
    point and the key U+1F600 (UTF-8 [F0 9F 98 80], code units [D83D DE00])
    the smaller first code unit: the signature is the digest of the string
    that puts U+1F600 first, and differs from the digest of the canonical
    string over the keys sorted by code point. *)
Lemma calculateSignature_not_by_code_point :
  let wave := String "239" (String "189" (String "158" "")) in
  let grin := String "240" (String "159" (String "152" (String "128" ""))) in
  let data : object := [(wave, VStr "1"); (grin, VStr "2")] in
  unitsOf wave = [0xFF5E] ∧ unitsOf grin = [0xD83D; 0xDE00] ∧
  sortedByCodePoint data = [wave; grin] ∧
  sortedKeys data = [grin; wave] ∧
  calculateSignature data "secret" =
    Sha256.hmac_sha256_hex "secret" (grin +:+ "=2&" +:+ wave +:+ "=1") ∧
  calculateSignature data "secret" ≠
    Sha256.hmac_sha256_hex "secret" (canonical_string data (sortedByCodePoint data)).
Proof.
  intros wave grin data.
  split; [by vm_compute|]. split; [by vm_compute|].
  split; [by vm_compute|]. split; [by vm_compute|].
  split; [by vm_compute|]. vm_compute. discriminate.
Qed.


Lemma get_set_same (o : object) k v : get (set o k v) k = v.
Proof.
  induction o as [|[k' v'] o IH]; simpl.
  - by rewrite String.eqb_refl.
  - destruct (String.eqb_spec k' k) as [->|Hne]; simpl.
    + by rewrite String.eqb_refl.
    + by destruct (String.eqb_spec k' k).
Qed.

Lemma delete_absent (o : object) k : k ∉ keys o → delete o k = o.
Proof.
  unfold keys. induction o as [|[k' v'] o IH]; simpl; intros Hk; [done|].
  apply not_elem_of_cons in Hk as [Hne Hk].
  destruct (String.eqb_spec k' k) as [->|_]; [done|]. by rewrite IH.
Qed.

Lemma delete_set_absent (o : object) k v : k ∉ keys o → delete (set o k v) k = o.
Proof.
  unfold keys. induction o as [|[k' v'] o IH]; simpl; intros Hk.
  - by rewrite String.eqb_refl.
  - apply not_elem_of_cons in Hk as [Hne Hk].
    destruct (String.eqb_spec k' k) as [->|_]; [done|]. simpl.
    destruct (String.eqb_spec k' k) as [->|_]; [done|]. by rewrite IH.
Qed.

Lemma keys_set_absent (o : object) k k' v :
  k' ≠ k → k' ∉ keys o → k' ∉ keys (set o k v).
Proof.
  unfold keys. intros Hne. induction o as [|[k1 v1] o IH]; simpl; intros Hk.
  - apply not_elem_of_cons. split; [done|apply not_elem_of_nil].
  - apply not_elem_of_cons in Hk as [Hne1 Hk].
    destruct (String.eqb_spec k1 k) as [->|_]; simpl;
      apply not_elem_of_cons; split; auto.
Qed.

Lemma keys_delete_absent (o : object) k k' : k' ∉ keys o → k' ∉ keys (delete o k).
Proof.
  unfold keys. induction o as [|[k1 v1] o IH]; simpl; intros Hk; [done|].
  apply not_elem_of_cons in Hk as [Hne1 Hk].
  destruct (String.eqb_spec k1 k) as [->|_]; simpl; [by apply IH|].
  apply not_elem_of_cons; split; auto.
Qed.

Lemma keys_stripBlank_absent (o : object) k' : k' ∉ keys o → k' ∉ keys (stripBlank o).
Proof.
  unfold stripBlank. generalize (keys o) at 2. intros ks. revert o.
  induction ks as [|k ks IH]; intros o Hk; simpl; [done|].
  apply IH. destruct (is_blank (get o k)); [by apply keys_delete_absent|done].
Qed.

Lemma hex_sha256_nonempty (msg : list Z) : Sha256.hex (Sha256.sha256 msg) ≠ "".
Proof.
  unfold Sha256.sha256, Sha256.state_bytes.
  generalize (fold_left Sha256.compress
                (Sha256.blocks (length (Sha256.pad msg)) (Sha256.pad msg)) Sha256.H0).
  intros st. unfold Sha256.word_bytes at 1. discriminate.
Qed.

Lemma hmac_sha256_hex_nonempty (secret message : string) :
  Sha256.hmac_sha256_hex secret message ≠ "".
Proof. unfold Sha256.hmac_sha256_hex, Sha256.hmac. apply hex_sha256_nonempty. Qed.

(** Round trip for request fields that do not themselves carry a [sign]
    entry: the signature attached last is the one [verifySignature]
    recomputes. *)
Lemma prepare_verify_roundtrip (now : Z) (fields : object) (apiKey : value)
    (secret : string) :
  "sign" ∉ keys fields →
  verifySignature (prepareSignedPayload now fields apiKey secret) secret = true.
Proof.
  intros Hsign. unfold prepareSignedPayload.
  set (p1 := if negb (truthy (get fields "timestamp")) then _ else _).
  set (p2 := if negb (truthy (get p1 "apiKey")) then _ else _).
  assert (Hp : "sign" ∉ keys (stripBlank p2)).
  { apply keys_stripBlank_absent. unfold p2, p1.
    repeat case_match; repeat apply keys_set_absent; done. }
  unfold verifySignature. rewrite get_set_same. cbn [truthy].
  destruct (String.eqb_spec (calculateSignature (stripBlank p2) secret) "") as [He|_].
  { by apply hmac_sha256_hex_nonempty in He. }
  cbn [negb strict_eq_string]. rewrite (delete_set_absent _ _ _ Hp).
  apply String.eqb_refl.
Qed.

Lemma prepare_verify_roundtrip_witness :
  ("sign" ∉ keys [("accountType", VNum 0); ("prefix", VStr "48"); ("code", VStr "")]) ∧
  verifySignature
    (prepareSignedPayload 1700000000000
       [("accountType", VNum 0); ("prefix", VStr "48"); ("code", VStr "")]
       (VStr "key") "secret") "secret" = true.
Proof.
  assert (H : "sign" ∉ keys [("accountType", VNum 0); ("prefix", VStr "48"); ("code", VStr "")]).
  { apply (bool_decide_unpack _). vm_compute. exact I. }
  split; [exact H|]. by apply prepare_verify_roundtrip.
Defined.

(** C2.  A request map that already carries a (non-empty) [sign] entry is a
    map of valid scalar fields, yet the stale entry is still in the payload
    when the signature is computed: it is signed over
    [apiKey=..&sign=..&timestamp=..], and [verifySignature], which removes
    [sign] before recomputing, rejects the payload just prepared. *)
Theorem prepareSignedPayload_signs_stale_sign :
  let fields : object := [("sign", VStr "x")] in
  let payload := prepareSignedPayload 1700000000000 fields (VStr "key") "secret" in
  get payload "sign" =
    VStr (Sha256.hmac_sha256_hex "secret" "apiKey=key&sign=x&timestamp=1700000000000") ∧
  get payload "sign" ≠
    VStr (Sha256.hmac_sha256_hex "secret" "apiKey=key&timestamp=1700000000000") ∧
  verifySignature payload "secret" = false.
Proof.
  cbv zeta. split; [by vm_compute|]. split; [|by vm_compute].
  vm_compute. discriminate.
Qed.

End SignerFacts.


(** ** The response cipher *)

Section DecryptionFacts.
Import JS Decryption.
Context `{Platform}.

Lemma splitLoop_rawBlocks fuel rawData n i chunks :
  splitLoop fuel rawData n i chunks =
  chunks ++ map base64_encode (rawBlocks fuel rawData n i).
Proof.
  revert i chunks. induction fuel as [|fuel IH]; intros i chunks; simpl.
  - by rewrite app_nil_r.
  - destruct (i <? length rawData)%nat; [|by rewrite app_nil_r].
    rewrite IH. by rewrite <- app_assoc.
Qed.

Lemma rawBlocks_nonempty fuel (rawData : list Z) n i :
  rawBlocks fuel rawData n i ≠ [] → (i < length rawData)%nat.
Proof.
  destruct fuel as [|fuel]; simpl; [done|].
  destruct (Nat.ltb_spec i (length rawData)); done.
Qed.

Lemma rawBlocks_blocking fuel (rawData : list Z) n i :
  (0 < n)%nat → (length rawData - i ≤ fuel)%nat →
  is_blocking n (drop i rawData) (rawBlocks fuel rawData n i).
Proof.
  intros Hn. revert i. induction fuel as [|fuel IH]; intros i Hfuel.
  - simpl. split; [|intros j b Hj; by rewrite lookup_nil in Hj].
    rewrite drop_ge; [done|lia].
  - simpl. destruct (Nat.ltb_spec i (length rawData)) as [Hlt|Hge].
    2:{ split; [|intros j b Hj; by rewrite lookup_nil in Hj].
        rewrite drop_ge; [done|lia]. }
    destruct (IH (i + n)%nat) as [Hcat Hlen]; [lia|].
    unfold slice. replace (i + n - i)%nat with n by lia. split.
    + simpl. rewrite Hcat. rewrite <- (drop_drop rawData n i). apply take_drop.
    + intros [|j] b Hj; simpl in Hj.
      * injection Hj as <-. rewrite length_take, length_drop. split; [lia|].
        intros Hmore. simpl in Hmore.
        assert (i + n < length rawData)%nat; [|lia].
        apply (rawBlocks_nonempty fuel rawData n).
        intros Hnil. rewrite Hnil in Hmore. simpl in Hmore. lia.
      * destruct (Hlen j b Hj) as [Hb Hfull]. split; [done|].
        intros Hmore. apply Hfull. simpl in Hmore. lia.
Qed.

Lemma decryptLoop_success chunks i acc ds :
  Forall2 (λ c d, rsa_decrypt c = Some d) chunks ds →
  decryptLoop chunks i acc = Return (acc ++ ds).
Proof.
  intros HF. revert i acc. induction HF as [|c d chunks ds Hc _ IH]; intros i acc; simpl.
  - by rewrite app_nil_r.
  - rewrite Hc, IH. by rewrite <- app_assoc.
Qed.

Lemma decryptLoop_failure chunks i acc :
  Exists (λ c, rsa_decrypt c = None) chunks →
  ∃ e, decryptLoop chunks i acc = Throw e.
Proof.
  intros HE. revert i acc. induction HE as [c chunks Hc|c chunks _ IH]; intros i acc; simpl.
  - rewrite Hc. eauto.
  - destruct (rsa_decrypt c); eauto.
Qed.

(** C3.  Chunked decryption is attempted only when single-block decryption
    fails.  It cuts the base64-decoded bytes into 128-byte blocks (the last
    one possibly shorter), re-encodes and decrypts each block on its own; one
    failing block makes the whole RSA attempt return [null], and otherwise the
    decrypted text is the concatenation of the block plaintexts in order. *)
Theorem chunked_rsa_all_or_nothing (encryptedData : string) (maxBlock : nat) :
  (∀ r, rsa_decrypt encryptedData = Some r →
        rsaDecryptedResult encryptedData = Return r) ∧
  (rsa_decrypt encryptedData = None →
   ∃ blocks : list (list Z),
     is_blocking 128 (base64_decode encryptedData) blocks ∧
     ((∃ b, b ∈ blocks ∧ rsa_decrypt (base64_encode b) = None) →
        decryptRSAResponse encryptedData maxBlock = VNull) ∧
     (∀ ds : list string,
        Forall2 (λ b d, rsa_decrypt (base64_encode b) = Some d) blocks ds →
        rsaDecryptedResult encryptedData = Return (String.concat "" ds) ∧
        decryptRSAResponse encryptedData maxBlock =
          match postRSA (String.concat "" ds) with
          | Return v => v
          | Throw _ => VNull
          end)).
Proof.
  split.
  - intros r Hr. unfold rsaDecryptedResult. by rewrite Hr.
  - intros Hnone.
    set (raw := base64_decode encryptedData).
    exists (rawBlocks (length raw) raw 128 0). split; [|split].
    + apply (rawBlocks_blocking (length raw) raw 128 0); lia.
    + intros (b & Hb & Hfail).
      unfold decryptRSAResponse, decryptRSAResponse_try, rsaDecryptedResult.
      rewrite Hnone. fold raw. rewrite splitLoop_rawBlocks. simpl app.
      destruct (decryptLoop_failure (map base64_encode (rawBlocks (length raw) raw 128 0)) 0 [])
        as [e He]; [|by rewrite He].
      apply Exists_exists. exists (base64_encode b). split; [|done].
      by apply list_elem_of_fmap_2.
    + intros ds Hds.
      assert (rsaDecryptedResult encryptedData = Return (String.concat "" ds)) as Hres.
      { unfold rsaDecryptedResult.
        rewrite Hnone. fold raw. rewrite splitLoop_rawBlocks. simpl app.
        rewrite (decryptLoop_success _ 0 [] ds); [done|].
        by apply Forall2_fmap_l. }
      split; [exact Hres|].
      unfold decryptRSAResponse, decryptRSAResponse_try. by rewrite Hres.
Qed.

(** On an object, [processApiResponse] always returns. *)
Lemma processApiResponse_returns (o : object) :
  ∃ v, processApiResponse (VObj o) = Return v.
Proof. unfold processApiResponse. repeat case_match; eauto. Qed.

(** C4.  When the RSA attempt yields a falsy result and the AES attempt
    yields [null] on a string [data] field, [processApiResponse] returns
    (does not throw) the very envelope it was given. *)
Theorem processApiResponse_failure_unchanged (o : object) (data : string) :
  get o "data" = VStr data →
  truthy (decryptRSAResponse data maxDecryptBlock) = false →
  decryptAESString data encryptionKey = None →
  processApiResponse (VObj o) = Return (VObj o).
Proof.
  intros Hdata Hrsa Haes. unfold processApiResponse.
  rewrite Hdata, Hrsa, Haes. by destruct (negb _).
Qed.

End DecryptionFacts.

Lemma chunked_rsa_all_or_nothing_witness :
  let P := Decryption.toy_platform in
  let data := String.string_of_list_ascii (replicate 300 "a"%char) in
  @rsa_decrypt P data = None ∧
  ∃ blocks : list (list Z),
    Decryption.is_blocking 128 (@base64_decode P data) blocks ∧
    ((∃ b, b ∈ blocks ∧ @rsa_decrypt P (@base64_encode P b) = None) →
       @Decryption.decryptRSAResponse P data 128 = JS.VNull) ∧
    (∀ ds : list string,
       Forall2 (λ b d, @rsa_decrypt P (@base64_encode P b) = Some d) blocks ds →
       @Decryption.rsaDecryptedResult P data = Return (String.concat "" ds) ∧
       @Decryption.decryptRSAResponse P data 128 =
         match @Decryption.postRSA P (String.concat "" ds) with
         | Return v => v
         | Throw _ => JS.VNull
         end).
Proof.
  intros P data.
  assert (@rsa_decrypt P data = None) as Hnone by (vm_compute; reflexivity).
  split; [exact Hnone|].
  exact (proj2 (@chunked_rsa_all_or_nothing P data 128%nat) Hnone).
Defined.

Example chunked_rsa_toy :
  let data := String.string_of_list_ascii (replicate 300 "a"%char) in
  @Decryption.rsaDecryptedResult Decryption.toy_platform data = Return data ∧
  @Decryption.decryptRSAResponse Decryption.toy_platform data 128 = JS.VStr data.
Proof. by vm_compute. Qed.

Lemma processApiResponse_failure_unchanged_witness :
  let P := Decryption.failing_platform in
  let o : JS.object := [("code", JS.VNum 200); ("data", JS.VStr "bm90IGEgY2lwaGVydGV4dA==")] in
  JS.get o "data" = JS.VStr "bm90IGEgY2lwaGVydGV4dA==" ∧
  JS.truthy (@Decryption.decryptRSAResponse P "bm90IGEgY2lwaGVydGV4dA==" Decryption.maxDecryptBlock) = false ∧
  @Decryption.decryptAESString P "bm90IGEgY2lwaGVydGV4dA==" Decryption.encryptionKey = None ∧
  @Decryption.processApiResponse P (JS.VObj o) = Return (JS.VObj o).
Proof.
  intros P o.
  assert (JS.get o "data" = JS.VStr "bm90IGEgY2lwaGVydGV4dA==") as H1 by reflexivity.
  assert (JS.truthy (@Decryption.decryptRSAResponse P "bm90IGEgY2lwaGVydGV4dA==" Decryption.maxDecryptBlock) = false)
    as H2 by (vm_compute; reflexivity).
  assert (@Decryption.decryptAESString P "bm90IGEgY2lwaGVydGV4dA==" Decryption.encryptionKey = None)
    as H3 by (vm_compute; reflexivity).
  split; [exact H1|]. split; [exact H2|]. split; [exact H3|].
  exact (@processApiResponse_failure_unchanged P o _ H1 H2 H3).
Defined.


(** ** Token search *)

Section TokenFacts.
Import JS Authentication.

Lemma value_ind_deep (P : value → Prop) :
  P VUndef → P VNull → (∀ b, P (VBool b)) → (∀ n, P (VNum n)) →
  (∀ text, P (VDouble text)) → (∀ s, P (VStr s)) →
  (∀ elems, Forall P elems → P (VArr elems)) →
  (∀ props, Forall (λ kv, P kv.2) props → P (VObj props)) →
  ∀ v, P v.
Proof.
  intros HU HN HB HZ HD HS HA HO. fix IH 1. intros [| |b|n|text|s|elems|props].
  - exact HU.
  - exact HN.
  - apply HB.
  - apply HZ.
  - apply HD.
  - apply HS.
  - apply HA. induction elems as [|e elems IHe]; constructor; [apply IH|exact IHe].
  - apply HO. induction props as [|[k e] props IHp]; constructor; [apply IH|exact IHp].
Qed.

Lemma get_elem_of (o : object) k v : get o k = v → v ≠ VUndef → (k, v) ∈ o.
Proof.
  induction o as [|[k' v'] o IH]; simpl; intros Hget Hv; [congruence|].
  destruct (String.eqb_spec k' k) as [->|_].
  - subst. apply list_elem_of_here.
  - apply list_elem_of_further. by apply IH.
Qed.

Lemma truthy_defined v : truthy v = true → v ≠ VUndef.
Proof. by intros Ht ->. Qed.

Lemma get_truthy_key (o : object) k : truthy (get o k) = true → k ∈ keys o.
Proof.
  intros Ht. apply (list_elem_of_fmap_2 fst _ (k, get o k)).
  apply get_elem_of; [done|by apply truthy_defined].
Qed.

(** A truthy result is the value of some [token] field of the structure. *)
Lemma findToken_sound v : truthy (findToken v) = true → has_token (findToken v) v.
Proof.
  induction v as [| | | | | |elems IH|props IH] using value_ind_deep; try done.
  - simpl. intros Ht.
    assert (∀ es, Forall (λ e, truthy (findToken e) = true → has_token (findToken e) e) es →
                  (∀ e, e ∈ es → e ∈ elems) →
                  ∀ r, r = (fix each (es : list value) : value :=
                     match es with
                     | [] => VNull
                     | child :: rest =>
                         if truthy (findToken child) then findToken child else each rest
                     end) es → truthy r = true → has_token r (VArr elems)) as Hloop.
    { induction es as [|e es IHes]; intros HF Hsub r -> Hr; [done|].
      apply Forall_cons in HF as [He HF].
      destruct (truthy (findToken e)) eqn:Hte.
      - apply (has_token_elem _ _ e); [apply Hsub, list_elem_of_here|by apply He].
      - eapply IHes; eauto. intros e' He'. by apply Hsub, list_elem_of_further. }
    eapply Hloop; eauto.
  - simpl. destruct (truthy (get props "token")) eqn:Htok.
    + intros _. apply has_token_here; [by apply get_truthy_key|done].
    + intros Ht.
      assert (∀ ps, Forall (λ kv, truthy (findToken kv.2) = true → has_token (findToken kv.2) kv.2) ps →
                    (∀ kv, kv ∈ ps → kv ∈ props) →
                    ∀ r, r = (fix each (ps : list (string * value)) : value :=
                       match ps with
                       | [] => VNull
                       | (_, child) :: rest =>
                           if truthy (findToken child) then findToken child else each rest
                       end) ps → truthy r = true → has_token r (VObj props)) as Hloop.
      { induction ps as [|[k e] ps IHps]; intros HF Hsub r -> Hr; [done|].
        apply Forall_cons in HF as [He HF]. simpl in He.
        destruct (truthy (findToken e)) eqn:Hte.
        - apply (has_token_prop _ _ k e); [apply Hsub, list_elem_of_here|by apply He].
        - eapply IHps; eauto. intros kv Hkv. by apply Hsub, list_elem_of_further. }
      eapply Hloop; eauto.
Qed.

(** A result that is not truthy is [null]. *)
Lemma findToken_null v : truthy (findToken v) = false → findToken v = VNull.
Proof.
  induction v as [| | | | | |elems IH|props IH] using value_ind_deep; try done.
  - simpl. induction elems as [|e elems IHe]; [done|].
    apply Forall_cons in IH as [He HF].
    destruct (truthy (findToken e)) eqn:Hte; [congruence|]. by apply IHe.
  - simpl. destruct (truthy (get props "token")) eqn:Htok; [congruence|].
    clear Htok. induction props as [|[k e] props IHp]; [done|].
    apply Forall_cons in IH as [He HF].
    destruct (truthy (findToken e)) eqn:Hte; [congruence|]. by apply IHp.
Qed.

(** A truthy [token] field anywhere in the structure makes the search
    succeed. *)
Lemma findToken_complete t v :
  has_token t v → truthy t = true → truthy (findToken v) = true.
Proof.
  induction 1 as [props Hk Hget|props k child Hin _ IH|elems child Hin _ IH]; intros Ht.
  - simpl. subst t. by rewrite Ht.
  - specialize (IH Ht). simpl.
    destruct (truthy (get props "token")) eqn:Htok; [done|]. clear Htok.
    induction props as [|[k' e] props IHp]; [by apply elem_of_nil in Hin|].
    destruct (truthy (findToken e)) eqn:Hte; [done|].
    apply elem_of_cons in Hin as [Heq|Hin]; [|by apply IHp].
    injection Heq as -> ->. congruence.
  - specialize (IH Ht). simpl.
    induction elems as [|e elems IHe]; [by apply elem_of_nil in Hin|].
    destruct (truthy (findToken e)) eqn:Hte; [done|].
    apply elem_of_cons in Hin as [->|Hin]; [congruence|by apply IHe].
Qed.

Lemma has_token_truthy_container t v : has_token t v → truthy v = true.
Proof. by destruct 1. Qed.

Lemma prop_truthy_object v k :
  truthy (prop v k) = true → ∃ o, v = VObj o ∧ prop v k = get o k.
Proof. destruct v; try done. eauto. Qed.

Lemma extractToken_truthy_sound d :
  truthy (_extractTokenFromResponse d) = true →
  has_token (_extractTokenFromResponse d) d.
Proof.
  unfold _extractTokenFromResponse.
  destruct (truthy d && typeof_object d && truthy (prop d "token")) eqn:H1.
  { apply andb_prop in H1 as [_ H1]. intros _.
    destruct (prop_truthy_object _ _ H1) as (o & -> & Hp). rewrite Hp in *.
    apply has_token_here; [by apply get_truthy_key|done]. }
  destruct (truthy d && truthy (prop d "data") && truthy (prop (prop d "data") "token")) eqn:H2.
  { apply andb_prop in H2 as [H2 H3]. apply andb_prop in H2 as [_ H2]. intros _.
    destruct (prop_truthy_object _ _ H2) as (o & -> & Hp). rewrite Hp in *.
    destruct (prop_truthy_object _ _ H3) as (o' & Ho' & Hp'). rewrite Hp' in *.
    apply (has_token_prop _ _ "data" (VObj o')).
    - rewrite <- Ho'. apply get_elem_of; [done|by apply truthy_defined].
    - apply has_token_here; [by apply get_truthy_key|done]. }
  destruct (truthy d); [apply findToken_sound|done].
Qed.

Lemma extractToken_null d :
  truthy (_extractTokenFromResponse d) = false → _extractTokenFromResponse d = VNull.
Proof.
  unfold _extractTokenFromResponse.
  destruct (truthy d && typeof_object d && truthy (prop d "token")) eqn:H1.
  { apply andb_prop in H1 as [_ H1]. congruence. }
  destruct (truthy d && truthy (prop d "data") && truthy (prop (prop d "data") "token")) eqn:H2.
  { apply andb_prop in H2 as [_ H2]. congruence. }
  destruct (truthy d); [apply findToken_null|done].
Qed.

Lemma extractToken_complete t d :
  has_token t d → truthy t = true → truthy (_extractTokenFromResponse d) = true.
Proof.
  intros Hhas Ht. unfold _extractTokenFromResponse.
  destruct (truthy d && typeof_object d && truthy (prop d "token")) eqn:H1.
  { by apply andb_prop in H1 as [_ H1]. }
  destruct (truthy d && truthy (prop d "data") && truthy (prop (prop d "data") "token")) eqn:H2.
  { by apply andb_prop in H2 as [_ H2]. }
  rewrite (has_token_truthy_container _ _ Hhas). by eapply findToken_complete.
Qed.

(** C5, as the code has it.  The token search is a depth-first search of
    unbounded depth through objects and arrays alike.  Whenever the decrypted
    structure has, at any depth, a field named [token] with a truthy value,
    the search returns a truthy value that is the value of a [token] field of
    the structure; when no [token] field has a truthy value (in particular
    when there is none) it returns [null].  A token nested three objects deep
    among sibling keys is found. *)
Theorem extractToken_truthy_search (responseData : value) :
  ((∃ t, has_token t responseData ∧ truthy t = true) →
     truthy (_extractTokenFromResponse responseData) = true ∧
     has_token (_extractTokenFromResponse responseData) responseData) ∧
  ((∀ t, has_token t responseData → truthy t = false) →
     _extractTokenFromResponse responseData = VNull) ∧
  _extractTokenFromResponse
    (VObj [("code", VNum 200);
           ("result", VObj [("page", VNum 1);
              ("user", VObj [("name", VStr "ann");
                 ("session", VObj [("id", VNum 7); ("token", VStr "jwt")])])])])
    = VStr "jwt" ∧
  _extractTokenFromResponse
    (VObj [("code", VNum 200);
           ("result", VObj [("page", VNum 1);
              ("user", VObj [("name", VStr "ann")])])])
    = VNull.
Proof.
  split; [|split; [|split]]; [| |done..].
  - intros (t & Hhas & Ht).
    assert (truthy (_extractTokenFromResponse responseData) = true) as Hr
      by (by eapply extractToken_complete).
    split; [done|by apply extractToken_truthy_sound].
  - intros Hnone. apply extractToken_null.
    destruct (truthy (_extractTokenFromResponse responseData)) eqn:Hr; [|done].
    by rewrite <- (Hnone _ (extractToken_truthy_sound _ Hr)).
Qed.

Lemma extractToken_truthy_search_witness :
  let d := VObj [("items", VArr [VNum 1; VObj [("token", VStr "jwt")]])] in
  (∃ t, has_token t d ∧ truthy t = true) ∧
  truthy (_extractTokenFromResponse d) = true ∧
  has_token (_extractTokenFromResponse d) d.
Proof.
  intros d.
  assert (∃ t, has_token t d ∧ truthy t = true) as Hex.
  { exists (VStr "jwt"). split; [|reflexivity].
    apply (has_token_prop _ _ "items" (VArr [VNum 1; VObj [("token", VStr "jwt")]]));
      [apply list_elem_of_here|].
    apply (has_token_elem _ _ (VObj [("token", VStr "jwt")]));
      [apply list_elem_of_further, list_elem_of_here|].
    apply has_token_here; [apply list_elem_of_here|reflexivity]. }
  split; [exact Hex|]. exact (proj1 (extractToken_truthy_search d) Hex).
Defined.

(** The search is not the objects-only search for a field named [token]: it
    finds a token below an array, where the objects-only search finds none,
    and it passes over a [token] field whose value is the empty string, which
    the objects-only search returns. *)
Lemma extractToken_not_objects_only :
  (objectsOnlySearch (VObj [("items", VArr [VObj [("token", VStr "jwt")]])]) = None ∧
   _extractTokenFromResponse (VObj [("items", VArr [VObj [("token", VStr "jwt")]])])
     = VStr "jwt") ∧
  (objectsOnlySearch (VObj [("token", VStr "")]) = Some (VStr "") ∧
   has_token (VStr "") (VObj [("token", VStr "")]) ∧
   _extractTokenFromResponse (VObj [("token", VStr "")]) = VNull).
Proof.
  repeat split; try reflexivity.
  apply has_token_here; [apply list_elem_of_here|reflexivity].
Qed.

End TokenFacts.


(** ** The request dispatcher *)

Section DispatcherFacts.
Import JS Client.
Context `{Platform}.

Lemma mkStats_eq r r' s s' f f' e e' :
  r = r' → s = s' → f = f' → e = e' → mkStats r s f e = mkStats r' s' f' e'.
Proof. by intros -> -> -> ->. Qed.

Lemma _makeHttpRequest_failure timeoutMs net :
  isFailure net = true →
  _makeHttpRequest timeoutMs net = Throw (rejection timeoutMs net).
Proof. by destruct net. Qed.

Lemma requestLoop_all_fail endpoint payload timeoutMs net maxAttempts fuel :
  ∀ attempts st trace,
    (attempts + S fuel = maxAttempts)%nat →
    (∀ k, (attempts ≤ k < maxAttempts)%nat → isFailure (net k) = true) →
    requestLoop (S fuel) endpoint payload timeoutMs net maxAttempts attempts st trace =
    (mkStats (requests st + Z.of_nat (S fuel)) (successful st)
             (failed st + Z.of_nat (S fuel)) (encrypted st),
     trace ++ EvHttp endpoint payload :: laterSchedule endpoint payload (S attempts) fuel,
     Throw (rejection timeoutMs (net (maxAttempts - 1)%nat))).
Proof.
  induction fuel as [|fuel IH]; intros attempts st trace Hsum Hfail.
  - cbn [requestLoop].
    destruct (Nat.ltb_spec attempts maxAttempts); [|lia].
    rewrite (_makeHttpRequest_failure _ _ (Hfail attempts ltac:(lia))).
    destruct (Nat.leb_spec maxAttempts (S attempts)); [|lia].
    replace (maxAttempts - 1)%nat with attempts by lia.
    destruct st; unfold laterSchedule; unfold bumpFailed, bumpRequests;
      cbn [requests successful failed encrypted].
    match goal with
    | |- (?a, _, _) = (?b, _, _) => replace a with b; [reflexivity|]
    end.
    apply mkStats_eq; lia.
  - remember (S fuel) as fuel1. cbn [requestLoop].
    destruct (Nat.ltb_spec attempts maxAttempts); [|lia].
    rewrite (_makeHttpRequest_failure _ _ (Hfail attempts ltac:(lia))).
    destruct (Nat.leb_spec maxAttempts (S attempts)); [lia|].
    subst fuel1. rewrite IH; [|lia|intros k Hk; apply Hfail; lia].
    unfold laterSchedule. cbn [seq map concat].
    rewrite <- !app_assoc. destruct st; unfold bumpFailed, bumpRequests;
      cbn [requests successful failed encrypted].
    match goal with
    | |- (?a, _, _) = (?b, _, _) => replace a with b; [reflexivity|]
    end.
    apply mkStats_eq; lia.
Qed.

Lemma requestLoop_first_reply endpoint payload timeoutMs net maxAttempts j
    status hdrs body fuel :
  ∀ attempts st trace,
    (attempts + fuel = maxAttempts)%nat → (attempts ≤ j < maxAttempts)%nat →
    (∀ k, (attempts ≤ k < j)%nat → isFailure (net k) = true) →
    net j = NetReply status hdrs body →
    ∃ st',
      requestLoop fuel endpoint payload timeoutMs net maxAttempts attempts st trace =
      (st',
       trace ++ EvHttp endpoint payload
             :: laterSchedule endpoint payload (S attempts) (j - attempts),
       Return (Some (onEnd status hdrs body))).
Proof.
  induction fuel as [|fuel IH]; intros attempts st trace Hsum Hj Hfail Hreply; [lia|].
  cbn [requestLoop]. destruct (Nat.ltb_spec attempts maxAttempts); [|lia].
  destruct (decide (attempts = j)) as [->|Hne].
  - rewrite Hreply. cbn [_makeHttpRequest]. eexists.
    replace (j - j)%nat with 0%nat by lia. unfold laterSchedule. reflexivity.
  - rewrite (_makeHttpRequest_failure _ _ (Hfail attempts ltac:(lia))).
    destruct (Nat.leb_spec maxAttempts (S attempts)); [lia|].
    destruct (IH (S attempts) (bumpFailed (bumpRequests st))
                ((trace ++ [EvHttp endpoint payload])
                       ++ [EvDelay (1000 * Z.of_nat (S attempts))]))
      as [st' Hst']; [lia|lia|intros k Hk; apply Hfail; lia|done|].
    exists st'. rewrite Hst'. f_equal. f_equal.
    replace (j - attempts)%nat with (S (j - S attempts)) by lia.
    unfold laterSchedule. cbn [seq map concat]. by rewrite <- !app_assoc.
Qed.

Lemma requestLoop_stats endpoint payload timeoutMs net maxAttempts fuel :
  ∀ attempts st trace,
    let st' := (requestLoop fuel endpoint payload timeoutMs net maxAttempts
                            attempts st trace).1.1 in
    leStats st st' ∧
    requests st' - requests st =
      (successful st' - successful st) + (failed st' - failed st).
Proof.
  unfold leStats. induction fuel as [|fuel IH]; intros attempts st trace; cbn [requestLoop].
  - simpl. lia.
  - destruct (attempts <? maxAttempts)%nat; [|simpl; lia].
    destruct (_makeHttpRequest timeoutMs (net attempts)) as [response|err].
    + destruct st. repeat case_match; simpl; lia.
    + destruct (maxAttempts <=? S attempts)%nat.
      * destruct st; simpl; lia.
      * specialize (IH (S attempts) (bumpFailed (bumpRequests st))
                      ((trace ++ [EvHttp endpoint payload])
                             ++ [EvDelay (1000 * Z.of_nat (S attempts))])).
        destruct st; simpl in *. lia.
Qed.

Lemma attemptsOf_schedule endpoint payload n :
  attemptsOf (retrySchedule endpoint payload n) = n.
Proof.
  destruct n as [|m]; [done|]. unfold attemptsOf, retrySchedule. simpl. f_equal.
  generalize 1%nat. induction m as [|m IH]; intros a; [done|].
  simpl. f_equal. apply IH.
Qed.

Lemma delaysOf_schedule endpoint payload n :
  delaysOf (retrySchedule endpoint payload (S n)) =
  map (λ k, 1000 * Z.of_nat k) (seq 1 n).
Proof.
  unfold delaysOf, retrySchedule. simpl.
  generalize 1%nat. induction n as [|n IH]; intros a; [done|].
  simpl. f_equal. apply IH.
Qed.

Lemma onEnd_undecrypted status hdrs body (o : object) (ciphertext : string) :
  JSON_parse body = Some (VObj o) →
  get o "data" = VStr ciphertext →
  truthy (Decryption.decryptRSAResponse ciphertext Decryption.maxDecryptBlock) = false →
  Decryption.decryptAESString ciphertext Decryption.encryptionKey = None →
  onEnd status hdrs body =
    mkResponse status hdrs (VStr ciphertext) (VObj o) (get o "_decryptionMethod") VUndef.
Proof.
  intros Hparse Hdata Hrsa Haes. unfold onEnd. rewrite Hparse. cbn [orThrow mbind outcome_bind].
  assert (Decryption.processApiResponse (VObj o) = Return (VObj o)) as ->.
  { unfold Decryption.processApiResponse. rewrite Hdata, Hrsa, Haes. by destruct (negb _). }
  cbn [mbind outcome_bind prop]. by rewrite Hdata.
Qed.

(** C6.  An authenticated request whose every attempt fails in the transport
    makes exactly [maxAttempts] attempts ([3] with auto-retry, [1] without),
    waits [1000 ms × k] after the [k]-th failed attempt, and throws the error
    of the last attempt.  As soon as the transport delivers a reply the
    response is returned without a further attempt, and a reply whose
    ciphertext cannot be decrypted is returned with that ciphertext. *)
Theorem request_retry_policy (c : Client) (now : Z) (endpoint : string)
    (params : object) (optionsTimeout : option Z) (net : nat → transport) :
  isTokenValid now (auth c) = true →
  let maxAttempts := if autoRetry (config c) then 3%nat else 1%nat in
  let payload := Signature.prepareSignedPayload now params (apiKey (config c))
                                                (apiSecret (config c)) in
  let timeoutMs := effectiveTimeout optionsTimeout (config c) in
  ((∀ k, (k < maxAttempts)%nat → isFailure (net k) = true) →
   ∃ c', request c now endpoint params optionsTimeout net =
           (c', retrySchedule endpoint payload maxAttempts,
            Throw (rejection timeoutMs (net (maxAttempts - 1)%nat))) ∧
         attemptsOf (retrySchedule endpoint payload maxAttempts) = maxAttempts ∧
         delaysOf (retrySchedule endpoint payload maxAttempts) =
           map (λ k, 1000 * Z.of_nat k) (seq 1 (maxAttempts - 1))) ∧
  (∀ j status hdrs body,
     (j < maxAttempts)%nat →
     (∀ k, (k < j)%nat → isFailure (net k) = true) →
     net j = NetReply status hdrs body →
     ∃ c', request c now endpoint params optionsTimeout net =
             (c', retrySchedule endpoint payload (S j),
              Return (Some (onEnd status hdrs body)))) ∧
  (∀ status hdrs body (o : object) (ciphertext : string),
     JSON_parse body = Some (VObj o) →
     get o "data" = VStr ciphertext →
     truthy (Decryption.decryptRSAResponse ciphertext Decryption.maxDecryptBlock) = false →
     Decryption.decryptAESString ciphertext Decryption.encryptionKey = None →
     onEnd status hdrs body =
       mkResponse status hdrs (VStr ciphertext) (VObj o) (get o "_decryptionMethod") VUndef).
Proof.
  intros Hauth maxAttempts payload timeoutMs.
  assert (∃ m, maxAttempts = S m) as [m Hm].
  { unfold maxAttempts. destruct (autoRetry (config c)); eauto. }
  split; [|split].
  - intros Hfail. unfold request. rewrite Hauth. cbn [negb].
    fold maxAttempts payload timeoutMs. rewrite Hm.
    rewrite (requestLoop_all_fail endpoint payload timeoutMs net (S m) m 0 (stats c) []);
      [|lia|intros k Hk; apply Hfail; lia].
    eexists. split; [reflexivity|]. split.
    + apply attemptsOf_schedule.
    + rewrite delaysOf_schedule. by replace (S m - 1)%nat with m by lia.
  - intros j status hdrs body Hj Hfail Hreply. unfold request. rewrite Hauth. cbn [negb].
    fold maxAttempts payload timeoutMs.
    destruct (requestLoop_first_reply endpoint payload timeoutMs net maxAttempts j
                status hdrs body maxAttempts 0 (stats c) [])
      as [st' Hst']; [lia|lia|intros k Hk; apply Hfail; lia|done|].
    rewrite Hst'. eexists. unfold retrySchedule, laterSchedule.
    by replace (j - 0)%nat with j by lia.
  - apply onEnd_undecrypted.
Qed.

(** The arithmetic of the counters after one stretch of a call. *)
Ltac counters := split; [repeat split; lia|intros _; repeat split; lia].

Lemma underWay_snoc (c : Client) (cs : list Overlap.progress) (p : Overlap.progress) :
  Overlap.underWay (Overlap.mkSystem c (cs ++ [p])) =
  (Overlap.underWay (Overlap.mkSystem c cs)
   + (if Overlap.awaitsResponse p then 1 else 0))%nat.
Proof.
  unfold Overlap.underWay. cbn [Overlap.calls].
  rewrite List.filter_app, length_app. cbn [List.filter].
  by destruct (Overlap.awaitsResponse p).
Qed.

Lemma underWay_insert (c c' : Client) (cs : list Overlap.progress) (i : nat)
    (old new : Overlap.progress) :
  cs !! i = Some old →
  (Overlap.underWay (Overlap.mkSystem c' (<[i := new]> cs))
   + (if Overlap.awaitsResponse old then 1 else 0)
   = Overlap.underWay (Overlap.mkSystem c cs)
     + (if Overlap.awaitsResponse new then 1 else 0))%nat.
Proof.
  unfold Overlap.underWay. cbn [Overlap.calls].
  revert i. induction cs as [|p cs IH]; intros [|i] Hi; try done.
  - injection Hi as ->. clear IH. simpl.
    destruct (Overlap.awaitsResponse old), (Overlap.awaitsResponse new); simpl; lia.
  - simpl in Hi. specialize (IH i Hi). simpl.
    destruct (Overlap.awaitsResponse p); simpl; lia.
Qed.

(** What every state of a client reached without [resetStats()] during an
    HTTP request satisfies. *)
Lemma settled_idle (sys : Overlap.System) :
  Overlap.completed sys = length (Overlap.calls sys) → Overlap.underWay sys = 0%nat.
Proof.
  unfold Overlap.completed, Overlap.underWay. destruct sys as [c cs]. cbn.
  induction cs as [|p cs IH]; [done|]. cbn [List.filter length].
  pose proof (filter_length_le Overlap.isSettled cs) as Hle.
  destruct p as [locals|result]; cbn [Overlap.isSettled Overlap.awaitsResponse length].
  - lia.
  - intros [= Hall]. by apply IH.
Qed.

Lemma step_balance (sys : Overlap.System) (a : Overlap.action) :
  let balanced (sys : Overlap.System) :=
    requests (stats (Overlap.client sys))
      = successful (stats (Overlap.client sys)) + failed (stats (Overlap.client sys))
        + Z.of_nat (Overlap.underWay sys) ∧
    0 ≤ successful (stats (Overlap.client sys)) ∧
    0 ≤ failed (stats (Overlap.client sys)) ∧
    0 ≤ encrypted (stats (Overlap.client sys)) in
  balanced sys →
  (a = Overlap.ResetStats → Overlap.underWay sys = 0%nat) →
  balanced (Overlap.step sys a) ∧
  (a ≠ Overlap.ResetStats →
   leStats (stats (Overlap.client sys)) (stats (Overlap.client (Overlap.step sys a)))).
Proof.
  cbv zeta. destruct sys as [c cs]. unfold leStats.
  intros (Hbal & Hs & Hf & He) Hidle.
  destruct a as [now endpoint params optionsTimeout|i net|i| |auth'];
    cbn [Overlap.step Overlap.client Overlap.calls] in *;
    [clear Hidle|clear Hidle|clear Hidle|specialize (Hidle eq_refl)|clear Hidle].
  - unfold Overlap.begin, Overlap.attempt.
    destruct (negb (isTokenValid now (auth c))).
    + rewrite underWay_snoc. unfold Overlap.underWay in *. cbn in *. counters.
    + cbn [Overlap.attempts Overlap.maxAttempts].
      destruct (autoRetry (config c)); cbn [Nat.ltb Nat.leb];
        rewrite underWay_snoc; unfold Overlap.underWay in *; cbn in *; counters.
  - destruct (cs !! i) as [[locals|result]|] eqn:Hi;
      cbn [Overlap.client Overlap.calls]; [|counters..].
    destruct (Overlap.awaits locals) eqn:Haw;
      cbn [Overlap.client Overlap.calls]; [|counters].
    unfold Overlap.respond.
    destruct (_makeHttpRequest (Overlap.timeoutMs locals) net) as [response|err].
    + pose proof (underWay_insert c
                    (Overlap.withStats c
                       (if truthy (_decryptionMethod response)
                        then bumpEncrypted
                               (if (200 <=? statusCode response)
                                   && (statusCode response <? 300)
                                then bumpSuccessful (stats c) else bumpFailed (stats c))
                        else if (200 <=? statusCode response)
                                && (statusCode response <? 300)
                             then bumpSuccessful (stats c) else bumpFailed (stats c)))
                    cs i _ (Overlap.Settled (Return (Some response))) Hi) as Hcount.
      cbn [Overlap.awaitsResponse] in Hcount. rewrite Haw in Hcount.
      cbn [Overlap.client Overlap.calls].
      destruct (truthy (_decryptionMethod response)),
               ((200 <=? statusCode response) && (statusCode response <? 300));
        cbn in *; counters.
    + destruct (Overlap.maxAttempts locals <=? S (Overlap.attempts locals))%nat.
      * pose proof (underWay_insert c (Overlap.withStats c (bumpFailed (stats c)))
                      cs i _ (Overlap.Settled (Throw err)) Hi) as Hcount.
        cbn [Overlap.awaitsResponse] in Hcount. rewrite Haw in Hcount.
        cbn in *. counters.
      * pose proof (underWay_insert c (Overlap.withStats c (bumpFailed (stats c)))
                      cs i _
                      (Overlap.Pending
                         (Overlap.mkSuspended (Overlap.endpoint locals)
                            (Overlap.payload locals) (Overlap.timeoutMs locals)
                            (S (Overlap.attempts locals)) (Overlap.maxAttempts locals)
                            Overlap.AwaitingDelay)) Hi) as Hcount.
        cbn [Overlap.awaitsResponse Overlap.awaits] in Hcount. rewrite Haw in Hcount.
        cbn in *. counters.
  - destruct (cs !! i) as [[locals|result]|] eqn:Hi;
      cbn [Overlap.client Overlap.calls]; [|counters..].
    destruct (Overlap.awaits locals) eqn:Haw;
      cbn [Overlap.client Overlap.calls]; [counters|].
    unfold Overlap.attempt.
    destruct (Overlap.attempts locals <? Overlap.maxAttempts locals)%nat.
    + pose proof (underWay_insert c (Overlap.withStats c (bumpRequests (stats c)))
                    cs i _
                    (Overlap.Pending
                       (Overlap.mkSuspended (Overlap.endpoint locals)
                          (Overlap.payload locals) (Overlap.timeoutMs locals)
                          (Overlap.attempts locals) (Overlap.maxAttempts locals)
                          Overlap.AwaitingResponse)) Hi) as Hcount.
      cbn [Overlap.awaitsResponse Overlap.awaits] in Hcount. rewrite Haw in Hcount.
      cbn in *. counters.
    + pose proof (underWay_insert c c cs i _ (Overlap.Settled (Return None)) Hi)
        as Hcount.
      cbn [Overlap.awaitsResponse] in Hcount. rewrite Haw in Hcount.
      cbn in *. counters.
  - split; [|done].
    unfold Overlap.underWay in *. cbn in *. rewrite Hidle. repeat split; lia.
  - unfold Overlap.underWay in *. cbn in *. counters.
Qed.

(** C9.  On a freshly constructed client, however calls of [request]
    overlap, as long as [resetStats()] is not called during an HTTP request:
    [requests = successful + failed + the number of HTTP requests under way],
    so that [requests = successful + failed] whenever no HTTP request is
    under way, in particular when every call begun so far has completed,
    resolved or thrown (a call completes and no other call is in flight);
    no counter is negative; no stretch of a call lowers a counter; and
    [resetStats] sets all four back to zero. *)
Theorem stats_invariant (cfg : Config) (actions : list Overlap.action) :
  Overlap.resetsApart (Overlap.start cfg) actions = true →
  let sys := Overlap.run (Overlap.start cfg) actions in
  let st := stats (Overlap.client sys) in
  requests st = successful st + failed st + Z.of_nat (Overlap.underWay sys) ∧
  (Overlap.underWay sys = 0%nat → requests st = successful st + failed st) ∧
  (Overlap.completed sys = length (Overlap.calls sys) →
   requests st = successful st + failed st) ∧
  (0 ≤ requests st ∧ 0 ≤ successful st ∧ 0 ≤ failed st ∧ 0 ≤ encrypted st) ∧
  (∀ a, a ≠ Overlap.ResetStats →
        leStats st (stats (Overlap.client (Overlap.step sys a)))) ∧
  stats (Overlap.client (Overlap.step sys Overlap.ResetStats)) = zeroStats.
Proof.
  intros Hresets. cbv zeta.
  assert (∀ acts sys,
            (requests (stats (Overlap.client sys))
               = successful (stats (Overlap.client sys))
                 + failed (stats (Overlap.client sys))
                 + Z.of_nat (Overlap.underWay sys) ∧
             0 ≤ successful (stats (Overlap.client sys)) ∧
             0 ≤ failed (stats (Overlap.client sys)) ∧
             0 ≤ encrypted (stats (Overlap.client sys))) →
            Overlap.resetsApart sys acts = true →
            requests (stats (Overlap.client (Overlap.run sys acts)))
              = successful (stats (Overlap.client (Overlap.run sys acts)))
                + failed (stats (Overlap.client (Overlap.run sys acts)))
                + Z.of_nat (Overlap.underWay (Overlap.run sys acts)) ∧
            0 ≤ successful (stats (Overlap.client (Overlap.run sys acts))) ∧
            0 ≤ failed (stats (Overlap.client (Overlap.run sys acts))) ∧
            0 ≤ encrypted (stats (Overlap.client (Overlap.run sys acts)))) as Hrun.
  { induction acts as [|a acts IH]; intros sys Hbal Hok; [done|].
    cbn [Overlap.resetsApart] in Hok. apply andb_prop in Hok as [Hidle Hok].
    cbn [Overlap.run foldl]. apply IH; [|done].
    apply (step_balance sys a Hbal). intros ->. by apply Nat.eqb_eq. }
  destruct (Hrun actions (Overlap.start cfg)) as (Hbal & Hs & Hf & He); [by cbn|done|].
  split; [exact Hbal|]. split; [intros Hidle; rewrite Hidle in Hbal; lia|].
  split.
  { intros Hall. rewrite (settled_idle _ Hall) in Hbal. lia. }
  split; [lia|]. split; [|done].
  intros a Ha.
  destruct (step_balance (Overlap.run (Overlap.start cfg) actions) a) as [_ Hle];
    [by repeat split|by intros ->|by apply Hle].
Qed.

Lemma requestLoop_never_undefined endpoint payload timeoutMs net maxAttempts fuel :
  ∀ attempts st trace,
    (attempts + S fuel = maxAttempts)%nat →
    (requestLoop (S fuel) endpoint payload timeoutMs net maxAttempts attempts
                 st trace).2 ≠ Return None.
Proof.
  induction fuel as [|fuel IH]; intros attempts st trace Hsum.
  - cbn [requestLoop]. destruct (Nat.ltb_spec attempts maxAttempts); [|lia].
    destruct (_makeHttpRequest timeoutMs (net attempts)); [done|].
    by destruct (Nat.leb_spec maxAttempts (S attempts)); [|lia].
  - remember (S fuel) as fuel1. cbn [requestLoop].
    destruct (Nat.ltb_spec attempts maxAttempts); [|lia].
    destruct (_makeHttpRequest timeoutMs (net attempts)); [done|].
    destruct (Nat.leb_spec maxAttempts (S attempts)); [done|].
    subst fuel1. apply IH. lia.
Qed.

End DispatcherFacts.

Lemma request_retry_policy_witness :
  let P := Decryption.failing_platform in
  let c := Client.mkClient (Client.mkConfig (JS.VStr "key") "secret" true 30000)
                           (Client.mkAuth (JS.VStr "jwt") (Some 1700086400000) true)
                           Client.zeroStats in
  let net : nat → Client.transport := λ k,
    if (k =? 2)%nat then Client.NetError "socket hang up" else Client.NetTimeout in
  Client.isTokenValid 1700000000000 (Client.auth c) = true ∧
  (∀ k, (k < 3)%nat → Client.isFailure (net k) = true) ∧
  ∃ c' payload,
    @Client.request P c 1700000000000 "/api/wallet/balance" [] None net =
      (c', Client.retrySchedule "/api/wallet/balance" payload 3,
       Throw "Request failed: socket hang up") ∧
    Client.delaysOf (Client.retrySchedule "/api/wallet/balance" payload 3) = [1000; 2000].
Proof.
  intros P c net.
  assert (Client.isTokenValid 1700000000000 (Client.auth c) = true) as Hauth by reflexivity.
  assert (∀ k, (k < 3)%nat → Client.isFailure (net k) = true) as Hfail.
  { intros k Hk. unfold net. by destruct (k =? 2)%nat. }
  split; [exact Hauth|]. split; [exact Hfail|].
  destruct (proj1 (@request_retry_policy P c 1700000000000 "/api/wallet/balance" [] None
                     net Hauth) Hfail) as (c' & Hreq & _ & Hdelays).
  exists c'. eexists. split; [exact Hreq|exact Hdelays].
Defined.

Lemma stats_invariant_witness :
  let P := Decryption.failing_platform in
  let cfg := Client.mkConfig (JS.VStr "key") "secret" true 30000 in
  let session := Client.mkAuth (JS.VStr "jwt") (Some 1700086400000) true in
  let actions :=
    [Overlap.SetAuth session;
     Overlap.Begin 1700000000000 "/api/income/team/dataNew" [] None;
     Overlap.Begin 1700000000000 "/api/income/data" [("days", JS.VNum 7)] None;
     Overlap.Respond 0 (Client.NetReply 200 JS.VUndef "{}");
     Overlap.Respond 1 Client.NetTimeout;
     Overlap.Elapse 1;
     Overlap.Respond 1 (Client.NetReply 500 JS.VUndef "Internal Server Error");
     Overlap.ResetStats;
     Overlap.Begin 1700000060000 "/api/income/data" [("days", JS.VNum 30)] None] in
  let sys := @Overlap.run P (Overlap.start cfg) actions in
  @Overlap.resetsApart P (Overlap.start cfg) actions = true ∧
  Overlap.underWay sys = 1%nat ∧
  Client.requests (Client.stats (Overlap.client sys))
    = Client.successful (Client.stats (Overlap.client sys))
      + Client.failed (Client.stats (Overlap.client sys)) + 1.
Proof.
  intros P cfg session actions sys.
  assert (@Overlap.resetsApart P (Overlap.start cfg) actions = true) as Hresets
    by (vm_compute; reflexivity).
  assert (Overlap.underWay sys = 1%nat) as Hone by (vm_compute; reflexivity).
  split; [exact Hresets|]. split; [exact Hone|].
  pose proof (proj1 (@stats_invariant P cfg actions Hresets)) as Hbalance.
  fold sys in Hbalance. rewrite Hone in Hbalance. exact Hbalance.
Defined.

(** Calls that overlap break [requests = successful + failed] at the moment
    one of them completes.  [getIncomeAnalytics] starts four requests under
    [Promise.all]: each runs up to its [await], so [requests] is 4 before any
    response arrives, and when the first call has returned the counters read
    4, 1 and 0. *)
Lemma stats_overlapping_calls :
  let P := Decryption.failing_platform in
  let cfg := Client.mkConfig (JS.VStr "key") "secret" true 30000 in
  let session := Client.mkAuth (JS.VStr "jwt") (Some 1700086400000) true in
  let sys :=
    @Overlap.run P (Overlap.start cfg)
      [Overlap.SetAuth session;
       Overlap.Begin 1700000000000 "/api/income/team/dataNew" [] None;
       Overlap.Begin 1700000000000 "/api/income/data" [("days", JS.VNum 1)] None;
       Overlap.Begin 1700000000000 "/api/income/data" [("days", JS.VNum 7)] None;
       Overlap.Begin 1700000000000 "/api/income/data" [("days", JS.VNum 30)] None;
       Overlap.Respond 0 (Client.NetReply 200 JS.VUndef "{}")] in
  Overlap.completed sys = 1%nat ∧
  (∃ response, Overlap.calls sys !! 0%nat
               = Some (Overlap.Settled (Return (Some response)))) ∧
  Client.stats (Overlap.client sys) = Client.mkStats 4 1 0 0 ∧
  Client.requests (Client.stats (Overlap.client sys))
    ≠ Client.successful (Client.stats (Overlap.client sys))
      + Client.failed (Client.stats (Overlap.client sys)).
Proof.
  intros P cfg session sys.
  split; [by vm_compute|]. split; [by vm_compute; eexists|].
  split; [by vm_compute|]. by vm_compute.
Qed.

Example request_retry_run :
  let c := Client.mkClient (Client.mkConfig (JS.VStr "key") "secret" true 30000)
                           (Client.mkAuth (JS.VStr "jwt") (Some 1700086400000) true)
                           Client.zeroStats in
  let run := @Client.request Decryption.failing_platform c 1700000000000
               "/api/wallet/balance" [] None (λ _, Client.NetTimeout) in
  Client.stats run.1.1 = Client.mkStats 3 0 3 0 ∧
  Client.attemptsOf run.1.2 = 3%nat ∧
  Client.delaysOf run.1.2 = [1000; 2000] ∧
  run.2 = Throw "Request timeout after 30000ms".
Proof. by vm_compute. Qed.


(** ** The scheduler *)

Section SchedulerFacts.
Import JS Quantify.

Lemma invoke_quiet {A : Type} (cb : option (A → effect)) (x : A) ev st :
  (∀ f, cb = Some f → stops (f x) = false ∧ throws (f x) = None) →
  ∃ st', invoke cb x ev st = (st', Return tt) ∧
         results st' = results st ∧ isRunning st' = isRunning st.
Proof.
  intros Hcb. unfold invoke. destruct cb as [f|]; [|eauto].
  destruct (Hcb f eq_refl) as [-> ->]. eexists. split; [done|].
  simpl. by rewrite andb_true_r.
Qed.

Lemma iteration_quiet (s : Schedule) (w : World) i st :
  neverStopped s w → callbacksReturn s →
  ∃ st',
    match tryBody s w i st with
    | (st, Throw message) => catchBody s w i message st
    | (st, Return _) => (st, Return tt)
    end = (st', Return tt) ∧
    results st' = results st ++ [recordOf w i (length (results st))] ∧
    isRunning st' = isRunning st.
Proof.
  intros (Hext & HsS & HsE) (HtS & HtE). unfold tryBody, catchBody, recordOf.
  destruct (Hext i) as [-> _].
  destruct (execute w i) as [r|message].
  - edestruct (invoke_quiet (onSuccess s)) as (st' & -> & Hres & Hrun); [by eauto|].
    exists st'. split; [done|]. rewrite Hres, Hrun. simpl. by rewrite andb_true_r.
  - edestruct (invoke_quiet (onError s)) as (st' & -> & Hres & Hrun); [by eauto|].
    exists st'. split; [done|]. rewrite Hres, Hrun. simpl. by rewrite andb_true_r.
Qed.

Lemma loop_quiet (s : Schedule) (w : World) :
  neverStopped s w → callbacksReturn s →
  ∀ fuel i st,
    (i + fuel = S (iterations s))%nat → isRunning st = true →
    ∃ st', loop fuel s w i st = (st', Return tt) ∧
           results st' = results st ++ recordsFrom w i (length (results st)) fuel.
Proof.
  intros Hstop Hret. induction fuel as [|fuel IH]; intros i st Hsum Hrun.
  - exists st. simpl. by rewrite app_nil_r.
  - cbn [loop]. destruct (Nat.leb_spec i (iterations s)); [|lia]. rewrite Hrun. cbn [andb].
    destruct (iteration_quiet s w i (setIteration i st) Hstop Hret)
      as (st1 & -> & Hres1 & Hrun1).
    cbn [setIteration results isRunning] in Hres1, Hrun1.
    set (st2 := if (i <? iterations s)%nat && isRunning st1 then _ else st1).
    assert (results st2 = results st1 ∧ isRunning st2 = true) as [Hres2 Hrun2].
    { unfold st2. destruct ((i <? iterations s)%nat && isRunning st1); [|by rewrite Hrun1].
      simpl. destruct Hstop as (Hext & _). destruct (Hext i) as [_ ->].
      by rewrite andb_true_r, Hrun1. }
    destruct (IH (S i) st2) as (st' & -> & Hres'); [lia|done|].
    exists st'. split; [done|].
    rewrite Hres', Hres2, Hres1, length_app, <- app_assoc. simpl.
    by replace (length (results st) + 1)%nat with (S (length (results st))) by lia.
Qed.

Lemma loop_unfold fuel (s : Schedule) (w : World) i st :
  loop (S fuel) s w i st =
  if (i <=? iterations s)%nat && isRunning st then
    let '(st1, r) :=
      match tryBody s w i (setIteration i st) with
      | (st, Throw message) => catchBody s w i message st
      | (st, Return _) => (st, Return tt)
      end in
    match r with
    | Throw message => (st1, Throw message)
    | Return _ =>
        loop fuel s w (S i)
             (if (i <? iterations s)%nat && isRunning st1 then
                stopIf (stopDuringDelay w i)
                       (emit (EvDelay (intervalMinutes s * 60 * 1000)) st1)
              else st1)
    end
  else (st, Return tt).
Proof. reflexivity. Qed.

(** The loop leaves by its own condition, not for lack of fuel: past
    [iterations s + 1 - i] steps, more fuel changes nothing. *)
Lemma loop_fuel_enough (s : Schedule) (w : World) fuel :
  ∀ i st, (S (iterations s) ≤ i + fuel)%nat →
          loop (S fuel) s w i st = loop fuel s w i st.
Proof.
  induction fuel as [|fuel IH]; intros i st Hle.
  - rewrite loop_unfold. by destruct (Nat.leb_spec i (iterations s)); [lia|].
  - rewrite (loop_unfold (S fuel)), (loop_unfold fuel).
    destruct ((i <=? iterations s)%nat && isRunning st); [|done].
    destruct (match tryBody s w i (setIteration i st) with
              | (st0, Throw message) => catchBody s w i message st0
              | (st0, Return _) => (st0, Return tt)
              end) as [st1 [[]|message]]; [|done].
    apply IH. lia.
Qed.

Lemma results_run (s : Schedule) (w : World) :
  results (scheduleExecutions s w) = results (loop (iterations s) s w 1 initial).1.
Proof.
  unfold scheduleExecutions. destruct (loop _ _ _ _ _) as [st [[]|message]]; [|done].
  unfold invoke. destruct (onComplete s) as [f|]; [|done].
  simpl. by destruct (throws _).
Qed.

Lemma iteration_recordsFrom w i k n :
  map iteration (recordsFrom w i k n) = seq i n.
Proof.
  revert i k. induction n as [|n IH]; intros i k; [done|].
  simpl. rewrite IH. f_equal. unfold recordOf. by destruct (execute w i).
Qed.

Lemma success_recordsFrom w i k n :
  map success (recordsFrom w i k n) = map (λ j, returns (execute w j)) (seq i n).
Proof.
  revert i k. induction n as [|n IH]; intros i k; [done|].
  simpl. rewrite IH. f_equal. unfold recordOf. by destruct (execute w i).
Qed.

(** C7, as the code has it.  In a run that nobody stops and whose success
    and error callbacks return normally, a failed iteration does not abort the
    loop: iterations [1..iterations] each append exactly one result, in
    order, marked successful exactly when the remote call returned.  With
    three iterations of which only the second fails, three results are
    recorded and [getExecutionStats] counts one failure. *)
Theorem schedule_records_every_iteration (s : Schedule) (w : World) :
  neverStopped s w → callbacksReturn s →
  map iteration (results (scheduleExecutions s w)) = seq 1 (iterations s) ∧
  map success (results (scheduleExecutions s w)) =
    map (λ i, returns (execute w i)) (seq 1 (iterations s)) ∧
  length (results (scheduleExecutions s w)) = iterations s ∧
  (iterations s = 3%nat → intervalMinutes s = 0 →
   returns (execute w 1) = true → returns (execute w 2) = false →
   returns (execute w 3) = true →
   length (results (scheduleExecutions s w)) = 3%nat ∧
   failed (getExecutionStats (Some (results (scheduleExecutions s w)))) = 1).
Proof.
  intros Hstop Hret. rewrite results_run.
  destruct (loop_quiet s w Hstop Hret (iterations s) 1 initial) as (st' & Hloop & Hres);
    [lia|done|].
  rewrite Hloop. cbn [fst]. rewrite Hres. cbn [initial results app length].
  split; [apply iteration_recordsFrom|]. split; [apply success_recordsFrom|].
  assert (∀ i k n, length (recordsFrom w i k n) = n) as Hlen.
  { intros i k n. revert i k. induction n as [|n IH]; intros i k; simpl; [done|].
    by rewrite IH. }
  split; [apply Hlen|].
  intros Hn _ H1 H2 H3. rewrite Hn. split; [apply Hlen|].
  cbn [recordsFrom]. unfold recordOf.
  destruct (execute w 1), (execute w 2), (execute w 3); try done.
Qed.

Lemma schedule_records_every_iteration_witness :
  let w := mkWorld (λ i, if (i =? 2)%nat then Throw "Request failed: socket hang up"
                         else Return (VObj [("hasTip", VBool true)]))
                   (λ k, 1700000000000 + Z.of_nat k) (λ _, false) (λ _, false) in
  let s := mkSchedule 3 0 (Some (λ _, quiet)) None None in
  neverStopped s w ∧ callbacksReturn s ∧
  length (results (scheduleExecutions s w)) = 3%nat ∧
  failed (getExecutionStats (Some (results (scheduleExecutions s w)))) = 1.
Proof.
  intros w s.
  assert (neverStopped s w) as Hstop.
  { split; [done|]. split; intros f r Hf; [|done]. injection Hf as <-. reflexivity. }
  assert (callbacksReturn s) as Hret.
  { split; intros f r Hf; [|done]. injection Hf as <-. reflexivity. }
  split; [exact Hstop|]. split; [exact Hret|].
  exact (proj2 (proj2 (proj2 (schedule_records_every_iteration s w Hstop Hret)))
               eq_refl eq_refl eq_refl eq_refl eq_refl).
Defined.

(** A run that nobody stops can still record an iteration twice, or stop
    early, when a callback throws: a throwing [onSuccess] lands in the inner
    [catch], which records the same iteration again as a failure, and a
    throwing [onError] escapes the loop. *)
Lemma schedule_throwing_callback :
  let ok := mkWorld (λ _, Return (VStr "ok")) (λ k, Z.of_nat k) (λ _, false) (λ _, false) in
  let ko := mkWorld (λ _, Throw "down") (λ k, Z.of_nat k) (λ _, false) (λ _, false) in
  let s1 := mkSchedule 1 0 (Some (λ _, mkEffect false (Some "boom"))) None None in
  let s3 := mkSchedule 3 0 None (Some (λ _, mkEffect false (Some "boom"))) None in
  (neverStopped s1 ok ∧
   map iteration (results (scheduleExecutions s1 ok)) = [1%nat; 1%nat] ∧
   map success (results (scheduleExecutions s1 ok)) = [true; false]) ∧
  (neverStopped s3 ko ∧
   map iteration (results (scheduleExecutions s3 ko)) = [1%nat]).
Proof.
  intros ok ko s1 s3. split; split; try done.
  - split; [done|]. split; intros f r Hf; [|done]. injection Hf as <-. reflexivity.
  - split; [done|]. split; intros f r Hf; [done|]. injection Hf as <-. reflexivity.
Qed.

(** C8.  On an empty or missing result list [getExecutionStats] answers
    with the five zero statistics and nothing else. *)
Theorem getExecutionStats_empty :
  getExecutionStats (Some []) = mkExecutionStats 0 0 0 0 0 None None ∧
  getExecutionStats None = mkExecutionStats 0 0 0 0 0 None None.
Proof. split; reflexivity. Qed.

Lemma getExecutionStats_counts (rs : list ExecutionResult) :
  let st := getExecutionStats (Some rs) in
  total st = Z.of_nat (length rs) ∧ total st = successful st + failed st ∧
  0 ≤ successful st ∧ 0 ≤ failed st.
Proof.
  destruct rs as [|r rs]; [done|]. cbv zeta. unfold getExecutionStats.
  cbn [total successful failed].
  pose proof (filter_length_le success (r :: rs)). lia.
Qed.

End SchedulerFacts.


(** ** Copies handed out by the accessors *)

Section HeapFacts.
Import Heap.

Lemma alloc_fresh (h : gmap loc cell) c l :
  is_Some (h !! l) → (alloc h c).2 ≠ l.
Proof.
  intros Hl Heq. unfold alloc in Heq. simpl in Heq.
  apply elem_of_dom in Hl. rewrite <- Heq in Hl. by apply is_fresh in Hl.
Qed.

Lemma alloc_lookup_new (h : gmap loc cell) c :
  (alloc h c).1 !! (alloc h c).2 = Some c.
Proof. unfold alloc. simpl. apply lookup_insert_eq. Qed.

Lemma alloc_lookup_old (h : gmap loc cell) c l :
  is_Some (h !! l) → (alloc h c).1 !! l = h !! l.
Proof.
  intros Hl. pose proof (alloc_fresh h c l Hl) as Hne.
  unfold alloc in *. simpl in *. by rewrite lookup_insert_ne.
Qed.

Lemma mutate_all_other (copy l : loc) (ms : list mutation) (h : gmap loc cell) :
  copy ≠ l → foldl (mutate copy) h ms !! l = h !! l.
Proof.
  intros Hne. revert h. induction ms as [|m ms IH]; intros h; [done|].
  simpl. rewrite IH. unfold mutate. by rewrite lookup_alter_ne.
Qed.

Lemma mutate_all_dom (copy : loc) (ms : list mutation) (h : gmap loc cell) :
  dom (foldl (mutate copy) h ms) = dom h.
Proof.
  revert h. induction ms as [|m ms IH]; intros h; [done|].
  simpl. rewrite IH. unfold mutate. apply dom_alter_L.
Qed.

(** The frame property shared by both accessors: whatever is done to a
    freshly allocated copy, every object that existed before keeps its
    contents, and a second copy taken afterwards equals the first as it was
    handed out. *)
Lemma copy_frame (h : gmap loc cell) (src : loc) (f : option cell → cell)
    (ms : list mutation) :
  is_Some (h !! src) →
  let h1 := (alloc h (f (h !! src))).1 in
  let copy := (alloc h (f (h !! src))).2 in
  let h2 := foldl (mutate copy) h1 ms in
  copy ≠ src ∧ h !! copy = None ∧ h1 !! copy = Some (f (h !! src)) ∧
  (∀ l, is_Some (h !! l) → h2 !! l = h !! l) ∧
  (alloc h2 (f (h2 !! src))).1 !! (alloc h2 (f (h2 !! src))).2 = Some (f (h !! src)) ∧
  (alloc h2 (f (h2 !! src))).2 ≠ copy.
Proof.
  intros Hsrc h1 copy h2.
  assert (copy ≠ src) as Hne by (by apply alloc_fresh).
  assert (∀ l, is_Some (h !! l) → h2 !! l = h !! l) as Hframe.
  { intros l Hl. unfold h2. rewrite mutate_all_other; [by apply alloc_lookup_old|].
    by apply alloc_fresh. }
  split; [done|]. split; [|split; [apply alloc_lookup_new|split; [done|split]]].
  - apply not_elem_of_dom. apply is_fresh.
  - rewrite alloc_lookup_new. by rewrite (Hframe src Hsrc).
  - apply alloc_fresh. unfold h2.
    apply elem_of_dom. rewrite mutate_all_dom. apply elem_of_dom.
    unfold h1, copy. rewrite alloc_lookup_new. eauto.
Qed.

(** C10.  [getStats] and the scheduler's [getResults] hand out a fresh
    object: a new location holding the very properties of the statistics
    object, or the very elements of the results array.  Whatever entries the
    caller then adds to, removes from or overwrites in the copy, the client's
    statistics object, the scheduler's results array and every other existing
    object keep their contents, and a later [getStats] or [getResults] hands
    out, at yet another location, the original properties or elements. *)
Theorem accessors_return_fresh_copies (h : gmap loc cell) (src : loc)
    (ms : list mutation) :
  (∀ props, h !! src = Some (Obj props) →
     let h1 := (getStats h src).1 in
     let copy := (getStats h src).2 in
     let h2 := foldl (mutate copy) h1 ms in
     copy ≠ src ∧ h !! copy = None ∧ h1 !! copy = Some (Obj props) ∧
     h1 !! src = Some (Obj props) ∧
     (∀ l, is_Some (h !! l) → h2 !! l = h !! l) ∧
     h2 !! src = Some (Obj props) ∧
     (getStats h2 src).2 ≠ copy ∧ (getStats h2 src).2 ≠ src ∧
     (getStats h2 src).1 !! (getStats h2 src).2 = Some (Obj props)) ∧
  (∀ elems, h !! src = Some (Arr elems) →
     let h1 := (getResults h src).1 in
     let copy := (getResults h src).2 in
     let h2 := foldl (mutate copy) h1 ms in
     copy ≠ src ∧ h !! copy = None ∧ h1 !! copy = Some (Arr elems) ∧
     h1 !! src = Some (Arr elems) ∧
     (∀ l, is_Some (h !! l) → h2 !! l = h !! l) ∧
     h2 !! src = Some (Arr elems) ∧
     (getResults h2 src).2 ≠ copy ∧ (getResults h2 src).2 ≠ src ∧
     (getResults h2 src).1 !! (getResults h2 src).2 = Some (Arr elems)).
Proof.
  split.
  - intros props Hsrc. cbv zeta.
    assert (is_Some (h !! src)) as Hsome by (rewrite Hsrc; eauto).
    destruct (copy_frame h src spread ms Hsome) as (H1 & H2 & H3 & H4 & H5 & H6).
    unfold getStats. rewrite Hsrc in H1, H2, H3, H4, H5, H6 |- *.
    cbn [spread] in H1, H2, H3, H4, H5, H6 |- *.
    split; [exact H1|]. split; [exact H2|]. split; [exact H3|].
    split; [by rewrite alloc_lookup_old|].
    split; [exact H4|]. split; [by rewrite (H4 src Hsome)|].
    split; [exact H6|]. split; [|exact H5].
    apply alloc_fresh. by rewrite (H4 src Hsome).
  - intros elems Hsrc. cbv zeta.
    assert (is_Some (h !! src)) as Hsome by (rewrite Hsrc; eauto).
    destruct (copy_frame h src spreadArray ms Hsome) as (H1 & H2 & H3 & H4 & H5 & H6).
    unfold getResults. rewrite Hsrc in H1, H2, H3, H4, H5, H6 |- *.
    cbn [spreadArray] in H1, H2, H3, H4, H5, H6 |- *.
    split; [exact H1|]. split; [exact H2|]. split; [exact H3|].
    split; [by rewrite alloc_lookup_old|].
    split; [exact H4|]. split; [by rewrite (H4 src Hsome)|].
    split; [exact H6|]. split; [|exact H5].
    apply alloc_fresh. by rewrite (H4 src Hsome).
Qed.

End HeapFacts.

Lemma accessors_return_fresh_copies_witness :
  let h : gmap Heap.loc Heap.cell :=
    <[2%positive := Heap.Arr [Heap.Ref 3%positive]]>
      (<[1%positive := Heap.statsCell (Client.mkStats 3 2 1 0)]> ∅) in
  let ms := [Heap.SetProp "requests" (Heap.Prim (JS.VNum 999));
             Heap.DeleteProp "failed"; Heap.Pop; Heap.Push (Heap.Prim JS.VNull)] in
  let stats := [("requests", Heap.Prim (JS.VNum 3)); ("successful", Heap.Prim (JS.VNum 2));
                ("failed", Heap.Prim (JS.VNum 1)); ("encrypted", Heap.Prim (JS.VNum 0))] in
  h !! 1%positive = Some (Heap.Obj stats) ∧
  (Heap.getStats (foldl (Heap.mutate (Heap.getStats h 1%positive).2)
                        (Heap.getStats h 1%positive).1 ms) 1%positive).1
    !! (Heap.getStats (foldl (Heap.mutate (Heap.getStats h 1%positive).2)
                             (Heap.getStats h 1%positive).1 ms) 1%positive).2
  = Some (Heap.Obj stats) ∧
  h !! 2%positive = Some (Heap.Arr [Heap.Ref 3%positive]) ∧
  (Heap.getResults (foldl (Heap.mutate (Heap.getResults h 2%positive).2)
                          (Heap.getResults h 2%positive).1 ms) 2%positive).1
    !! (Heap.getResults (foldl (Heap.mutate (Heap.getResults h 2%positive).2)
                               (Heap.getResults h 2%positive).1 ms) 2%positive).2
  = Some (Heap.Arr [Heap.Ref 3%positive]).
Proof.
  intros h ms stats.
  assert (h !! 1%positive = Some (Heap.Obj stats)) as Hstats by (vm_compute; reflexivity).
  assert (h !! 2%positive = Some (Heap.Arr [Heap.Ref 3%positive])) as Hresults
    by (vm_compute; reflexivity).
  split; [exact Hstats|]. split.
  - exact (proj2 (proj2 (proj2 (proj2 (proj2 (proj2 (proj2 (proj2
       (proj1 (accessors_return_fresh_copies h 1%positive ms) stats Hstats))))))))).
  - split; [exact Hresults|].
    exact (proj2 (proj2 (proj2 (proj2 (proj2 (proj2 (proj2 (proj2
       (proj2 (accessors_return_fresh_copies h 2%positive ms)
              [Heap.Ref 3%positive] Hresults))))))))).
Defined.

(** * Further properties of the signer *)

Section SignerMore.
Import JS Signature SignerParts.

Lemma get_delete_eq (o : object) k : get (delete o k) k = VUndef.
Proof.
  induction o as [|[k' v'] o IH]; simpl; [done|].
  destruct (String.eqb_spec k' k) as [->|Hne]; [done|]. simpl.
  by destruct (String.eqb_spec k' k).
Qed.

Lemma get_delete_ne (o : object) k k' : k ≠ k' → get (delete o k') k = get o k.
Proof.
  intros Hne. induction o as [|[k1 v1] o IH]; simpl; [done|].
  destruct (String.eqb_spec k1 k') as [->|Hne1]; simpl.
  - destruct (String.eqb_spec k' k) as [->|_]; [done|]. exact IH.
  - destruct (String.eqb_spec k1 k) as [->|_]; [done|]. exact IH.
Qed.

Lemma get_set_ne (o : object) k k' v : k ≠ k' → get (set o k' v) k = get o k.
Proof.
  intros Hne. induction o as [|[k1 v1] o IH]; simpl.
  - by destruct (String.eqb_spec k' k) as [->|_].
  - destruct (String.eqb_spec k1 k') as [->|Hne1]; simpl.
    + by destruct (String.eqb_spec k' k) as [->|_].
    + destruct (String.eqb_spec k1 k) as [->|_]; [done|]. exact IH.
Qed.

Lemma keys_delete_self (o : object) k : k ∉ keys (delete o k).
Proof.
  unfold keys. induction o as [|[k1 v1] o IH]; simpl; [apply not_elem_of_nil|].
  destruct (String.eqb_spec k1 k) as [->|Hne]; [done|]. simpl.
  apply not_elem_of_cons. split; [done|exact IH].
Qed.

Lemma keys_set (o : object) k v k' :
  k' ∈ keys (set o k v) ↔ k' = k ∨ k' ∈ keys o.
Proof.
  unfold keys. induction o as [|[k1 v1] o IH]; simpl.
  - rewrite elem_of_cons, elem_of_nil. tauto.
  - destruct (String.eqb_spec k1 k) as [->|Hne]; simpl.
    + rewrite !elem_of_cons. tauto.
    + rewrite !elem_of_cons, IH. tauto.
Qed.

Lemma is_blank_stripStep (p : object) key k :
  is_blank (get (stripStep p key) k) = is_blank (get p k).
Proof.
  unfold stripStep. destruct (is_blank (get p key)) eqn:Hb; [|done].
  destruct (decide (k = key)) as [->|Hne].
  - by rewrite get_delete_eq, Hb.
  - by rewrite get_delete_ne.
Qed.

Lemma get_stripFold (ks : list string) (p : object) k :
  get (fold_left stripStep ks p) k =
  if bool_decide (k ∈ ks) && is_blank (get p k) then VUndef else get p k.
Proof.
  revert p. induction ks as [|key ks IH]; intros p; [done|].
  cbn [fold_left]. rewrite IH, is_blank_stripStep.
  destruct (decide (k = key)) as [->|Hne].
  - rewrite (bool_decide_eq_true_2 (key ∈ key :: ks)) by apply list_elem_of_here.
    cbn [andb]. unfold stripStep.
    destruct (is_blank (get p key)) eqn:Hb.
    + rewrite get_delete_eq. by destruct (bool_decide _).
    + by rewrite andb_false_r.
  - assert (bool_decide (k ∈ key :: ks) = bool_decide (k ∈ ks)) as ->.
    { apply bool_decide_ext. rewrite elem_of_cons. tauto. }
    destruct (bool_decide (k ∈ ks) && is_blank (get p k)); [done|].
    unfold stripStep. destruct (is_blank (get p key)); [|done].
    by rewrite get_delete_ne.
Qed.

Lemma keys_stripFold_subset (ks : list string) (p : object) k :
  k ∈ keys (fold_left stripStep ks p) → k ∈ keys p.
Proof.
  revert p. induction ks as [|key ks IH]; intros p; [done|].
  cbn [fold_left]. intros Hk. apply IH in Hk. unfold stripStep in Hk.
  destruct (is_blank (get p key)); [|done].
  destruct (decide (k ∈ keys p)) as [|Hn]; [done|].
  by apply (keys_delete_absent p key) in Hn.
Qed.

Lemma keys_stripFold_not_blank (ks : list string) (p : object) k :
  k ∈ ks → k ∈ keys (fold_left stripStep ks p) → is_blank (get p k) = false.
Proof.
  revert p. induction ks as [|key ks IH]; intros p Hin Hk.
  { by apply elem_of_nil in Hin. }
  cbn [fold_left] in Hk.
  destruct (decide (k = key)) as [->|Hne].
  - apply keys_stripFold_subset in Hk. unfold stripStep in Hk.
    destruct (is_blank (get p key)) eqn:Hb; [|done].
    by apply keys_delete_self in Hk.
  - apply elem_of_cons in Hin as [|Hin]; [done|].
    rewrite <- (is_blank_stripStep p key k). by apply IH.
Qed.

Lemma stripBlank_fold (p : object) : stripBlank p = fold_left stripStep (keys p) p.
Proof. reflexivity. Qed.

Lemma get_stripBlank (p : object) k :
  get (stripBlank p) k = if is_blank (get p k) then VUndef else get p k.
Proof.
  rewrite stripBlank_fold, get_stripFold.
  destruct (decide (k ∈ keys p)) as [Hin|Hnin].
  - by rewrite (bool_decide_eq_true_2 _ Hin).
  - rewrite (bool_decide_eq_false_2 _ Hnin). cbn [andb].
    by rewrite (get_absent p k Hnin).
Qed.

Lemma keys_stripBlank (p : object) k :
  k ∈ keys (stripBlank p) → k ∈ keys p ∧ is_blank (get p k) = false.
Proof.
  rewrite stripBlank_fold. intros Hk.
  pose proof (keys_stripFold_subset _ _ _ Hk) as Hin.
  split; [done|]. by eapply keys_stripFold_not_blank.
Qed.

Lemma prepareSignedPayload_unsigned now customParams apiKey secret :
  prepareSignedPayload now customParams apiKey secret =
  set (unsigned now customParams apiKey) "sign"
      (VStr (calculateSignature (unsigned now customParams apiKey) secret)).
Proof. reflexivity. Qed.

Lemma verifySignature_accepts (payload : object) (secret : string) :
  get payload "sign" = VStr (calculateSignature (delete payload "sign") secret) →
  verifySignature payload secret = true.
Proof.
  intros Hsign. unfold verifySignature. rewrite Hsign. cbn [truthy strict_eq_string].
  destruct (String.eqb_spec (calculateSignature (delete payload "sign") secret) "")
    as [Hempty|_]; [by apply hmac_sha256_hex_nonempty in Hempty|].
  cbn [negb]. apply String.eqb_refl.
Qed.

(** X1.  [verifySignature] answers [true] exactly when the payload's [sign]
    is the string that [calculateSignature] gives for the payload without
    it; a missing, empty or non-string [sign] gives [false]. *)
Theorem verifySignature_iff (payload : object) (secret : string) :
  verifySignature payload secret = true ↔
  get payload "sign" = VStr (calculateSignature (delete payload "sign") secret).
Proof.
  unfold verifySignature.
  destruct (get payload "sign") as [| |b|n|text|s|es|ps] eqn:Hs; cbn [truthy negb];
    try (split; [discriminate|discriminate]).
  - destruct b; split; discriminate.
  - destruct (n =? 0); split; discriminate.
  - destruct (String.eqb text "NaN"); split; discriminate.
  - destruct (String.eqb_spec s "") as [->|Hne]; cbn [negb strict_eq_string].
    + split; [discriminate|]. intros Heq. injection Heq as Heq.
      symmetry in Heq. by apply hmac_sha256_hex_nonempty in Heq.
    + rewrite String.eqb_eq. split; [by intros ->|by intros [= ->]].
Qed.

(** X2.  The canonical string does not escape its separators: a value that
    contains [&k2=v2] signs like a map that has the separate entry [k2],
    for a key [k2] that the default [sort] puts after [k1]. *)
Theorem calculateSignature_separator_collision (k1 k2 v1 v2 secret : string) :
  k1 ≠ k2 → keyLe k1 k2 →
  calculateSignature [(k1, VStr (v1 +:+ "&" +:+ k2 +:+ "=" +:+ v2))] secret =
  calculateSignature [(k1, VStr v1); (k2, VStr v2)] secret.
Proof.
  intros Hne Hle. unfold calculateSignature. f_equal. unfold signatureBase.
  assert (sortedKeys [(k1, VStr v1); (k2, VStr v2)] = [k1; k2]) as ->.
  { unfold sortedKeys. apply (Sorted_unique keyLe).
    - apply Sorted_merge_sort; apply _.
    - repeat constructor. exact Hle.
    - apply merge_sort_Permutation. }
  assert (sortedKeys [(k1, VStr (v1 +:+ "&" +:+ k2 +:+ "=" +:+ v2))] = [k1]) as -> by reflexivity.
  cbn [buildSignatureBase Nat.ltb Nat.leb get toString].
  rewrite String.eqb_refl.
  destruct (String.eqb_spec k1 k2) as [|_]; [done|]. rewrite String.eqb_refl.
  change ("" +:+ ?x) with x.
  by rewrite !string_app_assoc.
Qed.

Lemma calculateSignature_separator_collision_witness :
  "amount" ≠ "to" ∧ keyLe "amount" "to" ∧
  calculateSignature [("amount", VStr "1&to=mallory")] "secret" =
  calculateSignature [("amount", VStr "1"); ("to", VStr "mallory")] "secret".
Proof.
  assert ("amount" ≠ "to") as Hne by discriminate.
  assert (keyLe "amount" "to") as Hle by (vm_compute; reflexivity).
  split; [exact Hne|]. split; [exact Hle|].
  exact (calculateSignature_separator_collision "amount" "to" "1" "mallory" "secret" Hne Hle).
Defined.

(** X3.  Stripping: the prepared payload has no property whose value is
    [undefined], [null] or the empty string, and every other caller field
    is carried over with its value unless it was blank. *)
Theorem prepareSignedPayload_strips_blank (now : Z) (customParams : object)
    (apiKey : value) (secret : string) :
  let payload := prepareSignedPayload now customParams apiKey secret in
  (∀ k, k ∈ keys payload → is_blank (get payload k) = false) ∧
  (∀ k, k ≠ "sign" → k ≠ "timestamp" → k ≠ "apiKey" →
        get payload k =
          if is_blank (get customParams k) then VUndef else get customParams k) ∧
  (∀ k, k ≠ "sign" → k ≠ "timestamp" → k ≠ "apiKey" →
        k ∈ keys payload → k ∈ keys customParams).
Proof.
  cbv zeta. rewrite prepareSignedPayload_unsigned. unfold unsigned.
  set (p1 := if negb (truthy (get customParams "timestamp")) then _ else _).
  set (p2 := if negb (truthy (get p1 "apiKey")) then _ else _).
  assert (∀ k, k ≠ "timestamp" → k ≠ "apiKey" → get p2 k = get customParams k) as Hget.
  { intros k H1 H2. unfold p2, p1.
    repeat case_match; rewrite ?get_set_ne by done; done. }
  assert (∀ k, k ≠ "timestamp" → k ≠ "apiKey" → k ∈ keys p2 → k ∈ keys customParams) as Hkeys.
  { intros k H1 H2 Hk.
    assert (k ∈ keys p1) as Hk1.
    { unfold p2 in Hk. destruct (negb (truthy (get p1 "apiKey"))); [|done].
      by apply keys_set in Hk as [|Hk]. }
    unfold p1 in Hk1. destruct (negb (truthy (get customParams "timestamp"))); [|done].
    by apply keys_set in Hk1 as [|Hk1]. }
  split; [|split].
  - intros k Hk. apply keys_set in Hk. destruct (decide (k = "sign")) as [->|Hne].
    + rewrite get_set_same. cbn [is_blank].
      destruct (String.eqb_spec (calculateSignature (stripBlank p2) secret) "") as [He|]; [|done].
      by apply hmac_sha256_hex_nonempty in He.
    + destruct Hk as [|Hk]; [done|]. rewrite get_set_ne by done.
      apply keys_stripBlank in Hk as [_ Hb]. by rewrite get_stripBlank, Hb.
  - intros k H0 H1 H2. rewrite get_set_ne by done.
    by rewrite get_stripBlank, Hget.
  - intros k H0 H1 H2 Hk. apply keys_set in Hk as [|Hk]; [done|].
    apply keys_stripBlank in Hk as [Hk _]. by apply Hkeys.
Qed.

(** X4.  Defaults never override the caller: a truthy [timestamp] or
    [apiKey] among the caller's fields is kept; otherwise the payload carries
    the current time, and the configured API key unless that is blank. *)
Theorem prepareSignedPayload_defaults (now : Z) (customParams : object)
    (apiKey : value) (secret : string) :
  let payload := prepareSignedPayload now customParams apiKey secret in
  get payload "timestamp" =
    (if truthy (get customParams "timestamp") then get customParams "timestamp"
     else VNum now) ∧
  get payload "apiKey" =
    (if truthy (get customParams "apiKey") then get customParams "apiKey"
     else if is_blank apiKey then VUndef else apiKey).
Proof.
  assert (∀ v, truthy v = true → is_blank v = false) as Htb.
  { intros [| | | | |s| |]; try done. simpl. by destruct (String.eqb s ""). }
  cbv zeta. rewrite prepareSignedPayload_unsigned. unfold unsigned.
  rewrite !get_set_ne by done. rewrite !get_stripBlank. split.
  - destruct (truthy (get customParams "timestamp")) eqn:Ht; cbn [negb].
    + destruct (truthy (get customParams "apiKey")) eqn:Ha; cbn [negb];
        rewrite ?get_set_ne by done; by rewrite (Htb _ Ht).
    + destruct (truthy (get (set customParams "timestamp" (VNum now)) "apiKey"));
        cbn [negb]; rewrite ?get_set_ne by done; by rewrite get_set_same.
  - assert (∀ p : object, get (if negb (truthy (get p "apiKey")) then set p "apiKey" apiKey else p) "apiKey"
                 = if truthy (get p "apiKey") then get p "apiKey" else apiKey) as Hk.
    { intros p. destruct (truthy (get p "apiKey")); cbn [negb]; [done|apply get_set_same]. }
    rewrite Hk.
    assert (∀ p : object, get (if negb (truthy (get customParams "timestamp")) then set customParams "timestamp" (VNum now) else customParams) "apiKey" = get customParams "apiKey") as Hp.
    { intros _. destruct (negb _); [by rewrite get_set_ne|done]. }
    rewrite (Hp []).
    destruct (truthy (get customParams "apiKey")) eqn:Ha; [by rewrite (Htb _ Ha)|].
    by destruct (is_blank apiKey).
Qed.

End SignerMore.

Section SignerOrder.
Import JS Signature SignerParts.

Lemma delete_Permutation (p q : object) k : p ≡ₚ q → delete p k ≡ₚ delete q k.
Proof.
  induction 1 as [|[k1 v1] p q _ IH|[k1 v1] [k2 v2] p|p q r _ IH1 _ IH2]; simpl.
  - done.
  - destruct (String.eqb k1 k); [done|]. by apply Permutation_skip.
  - destruct (String.eqb k1 k), (String.eqb k2 k); try done. apply Permutation_swap.
  - by etrans.
Qed.

Lemma wf_delete (p : object) k : wf p → wf (delete p k).
Proof.
  unfold wf, keys. induction p as [|[k1 v1] p IH]; simpl; intros Hnd; [done|].
  apply NoDup_cons in Hnd as [Hk1 Hnd].
  destruct (String.eqb k1 k); [by apply IH|]. simpl.
  apply NoDup_cons. split; [by apply (keys_delete_absent p k k1)|by apply IH].
Qed.

(** X5.  Verification does not depend on the order of the payload's
    properties. *)
Theorem verifySignature_Permutation (p q : object) (secret : string) :
  wf p → p ≡ₚ q → verifySignature p secret = verifySignature q secret.
Proof.
  intros Hwf Hp. unfold verifySignature, calculateSignature.
  rewrite <- (get_Permutation p q "sign" Hwf Hp).
  by rewrite (signatureBase_Permutation (delete p "sign") (delete q "sign")
                (wf_delete p "sign" Hwf) (delete_Permutation p q "sign" Hp)).
Qed.

Lemma verifySignature_Permutation_witness :
  let p : object := [("a", VStr "1"); ("sign", VStr "00ff"); ("b", VNum 2)] in
  let q : object := [("sign", VStr "00ff"); ("b", VNum 2); ("a", VStr "1")] in
  wf p ∧ p ≡ₚ q ∧ verifySignature p "secret" = verifySignature q "secret".
Proof.
  intros p q.
  assert (wf p) as Hwf by (unfold wf; apply (bool_decide_unpack _); vm_compute; exact I).
  assert (p ≡ₚ q) as Hp.
  { unfold p, q. etrans; [apply Permutation_swap|]. apply Permutation_skip, Permutation_swap. }
  split; [exact Hwf|]. split; [exact Hp|].
  exact (verifySignature_Permutation p q "secret" Hwf Hp).
Defined.

(** X6.  Round trip: when the caller's fields carry no [sign], or a blank
    one, the payload that [prepareSignedPayload] builds is accepted by
    [verifySignature] under the same secret. *)
Theorem prepare_verify_roundtrip_blank_sign (now : Z) (fields : object)
    (apiKey : value) (secret : string) :
  is_blank (get fields "sign") = true →
  verifySignature (prepareSignedPayload now fields apiKey secret) secret = true.
Proof.
  intros Hblank. apply verifySignature_accepts.
  rewrite prepareSignedPayload_unsigned, get_set_same.
  rewrite delete_set_absent; [done|].
  intros Hin. unfold unsigned in Hin. apply keys_stripBlank in Hin as [_ Hnb].
  revert Hnb. repeat case_match; rewrite ?get_set_ne by done; congruence.
Qed.

Lemma prepare_verify_roundtrip_blank_sign_witness :
  is_blank (get [("sign", VStr ""); ("coin", VStr "USDT")] "sign") = true ∧
  verifySignature
    (prepareSignedPayload 1700000000000 [("sign", VStr ""); ("coin", VStr "USDT")]
                          (VStr "key") "secret") "secret" = true.
Proof.
  assert (is_blank (get [("sign", VStr ""); ("coin", VStr "USDT")] "sign") = true) as H
    by reflexivity.
  split; [exact H|].
  exact (prepare_verify_roundtrip_blank_sign 1700000000000 _ (VStr "key") "secret" H).
Defined.

End SignerOrder.

(** * Further properties of the response cipher *)

Section CipherMore.
Import JS Decryption.
Context `{Platform}.

Lemma get_decrypted (o : object) (data : value) (original method : string) :
  get (decrypted o data original method) "data" = data ∧
  get (decrypted o data original method) "_originalEncryptedData" = VStr original ∧
  get (decrypted o data original method) "_decryptionMethod" = VStr method ∧
  (∀ k, k ≠ "data" → k ≠ "_originalEncryptedData" → k ≠ "_decryptionMethod" →
        get (decrypted o data original method) k = get o k).
Proof.
  unfold decrypted. repeat split.
  - rewrite 2!get_set_ne by done. apply get_set_same.
  - rewrite get_set_ne by done. apply get_set_same.
  - apply get_set_same.
  - intros k H1 H2 H3. by rewrite 3!get_set_ne by done.
Qed.

Lemma processApiResponse_rsa_result (o : object) (ciphertext : string) :
  get o "data" = VStr ciphertext → ciphertext ≠ "" →
  truthy (decryptRSAResponse ciphertext maxDecryptBlock) = true →
  processApiResponse (VObj o) =
    Return (VObj (decrypted o (decryptRSAResponse ciphertext maxDecryptBlock)
                            ciphertext "RSA")).
Proof.
  intros Hdata Hne Hrsa. unfold processApiResponse. rewrite Hdata. cbn [truthy].
  destruct (String.eqb_spec ciphertext "") as [|_]; [done|]. cbn [negb]. by rewrite Hrsa.
Qed.

(** X7.  RSA success: [data] is replaced by the decrypted value, the
    ciphertext is retained under [_originalEncryptedData], the marker is
    ["RSA"], and every other property of the envelope is passed through. *)
Theorem processApiResponse_rsa_tagged (o : object) (ciphertext : string) :
  get o "data" = VStr ciphertext → ciphertext ≠ "" →
  truthy (decryptRSAResponse ciphertext maxDecryptBlock) = true →
  ∃ o', processApiResponse (VObj o) = Return (VObj o') ∧
        get o' "data" = decryptRSAResponse ciphertext maxDecryptBlock ∧
        get o' "_originalEncryptedData" = VStr ciphertext ∧
        get o' "_decryptionMethod" = VStr "RSA" ∧
        (∀ k, k ≠ "data" → k ≠ "_originalEncryptedData" → k ≠ "_decryptionMethod" →
              get o' k = get o k).
Proof.
  intros Hdata Hne Hrsa.
  exists (decrypted o (decryptRSAResponse ciphertext maxDecryptBlock) ciphertext "RSA").
  split; [by apply processApiResponse_rsa_result|]. apply get_decrypted.
Qed.

(** X8.  AES fallback: reached only when the RSA attempt is falsy; the
    plaintext is parsed as JSON, or kept as a string when it is not JSON,
    and the marker is ["AES"]. *)
Theorem processApiResponse_aes_tagged (o : object) (ciphertext plaintext : string) :
  get o "data" = VStr ciphertext → ciphertext ≠ "" →
  truthy (decryptRSAResponse ciphertext maxDecryptBlock) = false →
  decryptAESString ciphertext encryptionKey = Some plaintext →
  ∃ o', processApiResponse (VObj o) = Return (VObj o') ∧
        get o' "data" = default (VStr plaintext) (JSON_parse plaintext) ∧
        get o' "_originalEncryptedData" = VStr ciphertext ∧
        get o' "_decryptionMethod" = VStr "AES" ∧
        (∀ k, k ≠ "data" → k ≠ "_originalEncryptedData" → k ≠ "_decryptionMethod" →
              get o' k = get o k).
Proof.
  intros Hdata Hne Hrsa Haes. unfold processApiResponse. rewrite Hdata. cbn [truthy].
  destruct (String.eqb_spec ciphertext "") as [|_]; [done|]. cbn [negb].
  rewrite Hrsa, Haes. eexists. split; [reflexivity|].
  destruct (get_decrypted o (default (VStr plaintext) (JSON_parse plaintext))
              ciphertext "AES") as (H1 & H2 & H3 & H4).
  by destruct (JSON_parse plaintext).
Qed.

(** X9.  [decryptAESString] never answers with an empty string.  A
    non-empty first decryption wins; the base64 reading is tried only when
    the first decryption comes out empty; and when the first decryption
    throws, the answer is [null] whatever the base64 reading would give. *)
Theorem decryptAESString_cases (encryptedData key : string) :
  decryptAESString encryptedData key ≠ Some "" ∧
  (∀ s, aes_decrypt encryptedData key = Some s → s ≠ "" →
        decryptAESString encryptedData key = Some s) ∧
  (aes_decrypt encryptedData key = Some "" →
   decryptAESString encryptedData key =
     match aes_decrypt_base64 encryptedData key with
     | Some s => if String.eqb s "" then None else Some s
     | None => None
     end) ∧
  (aes_decrypt encryptedData key = None → decryptAESString encryptedData key = None).
Proof.
  unfold decryptAESString, decryptAESString_try. repeat split.
  - destruct (aes_decrypt encryptedData key) as [s|]; [|done]. cbn.
    destruct (String.eqb_spec s "") as [->|Hs].
    + destruct (aes_decrypt_base64 encryptedData key) as [s'|]; [|done]. cbn.
      destruct (String.eqb_spec s' ""); congruence.
    + cbn. destruct (String.eqb_spec s ""); congruence.
  - intros s -> Hs. cbn. destruct (String.eqb_spec s ""); [done|]. cbn.
    by destruct (String.eqb_spec s "").
  - intros ->. cbn. by destruct (aes_decrypt_base64 encryptedData key).
  - by intros ->.
Qed.

(** X10.  An empty plaintext counts as failure: when single-block
    decryption yields the empty string the chunked fallback is not tried and
    the answer is [null]; so is it when single-block decryption fails and the
    ciphertext decodes to no bytes at all. *)
Theorem decryptRSAResponse_empty (encryptedData : string) (maxBlock : nat) :
  (rsa_decrypt encryptedData = Some "" →
   decryptRSAResponse encryptedData maxBlock = VNull) ∧
  (rsa_decrypt encryptedData = None → base64_decode encryptedData = [] →
   decryptRSAResponse encryptedData maxBlock = VNull).
Proof.
  unfold decryptRSAResponse, decryptRSAResponse_try, rsaDecryptedResult. split.
  - by intros ->.
  - by intros -> ->.
Qed.

Lemma replacePlus_no_plus (s : string) :
  "+"%char ∉ String.list_ascii_of_string (replacePlus s).
Proof.
  induction s as [|c s IH]; simpl; [apply not_elem_of_nil|].
  destruct (Ascii.eqb_spec c "+") as [->|Hne]; simpl.
  - repeat (apply not_elem_of_cons; split; [done|]). exact IH.
  - apply not_elem_of_cons. split; [congruence|exact IH].
Qed.

Lemma replacePlus_id (s : string) :
  "+"%char ∉ String.list_ascii_of_string s → replacePlus s = s.
Proof.
  induction s as [|c s IH]; simpl; [done|]. intros Hnin.
  apply not_elem_of_cons in Hnin as [Hne Hnin].
  destruct (Ascii.eqb_spec c "+") as [->|_]; [done|]. by rewrite IH.
Qed.

(** X11.  The [+] substitution leaves no [+] behind, changes nothing in a
    string without [+], and is therefore idempotent. *)
Theorem replacePlus_spec (s : string) :
  ("+"%char ∉ String.list_ascii_of_string (replacePlus s)) ∧
  ("+"%char ∉ String.list_ascii_of_string s → replacePlus s = s) ∧
  replacePlus (replacePlus s) = replacePlus s.
Proof.
  split; [apply replacePlus_no_plus|]. split; [apply replacePlus_id|].
  apply replacePlus_id, replacePlus_no_plus.
Qed.

End CipherMore.

Lemma processApiResponse_rsa_tagged_witness :
  let P := Decryption.toy_platform in
  let o : JS.object := [("code", JS.VNum 200); ("data", JS.VStr "abc")] in
  JS.get o "data" = JS.VStr "abc" ∧ "abc" ≠ "" ∧
  JS.truthy (@Decryption.decryptRSAResponse P "abc" Decryption.maxDecryptBlock) = true ∧
  ∃ o', @Decryption.processApiResponse P (JS.VObj o) = Return (JS.VObj o') ∧
        JS.get o' "_decryptionMethod" = JS.VStr "RSA" ∧
        JS.get o' "code" = JS.VNum 200.
Proof.
  intros P o.
  assert (JS.get o "data" = JS.VStr "abc") as H1 by reflexivity.
  assert ("abc" ≠ "") as H2 by discriminate.
  assert (JS.truthy (@Decryption.decryptRSAResponse P "abc" Decryption.maxDecryptBlock) = true)
    as H3 by (vm_compute; reflexivity).
  split; [exact H1|]. split; [exact H2|]. split; [exact H3|].
  destruct (@processApiResponse_rsa_tagged P o "abc" H1 H2 H3)
    as (o' & Hr & _ & _ & Hm & Hother).
  exists o'. split; [exact Hr|]. split; [exact Hm|].
  rewrite Hother; [reflexivity|discriminate..].
Defined.

Lemma processApiResponse_aes_tagged_witness :
  let P := aes_platform in
  let o : JS.object := [("data", JS.VStr "!U2FsdGVk"); ("msg", JS.VStr "ok")] in
  JS.get o "data" = JS.VStr "!U2FsdGVk" ∧ "!U2FsdGVk" ≠ "" ∧
  JS.truthy (@Decryption.decryptRSAResponse P "!U2FsdGVk" Decryption.maxDecryptBlock) = false ∧
  @Decryption.decryptAESString P "!U2FsdGVk" Decryption.encryptionKey = Some "{}" ∧
  ∃ o', @Decryption.processApiResponse P (JS.VObj o) = Return (JS.VObj o') ∧
        JS.get o' "data" = JS.VObj [] ∧
        JS.get o' "_decryptionMethod" = JS.VStr "AES".
Proof.
  intros P o.
  assert (JS.get o "data" = JS.VStr "!U2FsdGVk") as H1 by reflexivity.
  assert ("!U2FsdGVk" ≠ "") as H2 by discriminate.
  assert (JS.truthy (@Decryption.decryptRSAResponse P "!U2FsdGVk" Decryption.maxDecryptBlock) = false)
    as H3 by (vm_compute; reflexivity).
  assert (@Decryption.decryptAESString P "!U2FsdGVk" Decryption.encryptionKey = Some "{}")
    as H4 by (vm_compute; reflexivity).
  split; [exact H1|]. split; [exact H2|]. split; [exact H3|]. split; [exact H4|].
  destruct (@processApiResponse_aes_tagged P o "!U2FsdGVk" "{}" H1 H2 H3 H4)
    as (o' & Hr & Hd & _ & Hm & _).
  exists o'. split; [exact Hr|]. split; [exact Hd|exact Hm].
Defined.

Lemma decryptAESString_cases_witness :
  @aes_decrypt aes_platform "!U2FsdGVk" Decryption.encryptionKey = Some "" ∧
  @Decryption.decryptAESString aes_platform "!U2FsdGVk" Decryption.encryptionKey = Some "{}".
Proof.
  assert (@aes_decrypt aes_platform "!U2FsdGVk" Decryption.encryptionKey = Some "") as H
    by reflexivity.
  split; [exact H|].
  exact (proj1 (proj2 (proj2 (@decryptAESString_cases aes_platform "!U2FsdGVk"
                                 Decryption.encryptionKey))) H).
Defined.

Lemma decryptRSAResponse_empty_witness :
  @rsa_decrypt Decryption.failing_platform "AAAA" = None ∧
  @base64_decode Decryption.failing_platform "AAAA" = [] ∧
  @Decryption.decryptRSAResponse Decryption.failing_platform "AAAA" 128 = JS.VNull.
Proof.
  assert (@rsa_decrypt Decryption.failing_platform "AAAA" = None) as H1 by reflexivity.
  assert (@base64_decode Decryption.failing_platform "AAAA" = []) as H2 by reflexivity.
  split; [exact H1|]. split; [exact H2|].
  exact (proj2 (@decryptRSAResponse_empty Decryption.failing_platform "AAAA" 128%nat) H1 H2).
Defined.

Lemma replacePlus_spec_witness :
  ("+"%char ∉ String.list_ascii_of_string "%7B%22a%22%3A1%7D") ∧
  Decryption.replacePlus "%7B%22a%22%3A1%7D" = "%7B%22a%22%3A1%7D".
Proof.
  assert ("+"%char ∉ String.list_ascii_of_string "%7B%22a%22%3A1%7D") as H.
  { apply (bool_decide_unpack _). vm_compute. exact I. }
  split; [exact H|].
  exact (proj1 (proj2 (replacePlus_spec "%7B%22a%22%3A1%7D")) H).
Defined.

(** * Further properties of the dispatcher *)

Section DispatcherMore.
Import JS Client.
Context `{Platform}.

Lemma onEnd_status status hdrs body :
  statusCode (onEnd status hdrs body) = status ∧ headers (onEnd status hdrs body) = hdrs.
Proof.
  unfold onEnd. destruct (JSON_parse body) as [v|]; [|done]. cbn [orThrow mbind outcome_bind].
  by destruct (Decryption.processApiResponse v).
Qed.

Lemma requestLoop_reply_first (endpoint : string) (payload : object) (timeoutMs : Z)
    (net : nat → transport) (status : Z) (hdrs : value) (body : string)
    (m : nat) (st : Stats) :
  net 0%nat = NetReply status hdrs body →
  requestLoop (S m) endpoint payload timeoutMs net (S m) 0 st [] =
    (mkStats (requests st + 1)
             (successful st + (if (200 <=? status) && (status <? 300) then 1 else 0))
             (failed st + (if (200 <=? status) && (status <? 300) then 0 else 1))
             (encrypted st
              + (if truthy (_decryptionMethod (onEnd status hdrs body)) then 1 else 0)),
     [EvHttp endpoint payload],
     Return (Some (onEnd status hdrs body))).
Proof.
  intros Hreply. cbn [requestLoop]. replace (0 <? S m)%nat with true by done.
  rewrite Hreply. cbn [_makeHttpRequest].
  rewrite (proj1 (onEnd_status status hdrs body)).
  f_equal. f_equal. unfold bumpEncrypted, bumpSuccessful, bumpFailed, bumpRequests.
  destruct ((200 <=? status) && (status <? 300)),
           (truthy (_decryptionMethod (onEnd status hdrs body)));
    cbn [requests successful failed encrypted]; apply mkStats_eq; lia.
Qed.

(** X12.  Only transport failures are retried.  A reply, whatever its HTTP
    status, ends the request at once: it counts as one request, as
    [successful] when the status is 2xx and as [failed] otherwise, and as
    [encrypted] when the response carries a decryption marker. *)
Theorem request_reply_not_retried (c : Client) (now : Z) (endpoint : string)
    (params : object) (optionsTimeout : option Z) (net : nat → transport)
    (status : Z) (hdrs : value) (body : string) :
  isTokenValid now (auth c) = true →
  net 0%nat = NetReply status hdrs body →
  let ok := (200 <=? status) && (status <? 300) in
  let marked := truthy (_decryptionMethod (onEnd status hdrs body)) in
  request c now endpoint params optionsTimeout net =
    (mkClient (config c) (auth c)
       (mkStats (requests (stats c) + 1)
                (successful (stats c) + (if ok then 1 else 0))
                (failed (stats c) + (if ok then 0 else 1))
                (encrypted (stats c) + (if marked then 1 else 0))),
     [EvHttp endpoint
        (Signature.prepareSignedPayload now params (apiKey (config c))
                                        (apiSecret (config c)))],
     Return (Some (onEnd status hdrs body))).
Proof.
  intros Hauth Hreply ok marked. unfold request. rewrite Hauth. cbn [negb].
  destruct (autoRetry (config c));
    by rewrite (requestLoop_reply_first _ _ _ net status hdrs body _ _ Hreply).
Qed.

Lemma requestLoop_counts endpoint payload timeoutMs net maxAttempts fuel :
  ∀ attempts st trace,
    (attempts + fuel = maxAttempts)%nat →
    ∃ n : nat,
      (n ≤ fuel)%nat ∧ (0 < fuel → 0 < n)%nat ∧
      (requestLoop fuel endpoint payload timeoutMs net maxAttempts attempts st trace).1.2 =
        trace ++ match n with
                 | O => []
                 | S m => EvHttp endpoint payload :: laterSchedule endpoint payload (S attempts) m
                 end ∧
      requests (requestLoop fuel endpoint payload timeoutMs net maxAttempts attempts st trace).1.1
        = requests st + Z.of_nat n ∧
      encrypted st ≤
        encrypted (requestLoop fuel endpoint payload timeoutMs net maxAttempts attempts st trace).1.1
        ≤ encrypted st + 1.
Proof.
  induction fuel as [|fuel IH]; intros attempts st trace Hsum.
  - exists 0%nat. cbn. rewrite app_nil_r. repeat split; lia.
  - cbn [requestLoop]. destruct (Nat.ltb_spec attempts maxAttempts); [|lia].
    destruct (_makeHttpRequest timeoutMs (net attempts)) as [response|err].
    + exists 1%nat. cbn [fst snd]. unfold laterSchedule. cbn [seq map concat].
      repeat split; try lia; destruct st; repeat case_match; cbn; lia.
    + destruct (Nat.leb_spec maxAttempts (S attempts)).
      * exists 1%nat. cbn [fst snd]. unfold laterSchedule. cbn [seq map concat].
        repeat split; try lia; destruct st; cbn; lia.
      * destruct (IH (S attempts) (bumpFailed (bumpRequests st))
                    ((trace ++ [EvHttp endpoint payload])
                       ++ [EvDelay (1000 * Z.of_nat (S attempts))]))
          as (n & Hn & Hpos & Htrace & Hreq & Henc); [lia|].
        destruct n as [|m]; [lia|].
        exists (S (S m)). split; [lia|]. split; [lia|]. split; [|split].
        -- rewrite Htrace. unfold laterSchedule. cbn [seq map concat].
           by rewrite <- !app_assoc.
        -- rewrite Hreq. destruct st; cbn. lia.
        -- destruct st; cbn in *. lia.
Qed.

(** X13.  Whatever the network does, one call of [request] makes between
    one and [maxAttempts] HTTP attempts when the client is authenticated and
    none when it is not; the waits are [1000 ms × k] after the [k]-th attempt
    and never follow the last one; [stats.requests] grows by exactly the
    number of attempts and [stats.encrypted] by at most one. *)
Theorem request_attempts_counted (c : Client) (now : Z) (endpoint : string)
    (params : object) (optionsTimeout : option Z) (net : nat → transport) :
  let run := request c now endpoint params optionsTimeout net in
  let payload := Signature.prepareSignedPayload now params (apiKey (config c))
                                                (apiSecret (config c)) in
  ∃ n : nat,
    run.1.2 = retrySchedule endpoint payload n ∧
    attemptsOf run.1.2 = n ∧
    (n ≤ if autoRetry (config c) then 3 else 1)%nat ∧
    (n = 0%nat ↔ isTokenValid now (auth c) = false) ∧
    requests (stats run.1.1) = requests (stats c) + Z.of_nat n ∧
    encrypted (stats c) ≤ encrypted (stats run.1.1) ≤ encrypted (stats c) + 1.
Proof.
  cbv zeta. unfold request.
  destruct (isTokenValid now (auth c)) eqn:Hauth; cbn [negb].
  - set (maxAttempts := if autoRetry (config c) then 3%nat else 1%nat).
    destruct (requestLoop_counts endpoint
                (Signature.prepareSignedPayload now params (apiKey (config c))
                                                (apiSecret (config c)))
                (effectiveTimeout optionsTimeout (config c)) net maxAttempts maxAttempts
                0 (stats c) []) as (n & Hn & Hpos & Htrace & Hreq & Henc); [lia|].
    destruct (requestLoop _ _ _ _ _ _ _ _ _) as [[st' trace'] result].
    cbn [fst snd stats] in *. exists n.
    assert (trace' = retrySchedule endpoint
                       (Signature.prepareSignedPayload now params (apiKey (config c))
                                                       (apiSecret (config c))) n) as ->.
    { rewrite Htrace. by destruct n. }
    split; [done|]. split; [apply attemptsOf_schedule|]. split; [done|].
    split; [|done]. split; [|done].
    intros ->. assert (0 < maxAttempts)%nat; [|lia].
    unfold maxAttempts. destruct (autoRetry (config c)); lia.
  - exists 0%nat. cbn. repeat split; try lia; try done.
Qed.

(** X14.  The handler of a reply never rejects.  A body that is not JSON,
    or that is the JSON [null], gives a response that carries the raw body as
    [data] together with an error message and no decryption marker; the
    status and the headers are those of the reply in every case. *)
Theorem onEnd_fallback (status : Z) (hdrs : value) (body : string) :
  (JSON_parse body = None ∨ JSON_parse body = Some VNull →
   ∃ message, onEnd status hdrs body =
                mkResponse status hdrs (VStr body) VUndef VUndef (VStr message)) ∧
  statusCode (onEnd status hdrs body) = status ∧
  headers (onEnd status hdrs body) = hdrs.
Proof.
  split; [|apply onEnd_status].
  intros [Hp|Hp]; unfold onEnd; rewrite Hp; cbn; eauto.
Qed.

(** X15.  A reply whose [data] the RSA path decrypts is returned with the
    decrypted value as [data], the raw envelope as [_originalData] and the
    marker ["RSA"], and it is counted in [stats.encrypted]. *)
Theorem request_decrypts_reply (c : Client) (now : Z) (endpoint : string)
    (params : object) (optionsTimeout : option Z) (net : nat → transport)
    (status : Z) (hdrs : value) (body : string) (o : object) (ciphertext : string) :
  isTokenValid now (auth c) = true →
  net 0%nat = NetReply status hdrs body →
  JSON_parse body = Some (VObj o) →
  get o "data" = VStr ciphertext → ciphertext ≠ "" →
  truthy (Decryption.decryptRSAResponse ciphertext Decryption.maxDecryptBlock) = true →
  let run := request c now endpoint params optionsTimeout net in
  run.2 = Return (Some (mkResponse status hdrs
                          (Decryption.decryptRSAResponse ciphertext Decryption.maxDecryptBlock)
                          (VObj o) (VStr "RSA") VUndef)) ∧
  encrypted (stats run.1.1) = encrypted (stats c) + 1.
Proof.
  intros Hauth Hreply Hparse Hdata Hne Hrsa.
  pose proof (processApiResponse_rsa_result o ciphertext Hdata Hne Hrsa) as Hproc.
  destruct (get_decrypted o
              (Decryption.decryptRSAResponse ciphertext Decryption.maxDecryptBlock)
              ciphertext "RSA") as (Hd & _ & Hm & _).
  assert (onEnd status hdrs body =
          mkResponse status hdrs
            (Decryption.decryptRSAResponse ciphertext Decryption.maxDecryptBlock)
            (VObj o) (VStr "RSA") VUndef) as Hend.
  { unfold onEnd. rewrite Hparse. cbn [orThrow mbind outcome_bind]. rewrite Hproc.
    cbn [mbind outcome_bind prop]. by rewrite Hd, Hm. }
  cbv zeta. unfold request. rewrite Hauth. cbn [negb].
  destruct (autoRetry (config c));
    rewrite (requestLoop_reply_first _ _ _ net status hdrs body _ _ Hreply);
    rewrite Hend; cbn; (split; [done|lia]).
Qed.

End DispatcherMore.

(** * Properties of the authentication manager and of the constructor *)

Section SessionFacts.
Import JS Client Session.
Context `{Platform}.

Lemma authenticate_success (cfg : Config) (cr : Credentials) (a : Auth)
    (now done : Z) (net : transport) :
  let run := authenticate cfg cr a now done net in
  truthy run.2 = true →
  run.1.1 = mkAuth run.2 (Some (done + tokenLifetime)) true.
Proof.
  cbv zeta. unfold authenticate. destruct net as [message|status hdrs body]; [done|].
  cbn [_makeRequest].
  by destruct (truthy (Authentication._extractTokenFromResponse
                         (data (onEnd status hdrs body)))).
Qed.

(** X16.  A successful login stores the token for exactly 24 hours from the
    moment the response was read: until then [getToken] returns it and the
    client counts as authenticated, from then on [getToken] returns [null].
    The token is the truthy value of a [token] field of the decrypted
    response. *)
Theorem authenticate_token_lifetime (cfg : Config) (cr : Credentials) (a : Auth)
    (now done : Z) (net : transport) :
  let run := authenticate cfg cr a now done net in
  truthy run.2 = true →
  (∀ t, isTokenValid t run.1.1 = bool_decide (t < done + 86400000)) ∧
  (∀ t, getToken t run.1.1 = if bool_decide (t < done + 86400000) then run.2 else VNull) ∧
  ∃ status hdrs body,
    net = LoginReply status hdrs body ∧
    Authentication.has_token run.2 (data (onEnd status hdrs body)).
Proof.
  cbv zeta. unfold authenticate. destruct net as [message|status hdrs body]; [done|].
  cbn [_makeRequest].
  destruct (truthy (Authentication._extractTokenFromResponse (data (onEnd status hdrs body))))
    eqn:Htok; [|done].
  cbn [fst snd]. intros _. split; [|split].
  - intros t. unfold isTokenValid, _isTokenExpired. cbn. unfold tokenLifetime.
    destruct (Z.leb_spec (done + 24 * 60 * 60 * 1000) t);
      [rewrite bool_decide_eq_false_2|rewrite bool_decide_eq_true_2]; (done || lia).
  - intros t. unfold getToken, _isTokenExpired. cbn. unfold tokenLifetime.
    destruct (Z.leb_spec (done + 24 * 60 * 60 * 1000) t);
      [rewrite bool_decide_eq_false_2|rewrite bool_decide_eq_true_2]; (done || lia).
  - exists status, hdrs, body. split; [done|]. by apply extractToken_truthy_sound.
Qed.


(** X18.  After [logout], and again once 24 hours have passed since a
    successful login, every request is refused with the not-authenticated
    error without touching the network or the statistics. *)
Theorem request_refused_without_session (c : Client) (cfg : Config)
    (cr : Credentials) (now done : Z) (login : transport) (t : Z)
    (endpoint : string) (params : object) (optionsTimeout : option Z)
    (net : nat → Client.transport) :
  let refused (c' : Client) :=
    request c' t endpoint params optionsTimeout net =
      (c', [], Throw "Client not authenticated. Call authenticate() first.") in
  refused (mkClient (config c) (logout (auth c)) (stats c)) ∧
  (let run := authenticate cfg cr (auth c) now done login in
   truthy run.2 = true → done + 86400000 ≤ t →
   refused (mkClient (config c) run.1.1 (stats c))).
Proof.
  cbv zeta. split; [done|]. intros Htok Hlate. unfold request.
  rewrite (authenticate_success cfg cr (auth c) now done login Htok).
  unfold isTokenValid, _isTokenExpired, tokenLifetime. cbn.
  by destruct (Z.leb_spec (done + 24 * 60 * 60 * 1000) t); [|lia].
Qed.

End SessionFacts.

Section ConstructionFacts.
Import JS Construction.

(** X19.  The constructor accepts a configuration exactly when [apiKey],
    [apiSecret] and [credentials] are truthy and so are the [prefix],
    [account] and [code] of the credentials; otherwise it throws.  The
    complaint is that the configuration object is required exactly when the
    configuration itself is falsy, and a missing [apiKey] is reported
    whatever else is missing. *)
Theorem _validateConfig_accepts (config : value) :
  (_validateConfig config = Return tt ↔
   Forall (λ f, truthy (prop config f) = true) ["apiKey"; "apiSecret"; "credentials"] ∧
   Forall (λ f, truthy (prop (prop config "credentials") f) = true)
          ["prefix"; "account"; "code"]) ∧
  (_validateConfig config = Throw "Configuration object is required" ↔
   truthy config = false) ∧
  (truthy config = true → truthy (prop config "apiKey") = false →
   _validateConfig config = Throw "Missing required configuration: apiKey").
Proof.
  assert (truthy config = false → ∀ f, prop config f = VUndef) as Hprim.
  { intros Ht f. by destruct config. }
  unfold _validateConfig, firstMissing. rewrite !Forall_cons, !Forall_nil.
  destruct (truthy config) eqn:Hc; cbn [negb].
  - cbn [List.find].
    destruct (truthy (prop config "apiKey")); cbn [negb];
      [|by repeat split; try discriminate; intros [(?&_) _]].
    destruct (truthy (prop config "apiSecret")); cbn [negb];
      [|by repeat split; try discriminate; intros [(_&?&_) _]].
    destruct (truthy (prop config "credentials")); cbn [negb];
      [|by repeat split; try discriminate; intros [(_&_&?&_) _]].
    destruct (truthy (prop (prop config "credentials") "prefix")); cbn [negb];
      [|by repeat split; try discriminate; intros [_ (?&_)]].
    destruct (truthy (prop (prop config "credentials") "account")); cbn [negb];
      [|by repeat split; try discriminate; intros [_ (_&?&_)]].
    destruct (truthy (prop (prop config "credentials") "code")); cbn [negb];
      [|by repeat split; try discriminate; intros [_ (_&_&?&_)]].
    by repeat split.
  - repeat split; try done. intros [(Hk & _) _]. by rewrite (Hprim eq_refl) in Hk.
Qed.

End ConstructionFacts.

(** * Further properties of the scheduler *)

Section SchedulerMore.
Import JS Quantify SchedulerParts.

Lemma invoke_returns {A : Type} (cb : option (A → effect)) (x : A) ev st :
  (∀ f, cb = Some f → throws (f x) = None) →
  invoke cb x ev st =
    (match cb with
     | Some f => stopIf (stops (f x)) (emit ev st)
     | None => st
     end, Return tt).
Proof.
  intros Hcb. unfold invoke. destruct cb as [f|]; [|done]. by rewrite (Hcb f eq_refl).
Qed.

(** One pass through the [try]/[catch] of the loop body when the callbacks
    return. *)
Lemma iteration_returns (s : Schedule) (w : World) i st :
  callbacksReturn s →
  ∃ st',
    match tryBody s w i st with
    | (st, Throw message) => catchBody s w i message st
    | (st, Return _) => (st, Return tt)
    end = (st', Return tt) ∧
    results st' = results st ++ [recordOf w i (length (results st))] ∧
    isRunning st' =
      isRunning st
      && negb (stopDuringExecute w i
               || callbackStops s (recordOf w i (length (results st)))) ∧
    delaysOf (trace st') = delaysOf (trace st) ∧
    completions (trace st') = completions (trace st) ∧
    reported (trace st') =
      reported (trace st) ++
      match (if success (recordOf w i (length (results st)))
             then onSuccess s else onError s) with
      | Some _ => [recordOf w i (length (results st))]
      | None => []
      end.
Proof.
  intros (HtS & HtE). unfold tryBody, catchBody, recordOf, callbackStops.
  destruct (execute w i) as [r|message]; cbn [success].
  - rewrite invoke_returns by eauto.
    destruct (onSuccess s) as [f|]; (eexists; split; [reflexivity|]); cbn;
      unfold delaysOf, completions, reported; rewrite ?omap_app; cbn;
      rewrite ?app_nil_r, ?orb_false_r; repeat split; try done;
      by rewrite negb_orb, andb_assoc.
  - rewrite invoke_returns by eauto.
    destruct (onError s) as [f|]; (eexists; split; [reflexivity|]); cbn;
      unfold delaysOf, completions, reported; rewrite ?omap_app; cbn;
      rewrite ?app_nil_r, ?orb_false_r; repeat split; try done;
      by rewrite negb_orb, andb_assoc.
Qed.

Lemma loop_exit (s : Schedule) (w : World) fuel i st :
  (iterations s < i)%nat ∨ isRunning st = false →
  loop fuel s w i st = (st, Return tt).
Proof.
  intros Hexit. destruct fuel as [|fuel]; [done|]. rewrite loop_unfold.
  destruct Hexit as [Hi| ->].
  - by destruct (Nat.leb_spec i (iterations s)); [lia|].
  - by rewrite andb_false_r.
Qed.

Lemma loop_until_stop (s : Schedule) (w : World) (k : nat) :
  callbacksReturn s → (k ≤ iterations s)%nat →
  ∀ fuel i st,
    isRunning st = true → (i + fuel = S (iterations s))%nat → (i ≤ k)%nat →
    (∀ j, (i ≤ j < k)%nat →
          stopRequested s w j (length (results st) + (j - i)) = false) →
    (k = iterations s ∨
     stopRequested s w k (length (results st) + (k - i)) = true) →
    ∃ st',
      loop fuel s w i st = (st', Return tt) ∧
      results st' = results st ++ recordsFrom w i (length (results st)) (S k - i) ∧
      delaysOf (trace st') =
        delaysOf (trace st) ++
        replicate ((k - i) + (if waitsAfter s w k (length (results st) + (k - i))
                              then 1 else 0))
                  (intervalMinutes s * 60 * 1000) ∧
      completions (trace st') = completions (trace st) ∧
      reported (trace st') =
        reported (trace st) ++
        List.filter (hasCallback s) (recordsFrom w i (length (results st)) (S k - i)).
Proof.
  intros Hret Hk. induction fuel as [|fuel IH]; intros i st Hrun Hsum Hik Hbefore Hat; [lia|].
  rewrite loop_unfold. destruct (Nat.leb_spec i (iterations s)); [|lia].
  rewrite Hrun. cbn [andb].
  destruct (iteration_returns s w i (setIteration i st) Hret)
    as (st1 & -> & Hres1 & Hrun1 & Hdel1 & Hcom1 & Hrep1).
  cbn [setIteration results isRunning trace] in Hres1, Hrun1, Hdel1, Hcom1, Hrep1.
  rewrite Hrun in Hrun1. cbn [andb] in Hrun1.
  set (L := length (results st)) in *.
  set (st2 := if (i <? iterations s)%nat && isRunning st1 then _ else st1).
  assert (results st2 = results st1 ∧ completions (trace st2) = completions (trace st1) ∧
          reported (trace st2) = reported (trace st1)) as (Hres2 & Hcom2 & Hrep2).
  { unfold st2. destruct ((i <? iterations s)%nat && isRunning st1); [|done].
    cbn. unfold completions, reported. rewrite !omap_app. cbn. by rewrite !app_nil_r. }
  assert (hasCallback s (recordOf w i L) =
          match (if success (recordOf w i L) then onSuccess s else onError s) with
          | Some _ => true | None => false end) as Hhas by done.
  destruct (decide (i = k)) as [->|Hne].
  - replace (S k - k)%nat with 1%nat by lia. replace (k - k)%nat with 0%nat in * by lia.
    rewrite Nat.add_0_r in Hat. cbn [recordsFrom List.filter].
    rewrite loop_exit.
    2:{ destruct Hat as [->|Hstop]; [left; lia|]. right. unfold st2.
        unfold stopRequested in Hstop.
        destruct (stopDuringExecute w k || callbackStops s (recordOf w k L)) eqn:Hearly.
        - cbn [negb] in Hrun1. rewrite Hrun1. by rewrite andb_false_r.
        - cbn [negb orb] in Hrun1, Hstop. rewrite Hrun1.
          apply andb_prop in Hstop as [-> ->]. cbn. by rewrite Hrun1. }
    eexists. split; [reflexivity|]. rewrite Hres2, Hres1, Hcom2, Hcom1, Hrep2, Hrep1.
    split; [done|]. split; [|split; [done|]].
    + unfold st2, waitsAfter. rewrite Nat.add_0_r, Hrun1.
      destruct ((k <? iterations s)%nat
                && negb (stopDuringExecute w k || callbackStops s (recordOf w k L))).
      * cbn. unfold delaysOf in *. rewrite omap_app, Hdel1. done.
      * cbn. by rewrite app_nil_r.
    + rewrite Hhas. by destruct (if success (recordOf w k L) then onSuccess s else onError s).
  - pose proof (Hbefore i ltac:(lia)) as Hquiet.
    replace (i - i)%nat with 0%nat in Hquiet by lia. rewrite Nat.add_0_r in Hquiet.
    unfold stopRequested in Hquiet.
    apply orb_false_elim in Hquiet as [Hearly Hlate]. rewrite Hearly in Hrun1. cbn in Hrun1.
    destruct (Nat.ltb_spec i (iterations s)); [|lia]. cbn [andb] in Hlate.
    assert (st2 = stopIf false (emit (EvDelay (intervalMinutes s * 60 * 1000)) st1)) as Hst2.
    { unfold st2. rewrite Hrun1. cbn [andb]. by rewrite Hlate. }
    assert (isRunning st2 = true) as Hrun2 by (rewrite Hst2; cbn; by rewrite Hrun1).
    assert (delaysOf (trace st2) =
            delaysOf (trace st) ++ [intervalMinutes s * 60 * 1000]) as Hdel2.
    { rewrite Hst2. cbn. unfold delaysOf in *. by rewrite omap_app, Hdel1. }
    assert (length (results st2) = S L) as HL2.
    { rewrite Hres2, Hres1, length_app. cbn. unfold L. lia. }
    destruct (IH (S i) st2 Hrun2) as (st' & -> & Hres' & Hdel' & Hcom' & Hrep'); [lia|lia| | |].
    { intros j Hj. rewrite HL2. replace (S L + (j - S i))%nat with (L + (j - i))%nat by lia.
      apply Hbefore. lia. }
    { rewrite HL2. replace (S L + (k - S i))%nat with (L + (k - i))%nat by lia. done. }
    rewrite HL2 in Hres', Hdel', Hrep'.
    replace (S L + (k - S i))%nat with (L + (k - i))%nat in Hdel' by lia.
    eexists. split; [reflexivity|].
    replace (S k - i)%nat with (S (S k - S i)) by lia. cbn [recordsFrom List.filter].
    rewrite Hres', Hres2, Hres1, Hdel', Hdel2, Hcom', Hcom2, Hcom1, Hrep', Hrep2, Hrep1.
    rewrite <- !app_assoc. split; [done|]. split; [|split; [done|]].
    + replace (k - i)%nat with (S (k - S i)) by lia. done.
    + rewrite Hhas. by destruct (if success (recordOf w i L) then onSuccess s else onError s).
Qed.

Lemma results_scheduleExecutions (s : Schedule) (w : World) st r :
  loop (iterations s) s w 1 initial = (st, r) →
  results (scheduleExecutions s w) = results st ∧
  delaysOf (trace (scheduleExecutions s w)) = delaysOf (trace st) ∧
  reported (trace (scheduleExecutions s w)) = reported (trace st).
Proof.
  intros Hloop. unfold scheduleExecutions. rewrite Hloop.
  destruct r as [[]|message]; [|done].
  unfold invoke. destruct (onComplete s) as [f|]; [|done].
  destruct (throws _); cbn; unfold delaysOf, reported; rewrite !omap_app; cbn;
    by rewrite !app_nil_r.
Qed.

Lemma scheduleExecutions_stopped (s : Schedule) (w : World) (k : nat) :
  callbacksReturn s → (1 ≤ k ≤ iterations s)%nat →
  (∀ j, (1 ≤ j < k)%nat → stopRequested s w j (j - 1) = false) →
  k = iterations s ∨ stopRequested s w k (k - 1) = true →
  results (scheduleExecutions s w) = recordsFrom w 1 0 k ∧
  delaysOf (trace (scheduleExecutions s w)) =
    replicate ((k - 1) + (if waitsAfter s w k (k - 1) then 1 else 0))
              (intervalMinutes s * 60 * 1000).
Proof.
  intros Hret Hk Hbefore Hat.
  destruct (loop_until_stop s w k Hret ltac:(lia) (iterations s) 1 initial)
    as (st' & Hloop & Hres & Hdel & _ & _); [done|lia|lia| | |].
  { intros j Hj. cbn [initial results length]. rewrite Nat.add_0_l. apply Hbefore. lia. }
  { cbn [initial results length]. by rewrite Nat.add_0_l. }
  destruct (results_scheduleExecutions s w st' _ Hloop) as (-> & -> & _).
  rewrite Hres, Hdel. cbn [initial results trace length app delaysOf omap].
  replace (S k - 1)%nat with k by lia. by rewrite Nat.add_0_l.
Qed.

(** X20.  Cancellation is cooperative.  When the callbacks return, and
    [stop()] is first called while the loop is busy with iteration [k]
    (during the remote call, by a callback, or during the wait that
    follows), the results are exactly the records of iterations [1..k]: the
    iteration in flight is still recorded and no later one starts.  Without
    any call of [stop()] the same holds with [k = iterations]. *)
Theorem schedule_stops_cooperatively (s : Schedule) (w : World) (k : nat) :
  callbacksReturn s → (1 ≤ k ≤ iterations s)%nat →
  (∀ j, (1 ≤ j < k)%nat → stopRequested s w j (j - 1) = false) →
  k = iterations s ∨ stopRequested s w k (k - 1) = true →
  results (scheduleExecutions s w) = recordsFrom w 1 0 k ∧
  map iteration (results (scheduleExecutions s w)) = seq 1 k ∧
  delaysOf (trace (scheduleExecutions s w)) =
    replicate ((k - 1) + (if waitsAfter s w k (k - 1) then 1 else 0))
              (intervalMinutes s * 60 * 1000).
Proof.
  intros Hret Hk Hbefore Hat.
  destruct (scheduleExecutions_stopped s w k Hret Hk Hbefore Hat) as [Hrecords Hdelays].
  split; [exact Hrecords|]. split; [|exact Hdelays].
  rewrite Hrecords. apply iteration_recordsFrom.
Qed.

(** X21.  In a run that nobody stops, the loop waits
    [intervalMinutes × 60000] ms between consecutive iterations and not
    after the last one: [iterations - 1] waits in all, none at all for an
    empty schedule. *)
Theorem schedule_waits_between_iterations (s : Schedule) (w : World) :
  neverStopped s w → callbacksReturn s →
  delaysOf (trace (scheduleExecutions s w)) =
    replicate (iterations s - 1) (intervalMinutes s * 60 * 1000).
Proof.
  intros (Hext & HsS & HsE) Hret.
  destruct (iterations s) as [|n] eqn:Hn.
  { unfold scheduleExecutions. rewrite Hn. cbn [loop].
    unfold invoke. destruct (onComplete s) as [f|]; [destruct (throws _)|]; done. }
  assert (∀ j p, stopRequested s w j p = false) as Hquiet.
  { intros j p. unfold stopRequested, callbackStops. destruct (Hext j) as [-> ->].
    rewrite andb_false_r, orb_false_r. cbn [orb].
    destruct (success (recordOf w j p)).
    - destruct (onSuccess s) eqn:Hs; [by eapply HsS|done].
    - destruct (onError s) eqn:He; [by eapply HsE|done]. }
  destruct (scheduleExecutions_stopped s w (S n) Hret) as (_ & ->);
    [lia|intros; apply Hquiet|by left|].
  unfold waitsAfter. rewrite Hn.
  replace (S n <? S n)%nat with false by (symmetry; apply Nat.ltb_irrefl).
  cbn [andb]. by replace (S n - 1 + 0)%nat with (S n - 1)%nat by lia.
Qed.

Lemma loop_returns (s : Schedule) (w : World) :
  callbacksReturn s →
  ∀ fuel i st,
    ∃ st', loop fuel s w i st = (st', Return tt) ∧
           completions (trace st') = completions (trace st).
Proof.
  intros Hret. induction fuel as [|fuel IH]; intros i st; [by exists st|].
  rewrite loop_unfold.
  destruct ((i <=? iterations s)%nat && isRunning st); [|by exists st].
  destruct (iteration_returns s w i (setIteration i st) Hret)
    as (st1 & -> & _ & _ & _ & Hcom1 & _).
  set (st2 := if (i <? iterations s)%nat && isRunning st1 then _ else st1).
  assert (completions (trace st2) = completions (trace st)) as Hcom2.
  { unfold st2. destruct ((i <? iterations s)%nat && isRunning st1); [|done].
    cbn. unfold completions in *. rewrite omap_app. cbn. by rewrite app_nil_r. }
  destruct (IH (S i) st2) as (st' & -> & Hcom'). exists st'. split; [done|congruence].
Qed.

Lemma filter_success_split (rs : list ExecutionResult) :
  (length (List.filter success rs)
   + length (List.filter (λ r, negb (success r)) rs) = length rs)%nat.
Proof.
  induction rs as [|r rs IH]; [done|]. cbn. destruct (success r); cbn; lia.
Qed.

(** X22.  Every run ends with the scheduler not running.  When the success
    and error callbacks return, the current-iteration counter is back at
    [0] and [onComplete], if supplied, is invoked exactly once, as the last
    thing, with a summary whose [completedIterations] is the number of
    results and equals [successful + failed]. *)
Theorem schedule_completion (s : Schedule) (w : World) :
  isRunning (scheduleExecutions s w) = false ∧
  (callbacksReturn s →
   let st := scheduleExecutions s w in
   currentIteration st = 0%nat ∧
   ∀ f, onComplete s = Some f →
     ∃ sm, completions (trace st) = [sm] ∧
           last (trace st) = Some (EvComplete sm) ∧
           totalIterations sm = iterations s ∧
           summaryResults sm = results st ∧
           completedIterations sm = length (results st) ∧
           (summarySuccessful sm + summaryFailed sm = completedIterations sm)%nat).
Proof.
  split.
  - unfold scheduleExecutions.
    destruct (loop _ _ _ _ _) as [st [[]|message]]; [|done].
    unfold invoke. destruct (onComplete s) as [f|]; [|done].
    by destruct (throws _).
  - intros Hret. cbv zeta.
    destruct (loop_returns s w Hret (iterations s) 1 initial) as (st' & Hloop & Hcom).
    unfold scheduleExecutions. rewrite Hloop. unfold invoke.
    destruct (onComplete s) as [g|] eqn:Hg.
    + split; [by destruct (throws _)|]. intros f [= <-].
      eexists. split; [|split; [|split; [|split; [|split]]]].
      * destruct (throws _); cbn; unfold completions in *; rewrite omap_app, Hcom; done.
      * destruct (throws _); cbn; apply last_snoc.
      * done.
      * by destruct (throws _).
      * by destruct (throws _).
      * cbn. apply filter_success_split.
    + split; [done|]. intros f [=].
Qed.

End SchedulerMore.

(** * Further properties of the execution statistics *)

Lemma round_bounds (q : Q) (a b : Z) :
  (inject_Z a <= q)%Q → (q <= inject_Z b)%Q → a ≤ Quantify.round q ≤ b.
Proof.
  intros Ha Hb. unfold Quantify.round. split.
  - rewrite <- (Qfloor_Z a). apply Qfloor_resp_le. lra.
  - apply Z.lt_succ_r. rewrite Zlt_Qlt.
    pose proof (Qfloor_le (q + (1 # 2))) as Hfl.
    unfold Z.succ. rewrite inject_Z_plus. change (inject_Z 1) with 1%Q. lra.
Qed.

Lemma ratio_bounds (a n : Z) :
  0 ≤ a ≤ n → 0 < n → (0 <= inject_Z a / inject_Z n <= 1)%Q.
Proof.
  intros Ha Hn.
  assert (inject_Z 0 < inject_Z n)%Q as Hn' by (rewrite <- Zlt_Qlt; lia).
  assert (inject_Z 0 <= inject_Z a)%Q as Ha0 by (rewrite <- Zle_Qle; lia).
  change (inject_Z 0) with 0%Q in Hn', Ha0.
  assert (inject_Z a <= inject_Z n)%Q as Han by (rewrite <- Zle_Qle; lia).
  split.
  - apply Qle_shift_div_l; [done|lra].
  - apply Qle_shift_div_r; [done|lra].
Qed.

(** ** Rounding to a Number keeps bounds that are Numbers *)

Section DoubleFacts.
Import Quantify.

Lemma pow2_pos (e : Z) : (0 < 2 ^ e)%Q.
Proof. apply Qpower_0_lt. reflexivity. Qed.

Lemma pow2_succ (e : Z) : (2 ^ (e + 1) == 2 * 2 ^ e)%Q.
Proof. rewrite Qpower_plus by discriminate. rewrite Qpower_1_r. ring. Qed.

Lemma pow2_le (e e' : Z) : e <= e' -> (2 ^ e <= 2 ^ e')%Q.
Proof. intros He. apply Qpower_le_compat_l; [exact He|discriminate]. Qed.

Lemma pow2_Z (n : Z) : 0 <= n -> (2 ^ n == inject_Z (2 ^ n))%Q.
Proof. intros Hn. symmetry. apply (Zpower_Qpower 2 n Hn). Qed.

Lemma binade_spec (q : Q) : (0 < q)%Q -> (2 ^ binade q <= q /\ q < 2 ^ (binade q + 1))%Q.
Proof.
  intros Hq. destruct q as [a b]. unfold binade. cbn [Qnum Qden].
  assert (0 < a) as Ha by (unfold Qlt in Hq; cbn in Hq; lia).
  set (la := Z.log2 a). set (lb := Z.log2 (Z.pos b)).
  destruct (Z.log2_spec a Ha) as [Hla1 Hla2]. fold la in Hla1, Hla2.
  destruct (Z.log2_spec (Z.pos b) ltac:(lia)) as [Hlb1 Hlb2]. fold lb in Hlb1, Hlb2.
  assert (0 <= la) as Hla0 by apply Z.log2_nonneg.
  assert (0 <= lb) as Hlb0 by apply Z.log2_nonneg.
  assert (a # b == inject_Z a / inject_Z (Z.pos b))%Q as Hab by apply Qmake_Qdiv.
  assert (0 < inject_Z (Z.pos b))%Q as Hbpos by (rewrite <- (Zlt_Qlt 0); lia).
  assert (forall e, (2 ^ (la - lb + e) == inject_Z (2 ^ la) / inject_Z (2 ^ lb) * 2 ^ e)%Q) as Hpow.
  { intros e. rewrite Qpower_plus by discriminate. rewrite Qpower_minus by discriminate.
    by rewrite !pow2_Z by lia. }
  assert (0 < inject_Z (2 ^ lb))%Q as Hlbpos.
  { rewrite <- (Zlt_Qlt 0). apply Z.pow_pos_nonneg; lia. }
  assert (inject_Z (2 ^ la) <= inject_Z a)%Q as H1 by (rewrite <- Zle_Qle; lia).
  assert (inject_Z a < 2 * inject_Z (2 ^ la))%Q as H2.
  { rewrite <- (inject_Z_mult 2). rewrite <- Zlt_Qlt. rewrite Z.pow_succ_r in Hla2 by lia. lia. }
  assert (inject_Z (2 ^ lb) <= inject_Z (Z.pos b))%Q as H3 by (rewrite <- Zle_Qle; lia).
  assert (inject_Z (Z.pos b) < 2 * inject_Z (2 ^ lb))%Q as H4.
  { rewrite <- (inject_Z_mult 2). rewrite <- Zlt_Qlt. rewrite Z.pow_succ_r in Hlb2 by lia. lia. }
  assert (a # b < 2 ^ (la - lb + 1))%Q as Hup.
  { rewrite Hab, Hpow, Qpower_1_r.
    apply Qlt_shift_div_r; [exact Hbpos|].
    set (A := inject_Z a) in *. set (B := inject_Z (Z.pos b)) in *.
    set (PA := inject_Z (2 ^ la)) in *. set (PB := inject_Z (2 ^ lb)) in *.
    assert (PA / PB * 2 * B == 2 * PA * (B / PB))%Q as -> by (field; lra).
    assert (1 <= B / PB)%Q by (apply Qle_shift_div_l; lra).
    assert (0 < PA)%Q by (unfold PA; rewrite <- (Zlt_Qlt 0); apply Z.pow_pos_nonneg; lia).
    nra. }
  assert (2 ^ (la - lb + -1) < a # b)%Q as Hlow.
  { rewrite Hab, Hpow.
    apply Qlt_shift_div_l; [exact Hbpos|].
    set (A := inject_Z a) in *. set (B := inject_Z (Z.pos b)) in *.
    set (PA := inject_Z (2 ^ la)) in *. set (PB := inject_Z (2 ^ lb)) in *.
    change (2 ^ (-1))%Q with (1 # 2)%Q.
    assert (PA / PB * (1 # 2) * B == PA * (B / (2 * PB)))%Q as -> by (field; lra).
    assert (B / (2 * PB) < 1)%Q by (apply Qlt_shift_div_r; lra).
    assert (0 < PA)%Q by (unfold PA; rewrite <- (Zlt_Qlt 0); apply Z.pow_pos_nonneg; lia).
    nra. }
  destruct (Qle_bool (2 ^ (la - lb)) (a # b)) eqn:Hle.
  - apply Qle_bool_iff in Hle. split; [exact Hle|exact Hup].
  - assert (~ (2 ^ (la - lb) <= a # b)%Q) as Hnle.
    { intros Hc. apply Qle_bool_iff in Hc. congruence. }
    apply Qnot_le_lt in Hnle.
    replace (la - lb - 1 + 1) with (la - lb) by lia.
    replace (la - lb - 1) with (la - lb + -1) by lia.
    split; [apply Qlt_le_weak; exact Hlow|exact Hnle].
Qed.

Lemma binade_mono (q r : Q) : (0 < q)%Q -> (q <= r)%Q -> binade q <= binade r.
Proof.
  intros Hq Hqr. assert (0 < r)%Q as Hr by lra.
  destruct (binade_spec q Hq) as [Hq1 _]. destruct (binade_spec r Hr) as [_ Hr2].
  destruct (Z.le_gt_cases (binade q) (binade r)) as [|Hgt]; [done|].
  pose proof (pow2_le (binade r + 1) (binade q) ltac:(lia)). lra.
Qed.

Lemma halfEven_le (q : Q) (n : Z) : (q <= inject_Z n)%Q -> halfEven q <= n.
Proof.
  intros Hq. unfold halfEven.
  pose proof (Qfloor_le q) as Hfl. pose proof (Qlt_floor q) as Hfu.
  assert (Qfloor q <= n) as Hn.
  { rewrite Zle_Qle. lra. }
  destruct (Z.eq_dec (Qfloor q) n) as [Heq|Hne].
  - assert (q - inject_Z (Qfloor q) == 0)%Q as H0 by (rewrite Heq in *; lra).
    assert ((q - inject_Z (Qfloor q) ?= 1 # 2)%Q = Lt) as ->; [|lia].
    apply (proj1 (Qlt_alt _ _)). lra.
  - destruct (q - inject_Z (Qfloor q) ?= 1 # 2)%Q; [destruct (Z.even _)|..]; lia.
Qed.

Lemma halfEven_ge (q : Q) (n : Z) : (inject_Z n <= q)%Q -> n <= halfEven q.
Proof.
  intros Hq. unfold halfEven.
  pose proof (Qfloor_le q) as Hfl. pose proof (Qlt_floor q) as Hfu.
  assert (n <= Qfloor q) as Hn.
  { apply Z.lt_succ_r. rewrite Zlt_Qlt. unfold Z.succ. lra. }
  destruct (q - inject_Z (Qfloor q) ?= 1 # 2)%Q; [destruct (Z.even _)|..]; lia.
Qed.

Lemma double_pos (q : Q) :
  (0 < q)%Q ->
  double q = (inject_Z (halfEven (q / 2 ^ (binade q - 52))) * 2 ^ (binade q - 52))%Q.
Proof.
  intros Hq. unfold double. apply Qgt_alt in Hq. by rewrite Hq.
Qed.

Lemma double_le (q hi : Q) :
  isDouble hi -> (0 < q)%Q -> (q <= hi)%Q -> (double q <= hi)%Q.
Proof.
  intros [m Hm] Hq Hle. rewrite (double_pos q Hq).
  assert (0 < hi)%Q as Hhi by lra.
  destruct (binade_spec q Hq) as [Hq1 Hq2]. destruct (binade_spec hi Hhi) as [Hh1 Hh2].
  pose proof (binade_mono q hi Hq Hle) as Hmono.
  set (u := (2 ^ (binade q - 52))%Q).
  assert (0 < u)%Q as Hu by apply pow2_pos.
  destruct (Z.eq_dec (binade q) (binade hi)) as [Heq|Hne].
  - rewrite <- Heq in Hm. fold u in Hm.
    assert (halfEven (q / u) <= m) as Hhe.
    { apply halfEven_le. apply Qle_shift_div_r; [exact Hu|]. by rewrite <- Hm. }
    rewrite Zle_Qle in Hhe. rewrite Hm. nra.
  - assert (2 ^ (binade q + 1) == inject_Z (2 ^ 53) * u)%Q as Htop.
    { unfold u. rewrite <- pow2_Z by lia. rewrite <- Qpower_plus by discriminate.
      by replace (53 + (binade q - 52)) with (binade q + 1) by lia. }
    assert (halfEven (q / u) <= 2 ^ 53) as Hhe.
    { apply halfEven_le. apply Qle_shift_div_r; [exact Hu|]. rewrite <- Htop. lra. }
    rewrite Zle_Qle in Hhe.
    pose proof (pow2_le (binade q + 1) (binade hi) ltac:(lia)) as Hpow.
    rewrite Htop in Hpow. nra.
Qed.

Lemma double_ge (q lo : Q) :
  isDouble lo -> (0 < lo)%Q -> (lo <= q)%Q -> (lo <= double q)%Q.
Proof.
  intros [m Hm] Hlo Hle. assert (0 < q)%Q as Hq by lra. rewrite (double_pos q Hq).
  destruct (binade_spec q Hq) as [Hq1 Hq2]. destruct (binade_spec lo Hlo) as [Hl1 Hl2].
  pose proof (binade_mono lo q Hlo Hle) as Hmono.
  set (u := (2 ^ (binade q - 52))%Q).
  assert (0 < u)%Q as Hu by apply pow2_pos.
  destruct (Z.eq_dec (binade lo) (binade q)) as [Heq|Hne].
  - rewrite Heq in Hm. fold u in Hm.
    assert (m <= halfEven (q / u)) as Hhe.
    { apply halfEven_ge. apply Qle_shift_div_l; [exact Hu|]. by rewrite <- Hm. }
    rewrite Zle_Qle in Hhe. rewrite Hm. nra.
  - assert (2 ^ binade q == inject_Z (2 ^ 52) * u)%Q as Hbot.
    { unfold u. rewrite <- pow2_Z by lia. rewrite <- Qpower_plus by discriminate.
      by replace (52 + (binade q - 52)) with (binade q) by lia. }
    assert (2 ^ 52 <= halfEven (q / u)) as Hhe.
    { apply halfEven_ge. apply Qle_shift_div_l; [exact Hu|]. rewrite <- Hbot. lra. }
    rewrite Zle_Qle in Hhe.
    pose proof (pow2_le (binade lo + 1) (binade q) ltac:(lia)) as Hpow.
    rewrite Hbot in Hpow. nra.
Qed.

Lemma double_nonneg (q : Q) : (0 <= q)%Q -> (0 <= double q)%Q.
Proof.
  intros Hq. destruct (Qlt_le_dec 0 q) as [Hpos|Hneg].
  - rewrite (double_pos q Hpos).
    assert (0 <= halfEven (q / 2 ^ (binade q - 52))) as Hhe.
    { apply halfEven_ge. apply Qle_shift_div_l; [apply pow2_pos|].
      change (inject_Z 0) with 0%Q. lra. }
    rewrite Zle_Qle in Hhe. change (inject_Z 0) with 0%Q in Hhe.
    pose proof (pow2_pos (binade q - 52)). nra.
  - assert (q == 0)%Q as H0 by lra. unfold double.
    apply Qeq_alt in H0. rewrite H0. lra.
Qed.

Lemma double_exact (x : Q) : isDouble x -> (0 < x)%Q -> (double x == x)%Q.
Proof.
  intros Hx Hpos. apply Qle_antisym.
  - apply double_le; [done|done|lra].
  - apply double_ge; [done|done|lra].
Qed.

Lemma double_zero (q : Q) : (q == 0)%Q -> double q = 0%Q.
Proof. intros H0. unfold double. apply Qeq_alt in H0. by rewrite H0. Qed.

Lemma double_between (q lo hi : Q) :
  isDouble lo -> isDouble hi -> (0 <= lo)%Q -> (lo <= q)%Q -> (q <= hi)%Q ->
  (lo <= double q <= hi)%Q.
Proof.
  intros Hlo Hhi H0 Hl Hh. destruct (Qlt_le_dec 0 q) as [Hpos|Hneg].
  - split; [|by apply double_le].
    destruct (Qlt_le_dec 0 lo) as [Hlpos|Hlneg]; [by apply double_ge|].
    pose proof (double_nonneg q ltac:(lra)). lra.
  - rewrite (double_zero q) by lra. lra.
Qed.

Lemma isDouble_Z (z : Z) : 0 <= z < 2 ^ 53 -> isDouble (inject_Z z).
Proof.
  intros Hz. destruct (Z.eq_dec z 0) as [->|Hnz].
  { exists 0. change (inject_Z 0) with 0%Q. lra. }
  assert (0 < inject_Z z)%Q as Hpos by (rewrite <- (Zlt_Qlt 0); lia).
  destruct (binade_spec _ Hpos) as [Hb1 Hb2].
  assert (0 <= binade (inject_Z z)) as Hb0.
  { destruct (Z.le_gt_cases 0 (binade (inject_Z z))) as [|Hlt]; [done|].
    pose proof (pow2_le (binade (inject_Z z) + 1) 0 ltac:(lia)) as Hp.
    change (2 ^ 0)%Q with 1%Q in Hp.
    assert (inject_Z z < inject_Z 1)%Q as Hz1 by (change (inject_Z 1) with 1%Q; lra).
    rewrite <- Zlt_Qlt in Hz1. lia. }
  assert (binade (inject_Z z) <= 52) as Hb52.
  { destruct (Z.le_gt_cases (binade (inject_Z z)) 52) as [|Hgt]; [done|].
    pose proof (pow2_le 53 (binade (inject_Z z)) ltac:(lia)) as Hp.
    rewrite (pow2_Z 53) in Hp by lia.
    assert (inject_Z (2 ^ 53) <= inject_Z z)%Q as Hz1 by lra.
    rewrite <- Zle_Qle in Hz1. lia. }
  exists (z * 2 ^ (52 - binade (inject_Z z))).
  rewrite inject_Z_mult. rewrite <- pow2_Z by lia.
  rewrite <- Qmult_assoc. rewrite <- Qpower_plus by discriminate.
  replace (52 - binade (inject_Z z) + (binade (inject_Z z) - 52)) with 0 by lia.
  change (2 ^ 0)%Q with 1%Q. ring.
Qed.

End DoubleFacts.

Section StatsMore.
Import JS Quantify.

Lemma last_nonempty_default {A : Type} (x : A) (l : list A) (d d' : A) :
  List.last (x :: l) d = List.last (x :: l) d'.
Proof.
  revert x. induction l as [|y l IH]; intros x; [done|].
  change (List.last (y :: l) d = List.last (y :: l) d'). apply IH.
Qed.

Lemma intervalsOf_sum (t : Z) (ts : list Z) :
  foldl Z.add 0 (intervalsOf (t :: ts)) = List.last ts t - t ∧
  length (intervalsOf (t :: ts)) = length ts.
Proof.
  assert (∀ ts t acc, foldl Z.add acc (intervalsOf (t :: ts)) = acc + (List.last ts t - t) ∧
                      length (intervalsOf (t :: ts)) = length ts) as Hgen.
  { clear. induction ts as [|t' ts IH]; intros t acc; [cbn; split; [lia|done]|].
    change (intervalsOf (t :: t' :: ts)) with ((t' - t) :: intervalsOf (t' :: ts)).
    cbn [foldl length]. destruct (IH t' (acc + (t' - t))) as [-> ->].
    split; [|done]. destruct ts as [|t'' ts]; [cbn; lia|].
    change (List.last (t' :: t'' :: ts) t) with (List.last (t'' :: ts) t).
    rewrite (last_nonempty_default t'' ts t' t). lia. }
  destruct (Hgen ts t 0) as [-> ->]. split; [lia|done].
Qed.

(** X23.  [averageInterval] depends only on the first and the last
    timestamp and on the number of results: it is the rounded number of
    seconds of [(last - first) / (n - 1)], and [0] for a single result.
    [firstExecution] and [lastExecution] are those two timestamps. *)
Theorem getExecutionStats_average (r0 : ExecutionResult) (rs : list ExecutionResult) :
  let st := getExecutionStats (Some (r0 :: rs)) in
  let first := timestamp r0 in
  let lst := List.last (map timestamp rs) (timestamp r0) in
  firstExecution st = Some first ∧
  lastExecution st = Some lst ∧
  averageInterval st =
    match rs with
    | [] => 0
    | _ => round (inject_Z (lst - first) / inject_Z (Z.of_nat (length rs)) / 1000)%Q
    end.
Proof.
  cbv zeta. unfold getExecutionStats. cbn [firstExecution lastExecution averageInterval].
  split; [done|]. split.
  - clear. revert r0. induction rs as [|r rs IH]; intros r0; [done|].
    change (last (r0 :: r :: rs)) with (last (r :: rs)). rewrite IH. f_equal.
    destruct rs as [|r' rs]; [done|].
    change (List.last (map timestamp (r :: r' :: rs)) (timestamp r0))
      with (List.last (timestamp r' :: map timestamp rs) (timestamp r0)).
    apply last_nonempty_default.
  - destruct rs as [|r rs]; [done|].
    replace (1 <? length (r0 :: r :: rs))%nat with true by done.
    cbn [map]. destruct (intervalsOf_sum (timestamp r0) (timestamp r :: map timestamp rs))
      as [-> ->].
    cbn [length]. by rewrite length_map.
Qed.

Lemma filter_all_success (l : list ExecutionResult) :
  Forall (λ r, success r = true) l → List.filter success l = l.
Proof. induction 1 as [|r l Hr _ IH]; [done|]. cbn. by rewrite Hr, IH. Qed.

Lemma filter_no_success (l : list ExecutionResult) :
  Forall (λ r, success r = false) l → List.filter success l = [].
Proof. induction 1 as [|r l Hr _ IH]; [done|]. cbn. by rewrite Hr. Qed.

(** X24.  The success rate always lies between 0 and 100; it is 100 when
    every result is a success and 0 when none is. *)
Theorem getExecutionStats_successRate (rs : list ExecutionResult) :
  let st := getExecutionStats (Some rs) in
  (0 <= successRate st <= 100)%Q ∧
  (rs ≠ [] → Forall (λ r, success r = true) rs → (successRate st == 100)%Q) ∧
  (Forall (λ r, success r = false) rs → (successRate st == 0)%Q).
Proof.
  cbv zeta. destruct rs as [|r0 rs].
  { cbn. repeat split; try lra; done. }
  unfold getExecutionStats. cbn [successRate].
  set (n := Z.of_nat (length (r0 :: rs))).
  set (a := Z.of_nat (length (List.filter success (r0 :: rs)))).
  assert (0 < n) as Hn by (unfold n; cbn [length]; lia).
  assert (0 ≤ a ≤ n) as Ha.
  { unfold a, n. pose proof (filter_length_le success (r0 :: rs)). lia. }
  assert (isDouble 0) as D0 by (apply (isDouble_Z 0); lia).
  assert (isDouble 1) as D1 by (apply (isDouble_Z 1); lia).
  assert (isDouble 100) as D100 by (apply (isDouble_Z 100); lia).
  assert (isDouble 10000) as D10000 by (apply (isDouble_Z 10000); lia).
  assert (∀ lo hi : Z, 0 ≤ lo → isDouble (inject_Z lo) → isDouble (inject_Z hi) →
            isDouble (inject_Z (lo * 100)) → isDouble (inject_Z (hi * 100)) →
            isDouble (inject_Z (lo * 10000)) → isDouble (inject_Z (hi * 10000)) →
            (inject_Z lo <= inject_Z a / inject_Z n <= inject_Z hi)%Q →
            (inject_Z (lo * 100)
             <= double (inject_Z (round (double (double
                  (double (inject_Z a / inject_Z n) * 100) * 100))) / 100)
             <= inject_Z (hi * 100))%Q) as Hchain.
  { intros lo hi Hlo0 L1 H1 L2 H2 L3 H3 [Hq0 Hq1].
    assert (0 <= inject_Z lo)%Q as Hlo0' by (rewrite <- (Zle_Qle 0); done).
    assert (0 <= inject_Z (lo * 100))%Q as Hlo1' by (rewrite <- (Zle_Qle 0); lia).
    assert (0 <= inject_Z (lo * 10000))%Q as Hlo2' by (rewrite <- (Zle_Qle 0); lia).
    destruct (double_between _ _ _ L1 H1 Hlo0' Hq0 Hq1) as [Ha0 Ha1].
    set (r1 := double (inject_Z a / inject_Z n)) in *.
    destruct (double_between (r1 * 100) _ _ L2 H2 Hlo1') as [Hb0 Hb1];
      [rewrite inject_Z_mult; change (inject_Z 100) with 100%Q; lra
      |rewrite inject_Z_mult; change (inject_Z 100) with 100%Q; lra|].
    set (r2 := double (r1 * 100)) in *.
    rewrite inject_Z_mult in Hb0, Hb1. change (inject_Z 100) with 100%Q in Hb0, Hb1.
    destruct (double_between (r2 * 100) _ _ L3 H3 Hlo2') as [Hc0 Hc1];
      [rewrite inject_Z_mult; change (inject_Z 10000) with 10000%Q; lra
      |rewrite inject_Z_mult; change (inject_Z 10000) with 10000%Q; lra|].
    set (r3 := double (r2 * 100)) in *.
    destruct (round_bounds r3 _ _ Hc0 Hc1) as [Hz0 Hz1].
    set (z := round r3) in *.
    rewrite Zle_Qle in Hz0, Hz1. rewrite inject_Z_mult in Hz0, Hz1.
    change (inject_Z 10000) with 10000%Q in Hz0, Hz1.
    assert (inject_Z z / 100 == inject_Z z * (1 # 100))%Q as Hdiv by reflexivity.
    apply (double_between _ _ _ L2 H2 Hlo1');
      rewrite inject_Z_mult; change (inject_Z 100) with 100%Q; rewrite Hdiv; lra. }
  split; [|split].
  - apply (Hchain 0 1 ltac:(lia) D0 D1 D0 D100 D0 D10000 (ratio_bounds a n Ha Hn)).
  - intros _ Hall.
    assert (a = n) as ->.
    { unfold a, n. by rewrite (filter_all_success _ Hall). }
    destruct (ratio_bounds n n ltac:(lia) Hn) as [_ Hle].
    assert (1 <= inject_Z n / inject_Z n)%Q as Hge.
    { assert (0 < inject_Z n)%Q as Hpos by (rewrite <- (Zlt_Qlt 0); lia).
      apply Qle_shift_div_l; [done|lra]. }
    destruct (Hchain 1 1 ltac:(lia) D1 D1 D100 D100 D10000 D10000 (conj Hge Hle))
      as [Hlo Hhi].
    change (inject_Z (1 * 100)) with 100%Q in Hlo, Hhi. lra.
  - intros Hnone.
    assert (a = 0) as ->.
    { unfold a. by rewrite (filter_no_success _ Hnone). }
    destruct (ratio_bounds 0 n ltac:(lia) Hn) as [Hge _].
    assert (inject_Z 0 / inject_Z n <= 0)%Q as Hle.
    { unfold Qdiv. change (inject_Z 0) with 0%Q. lra. }
    destruct (Hchain 0 0 ltac:(lia) D0 D0 D0 D0 D0 D0 (conj Hge Hle)) as [Hlo Hhi].
    change (inject_Z (0 * 100)) with 0%Q in Hlo, Hhi. lra.
Qed.

(** With [23] successes among [160] results the code computes
    [14.374999999999998], which it rounds to the Number [14.37]; the exact
    quotient [14.375] would round to [14.38]. *)
Example getExecutionStats_successRate_sample :
  let rs := replicate 23 (mkResult 1 0 true VUndef VUndef)
            ++ replicate 137 (mkResult 1 0 false VUndef VUndef) in
  successRate (getExecutionStats (Some rs)) = double (1437 # 100) ∧
  (inject_Z (round (inject_Z 23 / inject_Z 160 * 100 * 100)) / 100 == 1438 # 100)%Q.
Proof. cbv zeta. split; [by vm_compute|reflexivity]. Qed.

End StatsMore.

(** * Properties of single executions *)

Section ExecutionFacts.
Import JS Client Executions.
Context `{Platform}.
Variable positiveText : string → bool.

Lemma requestLoop_stats_irrelevant endpoint payload timeoutMs net maxAttempts fuel :
  ∀ attempts st st' trace,
    (requestLoop fuel endpoint payload timeoutMs net maxAttempts attempts st trace).2 =
    (requestLoop fuel endpoint payload timeoutMs net maxAttempts attempts st' trace).2 ∧
    (requestLoop fuel endpoint payload timeoutMs net maxAttempts attempts st trace).1.2 =
    (requestLoop fuel endpoint payload timeoutMs net maxAttempts attempts st' trace).1.2.
Proof.
  induction fuel as [|fuel IH]; intros attempts st st' trace; [done|].
  cbn [requestLoop]. destruct (attempts <? maxAttempts)%nat; [|done].
  destruct (_makeHttpRequest timeoutMs (net attempts)) as [response|err]; [done|].
  destruct (maxAttempts <=? S attempts)%nat; [done|]. apply IH.
Qed.

(** A request leaves the configuration and the session alone, and what it
    sends and returns does not depend on the counters. *)
Lemma request_frame (c c' : Client) now endpoint params optionsTimeout net :
  config c = config c' → auth c = auth c' →
  (request c' now endpoint params optionsTimeout net).2 =
    (request c now endpoint params optionsTimeout net).2 ∧
  (request c' now endpoint params optionsTimeout net).1.2 =
    (request c now endpoint params optionsTimeout net).1.2 ∧
  config (request c' now endpoint params optionsTimeout net).1.1 = config c ∧
  auth (request c' now endpoint params optionsTimeout net).1.1 = auth c.
Proof.
  intros Hcfg Hauth. unfold request. rewrite <- Hcfg, <- Hauth.
  destruct (negb (isTokenValid now (auth c))); [done|].
  destruct (requestLoop_stats_irrelevant endpoint
              (Signature.prepareSignedPayload now params (apiKey (config c))
                                              (apiSecret (config c)))
              (effectiveTimeout optionsTimeout (config c)) net
              (if autoRetry (config c) then 3%nat else 1%nat)
              (if autoRetry (config c) then 3%nat else 1%nat) 0 (stats c') (stats c) [])
    as [Hres Htr].
  destruct (requestLoop _ _ _ _ _ _ _ (stats c') _) as [[st1 t1] r1].
  destruct (requestLoop _ _ _ _ _ _ _ (stats c) _) as [[st2 t2] r2].
  cbn in *. by subst.
Qed.

Lemma execute_frame (c c' : Client) m options net :
  config c = config c' → auth c = auth c' →
  (execute c' m options net).2 = (execute c m options net).2 ∧
  (execute c' m options net).1.2 = (execute c m options net).1.2 ∧
  config (execute c' m options net).1.1 = config c ∧
  auth (execute c' m options net).1.1 = auth c.
Proof.
  intros Hcfg Hauth. unfold execute.
  destruct (request_frame c c' (at_ m) "/api/quantify/execute"
              (executeParams m options) None net Hcfg Hauth) as (Hr & Ht & Hc & Ha).
  destruct (request c' _ _ _ _ _) as [[c1 t1] r1].
  destruct (request c _ _ _ _ _) as [[c2 t2] r2].
  cbn in *. by subst.
Qed.

Lemma retryLoop_step (fuel maxRetries : nat) (retryDelay : Z) world attempt
    (c c' : Client) trace lastError :
  config c = config c' → auth c = auth c' → (attempt ≤ maxRetries)%nat →
  retryLoop positiveText (S fuel) maxRetries retryDelay world attempt c' trace lastError =
  match attemptOutcome c world attempt with
  | Return result =>
      ((execute c' (world attempt).1
          [("executionId",
            VStr ("retry-exec-" +:+ string_of_Z (Z.of_nat attempt) +:+ "-"
                  +:+ string_of_Z (at_ (world attempt).1)))] (world attempt).2).1.1,
       trace ++ (execute c (world attempt).1
          [("executionId",
            VStr ("retry-exec-" +:+ string_of_Z (Z.of_nat attempt) +:+ "-"
                  +:+ string_of_Z (at_ (world attempt).1)))] (world attempt).2).1.2,
       Return (retryReport positiveText result attempt))
  | Throw message =>
      retryLoop positiveText fuel maxRetries retryDelay world (S attempt)
        (execute c' (world attempt).1
          [("executionId",
            VStr ("retry-exec-" +:+ string_of_Z (Z.of_nat attempt) +:+ "-"
                  +:+ string_of_Z (at_ (world attempt).1)))] (world attempt).2).1.1
        (if (attempt <? maxRetries)%nat
         then (trace ++ (execute c (world attempt).1
                 [("executionId",
                   VStr ("retry-exec-" +:+ string_of_Z (Z.of_nat attempt) +:+ "-"
                         +:+ string_of_Z (at_ (world attempt).1)))] (world attempt).2).1.2)
              ++ [EvDelay (retryDelay * Z.of_nat attempt)]
         else trace ++ (execute c (world attempt).1
                 [("executionId",
                   VStr ("retry-exec-" +:+ string_of_Z (Z.of_nat attempt) +:+ "-"
                         +:+ string_of_Z (at_ (world attempt).1)))] (world attempt).2).1.2)
        (Some message)
  end.
Proof.
  intros Hcfg Hauth Hle. cbn [retryLoop].
  destruct (Nat.leb_spec attempt maxRetries); [|lia].
  unfold attemptOutcome. destruct (world attempt) as [m net]. cbn [fst snd].
  destruct (execute_frame c c' m
              [("executionId",
                VStr ("retry-exec-" +:+ string_of_Z (Z.of_nat attempt) +:+ "-"
                      +:+ string_of_Z (at_ m)))] net Hcfg Hauth) as (Hr & Ht & _).
  destruct (execute c' m _ net) as [[c1 t1] r1].
  destruct (execute c m _ net) as [[c2 t2] r2].
  cbn in *. subst. by destruct r2.
Qed.


Lemma retryLoop_all_fail (maxRetries : nat) (retryDelay : Z) world (c : Client)
    (e : nat → string) :
  (∀ j, (1 ≤ j ≤ maxRetries)%nat → attemptOutcome c world j = Throw (e j)) →
  ∀ fuel attempt c' trace lastError,
    config c = config c' → auth c = auth c' →
    (attempt + fuel = S maxRetries)%nat → (1 ≤ attempt)%nat →
    (retryLoop positiveText fuel maxRetries retryDelay world attempt c' trace lastError).2
      = Throw (retryFailure maxRetries
                 (if fuel is O then lastError else Some (e maxRetries))) ∧
    (retryLoop positiveText fuel maxRetries retryDelay world attempt c' trace lastError).1.2
      = trace ++ failedAttempts c world retryDelay maxRetries attempt fuel.
Proof.
  intros Hfail. induction fuel as [|fuel IH];
    intros attempt c' trace lastError Hcfg Hauth Hsum Hle.
  { unfold failedAttempts. cbn. by rewrite app_nil_r. }
  rewrite (retryLoop_step fuel maxRetries retryDelay world attempt c c') by (done || lia).
  rewrite (Hfail attempt) by lia.
  destruct (execute_frame c c' (world attempt).1
              [("executionId",
                VStr ("retry-exec-" +:+ string_of_Z (Z.of_nat attempt) +:+ "-"
                      +:+ string_of_Z (at_ (world attempt).1)))] (world attempt).2
              Hcfg Hauth) as (_ & _ & Hc & Ha).
  match goal with
  | |- context [retryLoop _ fuel _ _ _ (S attempt) ?c1 ?t1 ?l1] =>
      destruct (IH (S attempt) c1 t1 l1) as [Hres Htr]; [done|done|lia|lia|]
  end.
  rewrite Hres, Htr. split.
  - destruct fuel as [|fuel]; [|done]. by replace attempt with maxRetries by lia.
  - unfold failedAttempts. cbn [seq map concat]. fold (attemptTrace c world attempt).
    destruct (attempt <? maxRetries)%nat; by rewrite <- ?app_assoc.
Qed.

Lemma failedAttempts_before_last (c : Client) world (retryDelay : Z) (maxRetries a n : nat) :
  (a + n ≤ maxRetries)%nat →
  failedAttempts c world retryDelay maxRetries a n =
  concat (map (λ j, attemptTrace c world j ++ [EvDelay (retryDelay * Z.of_nat j)])
              (seq a n)).
Proof.
  revert a. induction n as [|n IH]; intros a Hle; [done|].
  unfold failedAttempts in *. cbn [seq map concat].
  destruct (Nat.ltb_spec a maxRetries); [|lia]. f_equal. apply IH. lia.
Qed.



(** X26.  When every attempt throws, [executeWithRetry] throws after
    [maxRetries] attempts with the message of the last attempt; the last
    attempt is not followed by a wait.  With [maxRetries = 0] nothing is
    attempted and the message ends in [undefined]. *)
Theorem executeWithRetry_exhausted (c : Client) (maxRetries : nat) (retryDelay : Z)
    (world : nat → Moment * (nat → transport)) (e : nat → string) :
  (∀ j, (1 ≤ j ≤ maxRetries)%nat → attemptOutcome c world j = Throw (e j)) →
  (executeWithRetry positiveText c maxRetries retryDelay world).2 =
    Throw ("Quantify execution failed after " +:+ string_of_Z (Z.of_nat maxRetries)
           +:+ " attempts: "
           +:+ (if maxRetries is O then "undefined" else e maxRetries)) ∧
  (executeWithRetry positiveText c maxRetries retryDelay world).1.2 =
    concat (map (λ j, attemptTrace c world j ++ [EvDelay (retryDelay * Z.of_nat j)])
                (seq 1 (maxRetries - 1)))
    ++ (if maxRetries is O then [] else attemptTrace c world maxRetries).
Proof.
  intros Hfail. unfold executeWithRetry.
  destruct (retryLoop_all_fail maxRetries retryDelay world c e Hfail
              maxRetries 1%nat c [] None eq_refl eq_refl ltac:(lia) ltac:(lia))
    as [Hres Htr].
  rewrite Hres, Htr. split.
  - unfold retryFailure. by destruct maxRetries.
  - cbn [app]. destruct maxRetries as [|n]; [done|].
    replace (S n - 1)%nat with n by lia.
    rewrite <- (failedAttempts_before_last c world retryDelay (S n) 1 n) by lia.
    unfold failedAttempts. rewrite seq_S, map_app, concat_app. f_equal.
    cbn [map concat]. replace (1 + n)%nat with (S n) by lia.
    destruct (Nat.ltb_spec (S n) (S n)); [lia|]. by rewrite !app_nil_r.
Qed.

Lemma attemptsOf_app (t1 t2 : list event) :
  attemptsOf (t1 ++ t2) = (attemptsOf t1 + attemptsOf t2)%nat.
Proof. unfold attemptsOf. by rewrite List.filter_app, length_app. Qed.

Lemma delaysOf_app (t1 t2 : list event) : delaysOf (t1 ++ t2) = delaysOf t1 ++ delaysOf t2.
Proof. unfold delaysOf. apply omap_app. Qed.

Lemma execute_all_fail (c : Client) (m : Moment) (options : object)
    (net : nat → transport) :
  autoRetry (config c) = true →
  isTokenValid (at_ m) (auth c) = true →
  (∀ j, (j < 3)%nat → isFailure (net j) = true) →
  (execute c m options net).2 = Throw (rejection (timeout (config c)) (net 2%nat)) ∧
  attemptsOf (execute c m options net).1.2 = 3%nat ∧
  delaysOf (execute c m options net).1.2 = [1000; 2000].
Proof.
  intros Hretry Hvalid Hnet. unfold execute, request. rewrite Hvalid, Hretry. cbn [negb].
  rewrite (requestLoop_all_fail "/api/quantify/execute" _ _ net 3 2 0 (stats c) [])
    by (done || (intros k Hk; apply Hnet; lia)).
  done.
Qed.

Lemma execute_unauthenticated (c : Client) (m : Moment) (options : object)
    (net : nat → transport) :
  isTokenValid (at_ m) (auth c) = false →
  execute c m options net =
    (c, [], Throw "Client not authenticated. Call authenticate() first.").
Proof. intros Hvalid. unfold execute, request. by rewrite Hvalid. Qed.

(** X27.  The two retry loops multiply.  On an authenticated client with
    [autoRetry], when the transport fails every time, [executeWithRetry]
    sends [3 * maxRetries] requests: every attempt waits 1000 ms and 2000 ms
    inside [request], and every attempt but the last is followed by the wait
    [retryDelay * attempt]. *)
Theorem executeWithRetry_compounds_retries (c : Client) (maxRetries : nat)
    (retryDelay : Z) (world : nat → Moment * (nat → transport)) :
  autoRetry (config c) = true →
  (∀ k, (1 ≤ k ≤ maxRetries)%nat →
        isTokenValid (at_ (world k).1) (auth c) = true ∧
        ∀ j, (j < 3)%nat → isFailure ((world k).2 j) = true) →
  attemptsOf (executeWithRetry positiveText c maxRetries retryDelay world).1.2
    = (3 * maxRetries)%nat ∧
  delaysOf (executeWithRetry positiveText c maxRetries retryDelay world).1.2
    = concat (map (λ k, [1000; 2000]
                        ++ (if (k <? maxRetries)%nat
                            then [retryDelay * Z.of_nat k] else []))
                  (seq 1 maxRetries)) ∧
  (executeWithRetry positiveText c maxRetries retryDelay world).2
    = Throw (retryFailure maxRetries
               (if maxRetries is O then None
                else Some (rejection (timeout (config c))
                                     ((world maxRetries).2 2%nat)))).
Proof.
  intros Hretry Hworld. unfold executeWithRetry.
  destruct (retryLoop_all_fail maxRetries retryDelay world c
              (λ j, rejection (timeout (config c)) ((world j).2 2%nat))
              ltac:(intros j Hj; destruct (Hworld j Hj) as [Hv Hn];
                    exact (proj1 (execute_all_fail c _ _ _ Hretry Hv Hn)))
              maxRetries 1%nat c [] None eq_refl eq_refl ltac:(lia) ltac:(lia))
    as [Hres Htr].
  rewrite Hres, Htr. cbn [app].
  assert (∀ n a, (a + n = S maxRetries)%nat → (1 ≤ a)%nat →
            attemptsOf (failedAttempts c world retryDelay maxRetries a n) = (3 * n)%nat ∧
            delaysOf (failedAttempts c world retryDelay maxRetries a n) =
              concat (map (λ k, [1000; 2000]
                                ++ (if (k <? maxRetries)%nat
                                    then [retryDelay * Z.of_nat k] else []))
                          (seq a n))) as Hall.
  { induction n as [|n IH]; intros a Hsum Ha; [done|].
    unfold failedAttempts in *. cbn [seq map concat].
    destruct (Hworld a ltac:(lia)) as [Hv Hn].
    destruct (execute_all_fail c (world a).1
                [("executionId",
                  VStr ("retry-exec-" +:+ string_of_Z (Z.of_nat a) +:+ "-"
                        +:+ string_of_Z (at_ (world a).1)))] (world a).2 Hretry Hv Hn)
      as (_ & Hcount & Hdelays).
    destruct (IH (S a) ltac:(lia) ltac:(lia)) as [IH1 IH2].
    rewrite !attemptsOf_app, !delaysOf_app, IH1, IH2.
    unfold attemptTrace. rewrite Hcount, Hdelays.
    split; [destruct (a <? maxRetries)%nat; cbn; lia|].
    by destruct (a <? maxRetries)%nat. }
  destruct (Hall maxRetries 1%nat ltac:(lia) ltac:(lia)) as [H1 H2].
  repeat split; done.
Qed.

(** X28.  A client without a valid session is retried all the same:
    [executeWithRetry] sends nothing, still waits [retryDelay * attempt]
    after every attempt but the last, and throws with the message of
    [request]'s authentication check. *)
Theorem executeWithRetry_unauthenticated (c : Client) (maxRetries : nat)
    (retryDelay : Z) (world : nat → Moment * (nat → transport)) :
  (1 ≤ maxRetries)%nat →
  (∀ k, (1 ≤ k ≤ maxRetries)%nat → isTokenValid (at_ (world k).1) (auth c) = false) →
  (executeWithRetry positiveText c maxRetries retryDelay world).1.2
    = map EvDelay (outerDelays retryDelay 1 (maxRetries - 1)) ∧
  (executeWithRetry positiveText c maxRetries retryDelay world).2
    = Throw ("Quantify execution failed after " +:+ string_of_Z (Z.of_nat maxRetries)
             +:+ " attempts: Client not authenticated. Call authenticate() first.").
Proof.
  intros Hpos Hworld. unfold executeWithRetry.
  destruct (retryLoop_all_fail maxRetries retryDelay world c
              (λ _, "Client not authenticated. Call authenticate() first.")
              ltac:(intros j Hj; unfold attemptOutcome;
                    by rewrite (execute_unauthenticated c _ _ _ (Hworld j Hj)))
              maxRetries 1%nat c [] None eq_refl eq_refl ltac:(lia) ltac:(lia))
    as [Hres Htr].
  rewrite Hres, Htr. cbn [app]. split; [|destruct maxRetries; [lia|reflexivity]].
  assert (∀ n a, (a + n = S maxRetries)%nat → (1 ≤ a)%nat →
            failedAttempts c world retryDelay maxRetries a n =
            map EvDelay (outerDelays retryDelay a (n - 1))) as Hall.
  { induction n as [|n IH]; intros a Hsum Ha; [done|].
    unfold failedAttempts in *. cbn [seq map concat].
    unfold attemptTrace at 1.
    rewrite (execute_unauthenticated c _ _ _ (Hworld a ltac:(lia))). cbn [fst snd app].
    rewrite IH by lia.
    destruct (Nat.ltb_spec a maxRetries).
    - destruct n as [|n]; [lia|]. replace (S (S n) - 1)%nat with (S (S n - 1)) by lia.
      done.
    - replace n with 0%nat by lia. done. }
  apply Hall; lia.
Qed.

(** X29.  [getStatus] never throws.  It reports [available: true] exactly
    when [execute] returned something other than [null] and [undefined],
    then with [status] ["tips_available"] or ["no_tips"] according to the
    truthiness of [hasTip]; every failure, a missing result included, is
    reported as [available: false] with [status] ["error"] and the message
    of the error, and a client without a valid session gets that report
    without anything being sent. *)
Theorem getStatus_reports (c : Client) (m : Moment) (net : nat → transport) :
  let result :=
    (execute c m [("executionId", VStr ("status-check-" +:+ string_of_Z (at_ m)))] net).2 in
  let status := (getStatus c m net).2 in
  (∀ v, result = Return v → v ≠ VNull → v ≠ VUndef →
        get status "available" = VBool true ∧
        get status "hasTips" = orElse (prop v "hasTip") (VBool false) ∧
        get status "expectedCompletionTime"
          = orElse (prop v "expectedCompletionTime") (VNum 0) ∧
        get status "status"
          = VStr (if truthy (prop v "hasTip") then "tips_available" else "no_tips")) ∧
  (result = Return VNull ∨ result = Return VUndef ∨ Quantify.returns result = false →
   get status "available" = VBool false ∧ get status "status" = VStr "error" ∧
   ∃ message, get status "error" = VStr message ∧
              ∀ e, result = Throw e → message = e) ∧
  (isTokenValid (at_ m) (auth c) = false →
   (getStatus c m net).1.2 = [] ∧
   get status "error" = VStr "Client not authenticated. Call authenticate() first.").
Proof.
  cbv zeta. unfold getStatus.
  split; [|split].
  - intros v Hres Hnull Hundef.
    destruct (execute c m _ net) as [[c' trace] r]. cbn [snd] in *. subst r.
    destruct v; done.
  - intros Hbad.
    destruct (execute c m _ net) as [[c' trace] r]. cbn [snd] in *.
    destruct Hbad as [->|[->|Hthrow]].
    + cbn. repeat split; eauto. eexists. split; [done|]. intros e [=].
    + cbn. repeat split; eauto. eexists. split; [done|]. intros e [=].
    + destruct r as [v|message]; [done|]. cbn. repeat split.
      exists message. split; [done|]. by intros e [= ->].
  - intros Hvalid. by rewrite (execute_unauthenticated c m _ net Hvalid).
Qed.

End ExecutionFacts.

(** * Properties of the daily executor *)

Section ExecutorFacts.
Import JS Quantify SchedulerParts.

Lemma replay_snoc (o : Executor.Options) (t : list event) (e : event) :
  Executor.replay o (t ++ [e]) = Executor.deliver o (Executor.replay o t) e.
Proof. unfold Executor.replay. by rewrite foldl_app. Qed.

Lemma schedule_callbacksReturn (o : Executor.Options) :
  callbacksReturn (Executor.schedule o).
Proof.
  split; intros f r [= <-]; [done|].
  unfold Executor._handleError. by destruct (Executor.stopOnError o).
Qed.

Lemma iteration_mirrors (o : Executor.Options) (w : World) i st :
  stopDuringExecute w i = false → isRunning st = true → Executor.mirrors o st →
  ∃ st',
    match tryBody (Executor.schedule o) w i (setIteration i st) with
    | (st, Throw message) => catchBody (Executor.schedule o) w i message st
    | (st, Return _) => (st, Return tt)
    end = (st', Return tt) ∧
    Executor.mirrors o st'.
Proof.
  intros Hquiet Hrun (Hagree & Hres & Hlive). destruct (Hlive Hrun) as [Hexr Hsch].
  unfold tryBody, catchBody. rewrite Hquiet.
  destruct (execute w i) as [v|message].
  - eexists. split; [reflexivity|]. unfold Executor.mirrors.
    cbn [Executor.schedule onSuccess invoke stopIf emit push setIteration trace results
         isRunning currentIteration fst snd Executor._handleSuccess quiet stops throws].
    rewrite replay_snoc.
    destruct (Executor.replay o (trace st)) as [[run cur res sch] ok].
    cbn in *. subst. rewrite Hrun. by rewrite bool_decide_true.
  - cbn [Executor.schedule onError invoke]. unfold Executor._handleError.
    destruct (Executor.stopOnError o) eqn:Hstop;
      (eexists; split; [reflexivity|]); unfold Executor.mirrors;
      cbn [stopIf emit push setIteration trace results isRunning currentIteration
           fst snd stops throws quiet Executor.stop Executor.record Executor.started
           Executor.isRunning Executor.scheduler negb];
      rewrite replay_snoc;
      destruct (Executor.replay o (trace st)) as [[run cur res sch] ok];
      cbn in *; subst; unfold Executor._handleError; rewrite Hstop; cbn;
      rewrite ?Hrun; rewrite ?bool_decide_true by done; done.
Qed.

Lemma loop_mirrors (o : Executor.Options) (w : World) :
  (∀ i, stopDuringExecute w i = false ∧ stopDuringDelay w i = false) →
  ∀ fuel i st, Executor.mirrors o st →
    ∃ st', loop fuel (Executor.schedule o) w i st = (st', Return tt) ∧
          Executor.mirrors o st'.
Proof.
  intros Hquiet. induction fuel as [|fuel IH]; intros i st Hst; [by exists st|].
  rewrite loop_unfold.
  destruct ((i <=? iterations (Executor.schedule o))%nat && isRunning st) eqn:Hcond;
    [|by exists st].
  apply andb_prop in Hcond as [_ Hrun].
  destruct (iteration_mirrors o w i st (proj1 (Hquiet i)) Hrun Hst) as (st1 & -> & Hst1).
  apply IH.
  destruct ((i <? iterations (Executor.schedule o))%nat && isRunning st1); [|done].
  destruct Hst1 as (Hagree & Hres & Hlive). unfold Executor.mirrors.
  cbn [stopIf emit trace results isRunning]. rewrite replay_snoc.
  rewrite (proj2 (Hquiet i)), andb_true_r. done.
Qed.

(** X30.  A [DailyExecutor] that is started and then left alone collects in
    its own [results] exactly the scheduler's results, and ends not running
    with [currentIteration] 0.  Without [stopOnError] every iteration is
    recorded whatever fails; with [stopOnError] the run ends at the first
    failed iteration, which is the last record, and no wait follows it. *)
Theorem executor_run (o : Executor.Options) (w : World) :
  (∀ i, stopDuringExecute w i = false ∧ stopDuringDelay w i = false) →
  let st := scheduleExecutions (Executor.schedule o) w in
  let run := Executor.replay o (trace st) in
  Executor.agrees run = true ∧
  Executor.results (Executor.executor run) = results st ∧
  Executor.isRunning (Executor.executor run) = false ∧
  Executor.currentIteration (Executor.executor run) = 0%nat ∧
  (Executor.stopOnError o = false → length (results st) = Executor.iterations o) ∧
  (Executor.stopOnError o = true →
   ∀ k, (1 ≤ k ≤ Executor.iterations o)%nat →
        (∀ j, (1 ≤ j < k)%nat → returns (execute w j) = true) →
        returns (execute w k) = false →
        results st = recordsFrom w 1 0 k ∧
        delaysOf (trace st) = replicate (k - 1) (Executor.intervalMinutes o * 60 * 1000)).
Proof.
  intros Hquiet. cbv zeta.
  assert (Executor.mirrors o initial) as Hinit by done.
  destruct (loop_mirrors o w Hquiet (Executor.iterations o) 1 initial Hinit)
    as (st' & Hloop & Hagree & Hres & _).
  assert (scheduleExecutions (Executor.schedule o) w =
          mkState (results st') 0 false
            (trace st' ++ [EvComplete (summary (Executor.schedule o)
                                              (mkState (results st') 0 false (trace st')))]))
    as Hend.
  { unfold scheduleExecutions. cbn [Executor.schedule iterations]. rewrite Hloop. done. }
  split; [|split; [|split; [|split; [|split]]]].
  - rewrite Hend. cbn [trace]. rewrite replay_snoc.
    destruct (Executor.replay o (trace st')) as [ex ok]. cbn in *. by rewrite Hagree.
  - rewrite Hend. cbn [trace results]. rewrite replay_snoc.
    by destruct (Executor.replay o (trace st')) as [ex ok].
  - rewrite Hend. cbn [trace]. rewrite replay_snoc.
    by destruct (Executor.replay o (trace st')) as [ex ok].
  - rewrite Hend. cbn [trace]. rewrite replay_snoc.
    by destruct (Executor.replay o (trace st')) as [ex ok].
  - intros Hlenient. destruct (Executor.iterations o) as [|n] eqn:Hn.
    { unfold scheduleExecutions. cbn [Executor.schedule iterations]. by rewrite Hn. }
    destruct (scheduleExecutions_stopped (Executor.schedule o) w (S n)
                (schedule_callbacksReturn o)) as (Hrecords & _).
    + cbn [Executor.schedule iterations]. lia.
    + intros j Hj. unfold stopRequested, callbackStops.
      rewrite (proj1 (Hquiet j)), (proj2 (Hquiet j)), andb_false_r.
      cbn [Executor.schedule onSuccess onError]. unfold Executor._handleError.
      rewrite Hlenient. by destruct (success _).
    + left. by cbn [Executor.schedule iterations].
    + rewrite <- (length_map iteration), Hrecords, iteration_recordsFrom.
      by rewrite length_seq.
  - intros Hstrict k Hk Hbefore Hat.
    destruct (scheduleExecutions_stopped (Executor.schedule o) w k
                (schedule_callbacksReturn o)) as (Hrecords & Hdelays).
    + by cbn [Executor.schedule iterations].
    + intros j Hj. unfold stopRequested, callbackStops, recordOf.
      rewrite (proj1 (Hquiet j)), (proj2 (Hquiet j)), andb_false_r.
      specialize (Hbefore j Hj). by destruct (execute w j).
    + right. unfold stopRequested, callbackStops, recordOf.
      destruct (execute w k); [done|]. cbn [success Executor.schedule onError].
      unfold Executor._handleError. rewrite Hstrict. cbn. by rewrite orb_true_r.
    + split; [done|]. rewrite Hdelays. unfold waitsAfter, callbackStops, recordOf.
      destruct (execute w k); [done|]. cbn [success Executor.schedule onError].
      unfold Executor._handleError. rewrite Hstrict. cbn.
      rewrite orb_true_r, andb_false_r. by rewrite Nat.add_0_r.
Qed.

End ExecutorFacts.

(** * Instances *)

Section DispatcherInstances.
Import JS Client.

Lemma request_reply_not_retried_witness :
  let P := Decryption.failing_platform in
  let c := mkClient (mkConfig (VStr "key") "secret" true 30000)
                    (mkAuth (VStr "jwt") (Some 1700086400000) true) zeroStats in
  let net : nat → transport := λ _, NetReply 500 VUndef "Internal Server Error" in
  isTokenValid 1700000000000 (auth c) = true ∧
  net 0%nat = NetReply 500 VUndef "Internal Server Error" ∧
  attemptsOf (@request P c 1700000000000 "/api/wallet/balance" [] None net).1.2 = 1%nat ∧
  stats (@request P c 1700000000000 "/api/wallet/balance" [] None net).1.1
    = mkStats 1 0 1 0.
Proof.
  intros P c net.
  assert (isTokenValid 1700000000000 (auth c) = true) as Hauth by reflexivity.
  assert (net 0%nat = NetReply 500 VUndef "Internal Server Error") as Hreply by reflexivity.
  split; [exact Hauth|]. split; [exact Hreply|].
  pose proof (@request_reply_not_retried P c 1700000000000 "/api/wallet/balance" [] None
                net 500 VUndef "Internal Server Error" Hauth Hreply) as Hreq.
  cbv zeta in Hreq. rewrite Hreq. split; reflexivity.
Defined.

Lemma request_decrypts_reply_witness :
  let P := envelope_platform in
  let c := mkClient (mkConfig (VStr "key") "secret" true 30000)
                    (mkAuth (VStr "jwt") (Some 1700086400000) true) zeroStats in
  let net : nat → transport := λ _, NetReply 200 VUndef "abc" in
  let o : object := [("data", VStr "jwt-abc")] in
  isTokenValid 1700000000000 (auth c) = true ∧
  net 0%nat = NetReply 200 VUndef "abc" ∧
  @JSON_parse P "abc" = Some (VObj o) ∧
  get o "data" = VStr "jwt-abc" ∧ "jwt-abc" ≠ "" ∧
  truthy (@Decryption.decryptRSAResponse P "jwt-abc" Decryption.maxDecryptBlock) = true ∧
  encrypted (stats (@request P c 1700000000000 "/api/wallet/balance" [] None net).1.1) = 1.
Proof.
  intros P c net o.
  assert (isTokenValid 1700000000000 (auth c) = true) as H1 by reflexivity.
  assert (net 0%nat = NetReply 200 VUndef "abc") as H2 by reflexivity.
  assert (@JSON_parse P "abc" = Some (VObj o)) as H3 by reflexivity.
  assert (get o "data" = VStr "jwt-abc") as H4 by reflexivity.
  assert ("jwt-abc" ≠ "") as H5 by discriminate.
  assert (truthy (@Decryption.decryptRSAResponse P "jwt-abc" Decryption.maxDecryptBlock)
          = true) as H6 by (vm_compute; reflexivity).
  split; [exact H1|]. split; [exact H2|]. split; [exact H3|]. split; [exact H4|].
  split; [exact H5|]. split; [exact H6|].
  exact (proj2 (@request_decrypts_reply P c 1700000000000 "/api/wallet/balance" [] None
                  net 200 VUndef "abc" o "jwt-abc" H1 H2 H3 H4 H5 H6)).
Defined.

End DispatcherInstances.

Section SessionInstances.
Import JS Client Session.

Lemma authenticate_token_lifetime_witness :
  let P := envelope_platform in
  let cfg := mkConfig (VStr "key") "secret" true 30000 in
  let cr := mkCredentials (VStr "+1") (VStr "5550100") (VStr "secret-code") in
  let run := @authenticate P cfg cr newAuth 1700000000000 1700000000400
               (LoginReply 200 VUndef "abc") in
  truthy run.2 = true ∧
  isTokenValid 1700086400399 run.1.1 = true ∧
  isTokenValid 1700086400400 run.1.1 = false.
Proof.
  intros P cfg cr run.
  assert (truthy run.2 = true) as Htok by (vm_compute; reflexivity).
  split; [exact Htok|].
  destruct (@authenticate_token_lifetime P cfg cr newAuth 1700000000000 1700000000400
              (LoginReply 200 VUndef "abc") Htok) as (Hvalid & _).
  fold run in Hvalid. rewrite !Hvalid. split; reflexivity.
Defined.

End SessionInstances.

Section SchedulerInstances.
Import JS Quantify SchedulerParts.

Lemma schedule_stops_cooperatively_witness :
  let w := mkWorld (λ i, if (i =? 2)%nat then Throw "Request failed: socket hang up"
                         else Return (VObj [("hasTip", VBool true)]))
                   (λ k, 1700000000000 + Z.of_nat k) (λ _, false) (λ _, false) in
  let s := mkSchedule 5 10 None (Some (λ _, mkEffect true None)) None in
  callbacksReturn s ∧ (1 ≤ 2 ≤ iterations s)%nat ∧
  (∀ j, (1 ≤ j < 2)%nat → stopRequested s w j (j - 1) = false) ∧
  (2%nat = iterations s ∨ stopRequested s w 2 (2 - 1) = true) ∧
  map iteration (results (scheduleExecutions s w)) = [1%nat; 2%nat] ∧
  delaysOf (trace (scheduleExecutions s w)) = [600000].
Proof.
  intros w s.
  assert (callbacksReturn s) as Hret.
  { split; intros f r Hf; [done|]. injection Hf as <-. reflexivity. }
  assert (1 ≤ 2 ≤ iterations s)%nat as Hk by (cbn; lia).
  assert (∀ j, (1 ≤ j < 2)%nat → stopRequested s w j (j - 1) = false) as Hbefore.
  { intros j Hj. replace j with 1%nat by lia. reflexivity. }
  assert (2%nat = iterations s ∨ stopRequested s w 2 (2 - 1) = true) as Hat
    by (right; reflexivity).
  split; [exact Hret|]. split; [exact Hk|]. split; [exact Hbefore|]. split; [exact Hat|].
  destruct (schedule_stops_cooperatively s w 2 Hret Hk Hbefore Hat) as (_ & Hseq & Hdel).
  split; [exact Hseq|exact Hdel].
Defined.

Lemma schedule_waits_between_iterations_witness :
  let w := mkWorld (λ i, if (i =? 2)%nat then Throw "Request failed: socket hang up"
                         else Return (VObj [("hasTip", VBool true)]))
                   (λ k, 1700000000000 + Z.of_nat k) (λ _, false) (λ _, false) in
  let s := mkSchedule 3 5 (Some (λ _, quiet)) None None in
  neverStopped s w ∧ callbacksReturn s ∧
  delaysOf (trace (scheduleExecutions s w)) = [300000; 300000].
Proof.
  intros w s.
  assert (neverStopped s w) as Hstop.
  { split; [done|]. split; intros f r Hf; [|done]. injection Hf as <-. reflexivity. }
  assert (callbacksReturn s) as Hret.
  { split; intros f r Hf; [|done]. injection Hf as <-. reflexivity. }
  split; [exact Hstop|]. split; [exact Hret|].
  exact (schedule_waits_between_iterations s w Hstop Hret).
Defined.

Lemma executor_run_witness :
  let w := mkWorld (λ i, if (i =? 2)%nat then Throw "Request failed: socket hang up"
                         else Return (VObj [("hasTip", VBool true)]))
                   (λ k, 1700000000000 + Z.of_nat k) (λ _, false) (λ _, false) in
  let o := Executor.mkOptions 10 5 true in
  let st := scheduleExecutions (Executor.schedule o) w in
  (∀ i, stopDuringExecute w i = false ∧ stopDuringDelay w i = false) ∧
  map success (Executor.results (Executor.executor (Executor.replay o (trace st))))
    = [true; false] ∧
  delaysOf (trace st) = [300000].
Proof.
  intros w o st.
  assert (∀ i, stopDuringExecute w i = false ∧ stopDuringDelay w i = false) as Hquiet
    by (intros i; split; reflexivity).
  split; [exact Hquiet|].
  destruct (executor_run o w Hquiet) as (_ & Hres & _ & _ & _ & Hstrict).
  destruct (Hstrict eq_refl 2%nat) as [Hrecords Hdelays].
  - cbn. lia.
  - intros j Hj. replace j with 1%nat by lia. reflexivity.
  - reflexivity.
  - fold st in Hres, Hrecords, Hdelays. rewrite Hres, Hrecords.
    split; [reflexivity|exact Hdelays].
Defined.

End SchedulerInstances.

Section ExecutionInstances.
Import JS Client Executions.


Lemma executeWithRetry_exhausted_witness :
  let P := Decryption.failing_platform in
  let c := mkClient (mkConfig (VStr "key") "secret" false 30000)
                    (mkAuth (VStr "jwt") (Some 1700086400000) true) zeroStats in
  let world : nat → Moment * (nat → transport) := λ k,
    (mkMoment (1700000000000 + Z.of_nat k) "2023-11-14" "2023-11-14T22:13:20.000Z" "k3j9x",
     λ _, NetTimeout) in
  (∀ j, (1 ≤ j ≤ 2)%nat →
        @attemptOutcome P c world j = Throw "Request timeout after 30000ms") ∧
  (@executeWithRetry P (λ _, false) c 2 1000 world).2 =
    Throw "Quantify execution failed after 2 attempts: Request timeout after 30000ms".
Proof.
  intros P c world.
  assert (∀ j, (1 ≤ j ≤ 2)%nat →
               @attemptOutcome P c world j = Throw "Request timeout after 30000ms")
    as Hfail.
  { intros j Hj. assert (j = 1 ∨ j = 2)%nat as [-> | ->] by lia; vm_compute; reflexivity. }
  split; [exact Hfail|].
  exact (proj1 (@executeWithRetry_exhausted P (λ _, false) c 2 1000 world
                  (λ _, "Request timeout after 30000ms") Hfail)).
Defined.

Lemma executeWithRetry_compounds_retries_witness :
  let P := Decryption.failing_platform in
  let c := mkClient (mkConfig (VStr "key") "secret" true 30000)
                    (mkAuth (VStr "jwt") (Some 1700086400000) true) zeroStats in
  let world : nat → Moment * (nat → transport) := λ _,
    (mkMoment 1700000000000 "2023-11-14" "2023-11-14T22:13:20.000Z" "k3j9x",
     λ _, NetTimeout) in
  autoRetry (config c) = true ∧
  (∀ k, (1 ≤ k ≤ 2)%nat →
        isTokenValid (at_ (world k).1) (auth c) = true ∧
        ∀ j, (j < 3)%nat → isFailure ((world k).2 j) = true) ∧
  attemptsOf (@executeWithRetry P (λ _, false) c 2 500 world).1.2 = 6%nat ∧
  delaysOf (@executeWithRetry P (λ _, false) c 2 500 world).1.2
    = [1000; 2000; 500; 1000; 2000].
Proof.
  intros P c world.
  assert (autoRetry (config c) = true) as Hretry by reflexivity.
  assert (∀ k, (1 ≤ k ≤ 2)%nat →
               isTokenValid (at_ (world k).1) (auth c) = true ∧
               ∀ j, (j < 3)%nat → isFailure ((world k).2 j) = true) as Hworld.
  { intros k Hk. split; [reflexivity|]. intros j Hj. reflexivity. }
  split; [exact Hretry|]. split; [exact Hworld|].
  destruct (@executeWithRetry_compounds_retries P (λ _, false) c 2 500 world Hretry Hworld)
    as (Hcount & Hdelays & _).
  split; [exact Hcount|exact Hdelays].
Defined.

Lemma executeWithRetry_unauthenticated_witness :
  let P := Decryption.failing_platform in
  let c := newClient (mkConfig (VStr "key") "secret" true 30000) in
  let world : nat → Moment * (nat → transport) := λ _,
    (mkMoment 1700000000000 "2023-11-14" "2023-11-14T22:13:20.000Z" "k3j9x",
     λ _, NetReply 200 VUndef "ok") in
  (1 ≤ 3)%nat ∧
  (∀ k, (1 ≤ k ≤ 3)%nat → isTokenValid (at_ (world k).1) (auth c) = false) ∧
  (@executeWithRetry P (λ _, false) c 3 500 world).1.2 = [EvDelay 500; EvDelay 1000].
Proof.
  intros P c world.
  assert (1 ≤ 3)%nat as Hpos by lia.
  assert (∀ k, (1 ≤ k ≤ 3)%nat → isTokenValid (at_ (world k).1) (auth c) = false)
    as Hworld by (intros k Hk; reflexivity).
  split; [exact Hpos|]. split; [exact Hworld|].
  exact (proj1 (@executeWithRetry_unauthenticated P (λ _, false) c 3 500 world
                  Hpos Hworld)).
Defined.

End ExecutionInstances.
